(** * SubproblemComp: a shallow embedding of
      openmdao/core/Subproblem/SubproblemComp.py

    The component wraps an inner OpenMDAO problem.  Its constructor harvests
    the variable tables of the wrapped model and binds the user's selectors
    to table entries; [setup], [compute] and [compute_partials] drive the
    inner problem.  The inner problem itself ([om.Problem]) and the base
    class ([om.ExplicitComponent]) are outside the embedded file: they are
    taken as an abstract [Engine]. *)

From Stdlib Require Import String Ascii.
From stdpp Require Import gmap strings list.

Local Open Scope string_scope.
Local Open Scope list_scope.

(** ** Python strings *)

Module PyStr.

Fixpoint drop (n : nat) (s : string) : string :=
  match n, s with
  | O, _ => s
  | S n', String _ s' => drop n' s'
  | S _, EmptyString => EmptyString
  end.

(** [s.endswith(suffix)]: a plain character-suffix test. *)
Definition endswith (s suffix : string) : bool :=
  (String.length suffix <=? String.length s)%nat
  && String.eqb (drop (String.length s - String.length suffix) s) suffix.

Lemma length_append (a b : string) :
  String.length (a +:+ b) = String.length a + String.length b.
Proof. induction a as [|c a IH]; simpl; [done | by rewrite IH]. Qed.

Lemma drop_append (a b : string) : drop (String.length a) (a +:+ b) = b.
Proof. induction a as [|c a IH]; simpl; [by destruct b | done]. Qed.

Lemma drop_split (n : nat) (s : string) :
  n <= String.length s ->
  exists pre, s = pre +:+ drop n s /\ String.length pre = n.
Proof.
  revert s; induction n as [|n IH]; intros s Hn.
  - exists EmptyString. by destruct s.
  - destruct s as [|c s]; simpl in *; [lia |].
    destruct (IH s) as (pre & Hs & Hl); [lia |].
    exists (String c pre); simpl. split; [exact (f_equal (String c) Hs) | by rewrite Hl].
Qed.

Lemma endswith_true (s suffix : string) :
  endswith s suffix = true <-> exists pre, s = pre +:+ suffix.
Proof.
  unfold endswith. rewrite andb_true_iff, Nat.leb_le, String.eqb_eq. split.
  - intros [Hle Heq].
    destruct (drop_split (String.length s - String.length suffix) s)
      as (pre & Hs & _); [lia |].
    exists pre. by rewrite Heq in Hs.
  - intros [pre ->]. rewrite length_append. split; [lia |].
    replace (String.length pre + String.length suffix - String.length suffix)
      with (String.length pre) by lia.
    apply drop_append.
Qed.

End PyStr.

(** ** Python dictionaries with insertion order

    [self.options['inputs']], the harvested tables and the dictionaries built
    by the comprehensions are insertion-ordered: assigning to a key that is
    present replaces the value where it stands, assigning to a new key
    appends. *)

Abbreviation odict K V := (list (K * V)) (only parsing).

Module OD.
Section Ops.
Context {K V : Type} `{EqDecision K}.

Fixpoint set (k : K) (v : V) (d : odict K V) : odict K V :=
  match d with
  | [] => [(k, v)]
  | (k', v') :: d' =>
      if decide (k' = k) then (k', v) :: d' else (k', v') :: set k v d'
  end.

Fixpoint get (k : K) (d : odict K V) : option V :=
  match d with
  | [] => None
  | (k', v') :: d' => if decide (k' = k) then Some v' else get k d'
  end.

Definition keys (d : odict K V) : list K := map fst d.

(** [dict(pairs)] and [{k: v for ...}]: later pairs overwrite. *)
Definition of_pairs (ps : list (K * V)) : odict K V :=
  fold_left (fun acc kv => set kv.1 kv.2 acc) ps [].

(** [d.update(src)] *)
Definition update (d src : odict K V) : odict K V :=
  fold_left (fun acc kv => set kv.1 kv.2 acc) src d.

Lemma keys_set_fresh k v d : k ∉ keys d -> keys (set k v d) = keys d ++ [k].
Proof.
  induction d as [|[k' v'] d IH]; simpl; [done |].
  intros Hk. apply not_elem_of_cons in Hk as [Hne Hk].
  destruct (decide (k' = k)); [congruence |]. simpl. by rewrite IH.
Qed.

Lemma keys_set_present k v d : k ∈ keys d -> keys (set k v d) = keys d.
Proof.
  induction d as [|[k' v'] d IH]; simpl; [by intros ?%elem_of_nil |].
  intros Hk. destruct (decide (k' = k)); [done |]. simpl.
  apply elem_of_cons in Hk as [?|Hk]; [congruence | by rewrite IH].
Qed.

Lemma get_set_eq k v d : get k (set k v d) = Some v.
Proof.
  induction d as [|[k' v'] d IH]; simpl.
  - by rewrite decide_True.
  - destruct (decide (k' = k)) as [->|Hne]; simpl.
    + by rewrite decide_True.
    + by rewrite decide_False.
Qed.

Lemma get_set_ne k k0 v d : k ≠ k0 -> get k0 (set k v d) = get k0 d.
Proof.
  intros Hne. induction d as [|[k' v'] d IH]; simpl.
  - by rewrite decide_False.
  - destruct (decide (k' = k)) as [->|Hk]; simpl.
    + by rewrite !decide_False.
    + destruct (decide (k' = k0)); [done | apply IH].
Qed.

Lemma get_None k d : get k d = None <-> k ∉ keys d.
Proof.
  induction d as [|[k' v'] d IH]; simpl.
  - split; [intros _; apply not_elem_of_nil | done].
  - rewrite not_elem_of_cons. destruct (decide (k' = k)) as [->|Hne].
    + split; [done | by intros [? _]].
    + rewrite IH. split; [done | by intros [_ ?]].
Qed.

(** Every pair of a single-key comprehension lands on the same key, so
    the dictionary it builds never has more than one entry. *)
Lemma fold_set_const k (vs : list V) d :
  length d <= 1 -> (forall kv, kv ∈ d -> kv.1 = k) ->
  length (fold_left (fun acc kv => set kv.1 kv.2 acc)
                    (map (fun v => (k, v)) vs) d) <= 1.
Proof.
  revert d; induction vs as [|v vs IH]; intros d Hlen Hk; simpl; [done |].
  apply IH.
  - destruct d as [|[k' v'] [|? ?]]; simpl in *; [lia | | lia].
    assert (k' = k) as -> by (apply (Hk (k', v')); left).
    by rewrite decide_True.
  - destruct d as [|[k' v'] [|? ?]]; simpl in *; try lia.
    + intros kv ->%list_elem_of_singleton. done.
    + assert (k' = k) as -> by (apply (Hk (k', v')); left).
      rewrite decide_True by done.
      intros kv ->%list_elem_of_singleton. done.
Qed.

End Ops.
End OD.

(** ** Exceptions and results

    Every construction-time failure of the source is a bare
    [raise Exception(msg)]; the constructors below name the raise sites by
    their message.  The remaining constructors are the interpreter's own
    errors and the failures of the inner problem. *)

Inductive io := Input | Output.

Inductive exn :=
| DuplicateAliasError (alias : string)
    (* 'Variable {alias} already exists. Rename variable or delete copy' *)
| UnknownVariableError (name : string)
    (* '... {name} does not exist in model.' *)
| AmbiguousVariableError (side : io) (name : string)
    (* 'Ambiguous variable {name} in inputs|outputs. ...' *)
| InvalidSelectorError (side : io)
    (* 'Type ... is invalid for input|output. Must be string or tuple.' *)
| TypeError (what : string)
| KeyError (key : string)
| AttributeError (attr : string)
| EngineError (msg : string).

Inductive res (A : Type) :=
| Ok (a : A)
| Raise (e : exn).
Arguments Ok {A} a.
Arguments Raise {A} e.

#[global] Instance res_ret : MRet res := fun A a => Ok a.
#[global] Instance res_bind : MBind res := fun A B f m =>
  match m with
  | Ok a => f a
  | Raise e => Raise e
  end.

#[global] Instance res_fmap : FMap res := fun A B f m =>
  match m with
  | Ok a => Ok (f a)
  | Raise e => Raise e
  end.

Definition is_ok {A} (r : res A) : bool :=
  match r with Ok _ => true | Raise _ => false end.

(** The exception a computation ended with, if any. *)
Definition error_of {A} (r : res A) : option exn :=
  match r with Ok _ => None | Raise e => Some e end.

Lemma error_of_Some {A} (r : res A) e : error_of r = Some e <-> r = Raise e.
Proof. destruct r; simpl; split; congruence. Qed.

#[global] Instance io_eq_dec : EqDecision io.
Proof. solve_decision. Defined.
#[global] Instance exn_eq_dec : EqDecision exn.
Proof. solve_decision. Defined.

(** ** Variable metadata

    [list_inputs]/[list_outputs] return one metadata dictionary per variable.
    The dictionaries are Python objects shared by reference between the
    harvested table and [self.options]; [setup] later mutates them.  They
    live in a store and are addressed by their index. *)

Inductive pyval (V : Type) :=
| PStr (s : string)
| PNone
| PTuple (dims : list nat)
| PArray (v : V).
Arguments PStr {V} s.
Arguments PNone {V}.
Arguments PTuple {V} dims.
Arguments PArray {V} v.

#[global] Instance pyval_eq_dec {V} `{EqDecision V} : EqDecision (pyval V).
Proof. solve_decision. Defined.

Abbreviation meta V := (gmap string (pyval V)) (only parsing).
Abbreviation store V := (list (gmap string (pyval V))) (only parsing).
Abbreviation ref := nat (only parsing).

(** User selectors: [type(inp) is str], [type(inp) is tuple] (read through
    [inp[0]] and [inp[1]]), or any other Python value. *)
Inductive selector :=
| SelStr (name : string)
| SelTuple (prom_name alias : string)
| SelOther.

(** The alias a selector asks for. *)
Definition alias_of (s : selector) : option string :=
  match s with
  | SelStr name => Some name
  | SelTuple _ alias => Some alias
  | SelOther => None
  end.

Section Resolver.
Context {V : Type}.
Implicit Types (h : store V) (table opts : odict string ref).

(** [meta['prom_name']] for the dictionary at [r]. *)
Definition prom_name_of h (r : ref) : res string :=
  match h !! r with
  | None => Raise (EngineError "dangling metadata reference")
  | Some m =>
      match m !! "prom_name" with
      | None => Raise (KeyError "prom_name")
      | Some (PStr s) => Ok s
      | Some _ => Raise (TypeError "prom_name is not a str")
      end
  end.

(** Line 83/84: [{meta['prom_name']: meta for _, meta in model_inputs}]. *)
Fixpoint index_by_prom h (listed : list (string * ref)) (acc : odict string ref)
  : res (odict string ref) :=
  match listed with
  | [] => Ok acc
  | (_, r) :: rest =>
      p ← prom_name_of h r; index_by_prom h rest (OD.set p r acc)
  end.

(** The generator and filter of the comprehensions at lines 97, 117, 149 and
    169: the (key, value) pairs they emit, in table iteration order.  The key
    is the same for every pair. *)
Fixpoint comp_pairs h (key : string) (test : string -> bool) table
  : res (list (string * ref)) :=
  match table with
  | [] => Ok []
  | (_, r) :: rest =>
      p ← prom_name_of h r;
      tl ← comp_pairs h key test rest;
      Ok (if test p then (key, r) :: tl else tl)
  end.

(** [meta['prom_name'] == inp[0]] *)
Definition tuple_test (prom : string) : string -> bool :=
  fun p => String.eqb p prom.

(** [meta['prom_name'].endswith(inp)] *)
Definition str_test (inp : string) : string -> bool :=
  fun p => PyStr.endswith p inp.

(** Lines 97-98 / 149-150. *)
Definition tuple_dict h (prom alias : string) table : res (odict string ref) :=
  OD.of_pairs <$> comp_pairs h alias (tuple_test prom) table.

(** Lines 117-118 / 168-169. *)
Definition str_dict h (inp : string) table : res (odict string ref) :=
  OD.of_pairs <$> comp_pairs h inp (str_test inp) table.

(** One iteration of the loops at lines 87-136 and 139-187; [opts] is
    [self.options['inputs']] (or ['outputs']) and the result is its new
    contents. *)
Definition bind_selector (side : io) h table opts (sel : selector)
  : res (odict string ref) :=
  match sel with
  | SelTuple prom alias =>
      if bool_decide (alias ∈ OD.keys opts)
      then Raise (DuplicateAliasError alias)
      else
        d ← tuple_dict h prom alias table;
        if (length d =? 0)%nat then Raise (UnknownVariableError prom)
        else Ok (OD.update opts d)
  | SelStr inp =>
      if bool_decide (inp ∈ OD.keys opts)
      then Raise (DuplicateAliasError inp)
      else
        d ← str_dict h inp table;
        if (1 <? length d)%nat then Raise (AmbiguousVariableError side inp)
        else if (length d =? 0)%nat then Raise (UnknownVariableError inp)
        else Ok (OD.update opts d)
  | SelOther => Raise (InvalidSelectorError side)
  end.

(** The whole loop.  The options dictionary is mutated in place, so the
    bindings made before a raise stay in it. *)
Fixpoint bind_selectors (side : io) h table (sels : list selector) opts
  : odict string ref * res unit :=
  match sels with
  | [] => (opts, Ok tt)
  | sel :: rest =>
      match bind_selector side h table opts sel with
      | Ok opts' => bind_selectors side h table rest opts'
      | Raise e => (opts, Raise e)
      end
  end.

(** The aliases a selector list asks for, in order. *)
Definition aliases (sels : list selector) : list string := omap alias_of sels.

(** Whether the [if] clause of a comprehension lets the entry at [r]
    through. *)
Definition accepts h (test : string -> bool) (r : ref) : bool :=
  match prom_name_of h r with
  | Ok p => test p
  | Raise _ => false
  end.

(** The table entries a comprehension lets through, in iteration order. *)
Definition matching h (test : string -> bool) table : list ref :=
  filter (fun r => accepts h test r) table.*2.

(** The [if] clause a selector filters the table with, and the name its
    error messages quote. *)
Definition selector_test (sel : selector) : string -> bool :=
  match sel with
  | SelStr inp => str_test inp
  | SelTuple prom _ => tuple_test prom
  | SelOther => fun _ => false
  end.

Definition selector_name (sel : selector) : string :=
  match sel with
  | SelStr inp => inp
  | SelTuple prom _ => prom
  | SelOther => ""
  end.

(** Every dictionary of the table carries a promoted name. *)
Definition table_wf h table : Prop :=
  Forall (fun kr => exists p, prom_name_of h kr.2 = Ok p) table.

End Resolver.

(** ** The inner problem and the base class

    [om.Problem] and [om.ExplicitComponent] are not part of the embedded
    file.  The component only ever calls them, so they are an interface: a
    state type for a problem, one for the base class, and one function per
    method the source calls.  A method that can raise returns [res]. *)

Record Engine := {
  Value : Type;     (* variable values *)
  Matrix : Type;    (* derivative blocks *)
  Model : Type;     (* the wrapped <System> *)
  Driver : Type;
  Extra : Type;     (* comm, name, reports, prob_kwargs: passed through *)
  Kwargs : Type;    (* **kwargs of the component *)
  Problem : Type;   (* state of one om.Problem object *)
  Base : Type;      (* state held by om.ExplicitComponent *)
  om_component_init : Kwargs -> res Base;
  om_add_input : string -> gmap string (pyval Value) -> Base -> res Base;
  om_add_output : string -> gmap string (pyval Value) -> Base -> res Base;
  om_declare_partials : string -> string -> Base -> res Base;
  (* om.Problem(model=model) *)
  om_Problem_of_model : Model -> Problem;
  (* om.Problem(driver=driver, comm=comm, name=name, reports=reports,
                **prob_kwargs) *)
  om_Problem : option Driver -> Extra -> Problem;
  (* p.model.add_subsystem('subsys', model, promotes=['*']) *)
  om_add_subsystem : Model -> Problem -> res Problem;
  om_setup : bool -> Problem -> res Problem;   (* force_alloc_complex *)
  om_final_setup : Problem -> res Problem;
  (* list_inputs/list_outputs(out_stream=None, prom_name=True, units=True,
     shape=True, desc=True): (absolute name, promoted name, other metadata) *)
  om_list_inputs :
    Problem -> res (list (string * (string * gmap string (pyval Value))));
  om_list_outputs :
    Problem -> res (list (string * (string * gmap string (pyval Value))));
  om_set_complex_step_mode : bool -> Problem -> res Problem;
  om_set_val : string -> Value -> Problem -> res Problem;
  om_get_val : string -> Problem -> res Value;
  om_driver : Problem -> option Driver;        (* p.driver *)
  om_run_driver : Problem -> res Problem;
  om_run_model : Problem -> res Problem;
  (* p.compute_totals(of=..., wrt=..., use_abs_names=...) *)
  om_compute_totals :
    list string -> list string -> bool -> Problem ->
    res (Problem * gmap (string * string) Matrix)
}.

(** Which problem object a call is made on: the throwaway one of
    [__init__] (local [p], deleted at line 80) or [self._subprob]. *)
Inductive target := Probe | Subprob.

(** The calls the component makes, in the order it makes them. *)
Inductive call (E : Engine) :=
| CIssueWarning
| CComponentInit
| CAddInput (var : string) (kwargs : gmap string (pyval (Value E)))
| CAddOutput (var : string) (kwargs : gmap string (pyval (Value E)))
| CDeclarePartials (of_ wrt : string)
| CProblem (t : target)
| CAddSubsystem
| CSetup (t : target) (force_alloc_complex : bool)
| CFinalSetup (t : target)
| CListInputs
| CListOutputs
| CDel
| CSetComplexStepMode (active : bool)
| CSetVal (name : string) (v : Value E)
| CGetVal (name : string)
| CRunDriver
| CRunModel
| CComputeTotals (of_ wrt : list string) (use_abs_names : bool).
Arguments CIssueWarning {E}.
Arguments CComponentInit {E}.
Arguments CAddInput {E} var kwargs.
Arguments CAddOutput {E} var kwargs.
Arguments CDeclarePartials {E} of_ wrt.
Arguments CProblem {E} t.
Arguments CAddSubsystem {E}.
Arguments CSetup {E} t force_alloc_complex.
Arguments CFinalSetup {E} t.
Arguments CListInputs {E}.
Arguments CListOutputs {E}.
Arguments CDel {E}.
Arguments CSetComplexStepMode {E} active.
Arguments CSetVal {E} name v.
Arguments CGetVal {E} name.
Arguments CRunDriver {E}.
Arguments CRunModel {E}.
Arguments CComputeTotals {E} of_ wrt use_abs_names.

(** A call that provisions [self._subprob]: [p.setup(...)] on it. *)
Definition is_provision {E} (c : call E) : bool :=
  match c with
  | CSetup Subprob _ => true
  | _ => false
  end.

(** A call that touches [self._subprob] at all. *)
Definition on_subprob {E} (c : call E) : bool :=
  match c with
  | CProblem Subprob | CAddSubsystem | CSetup Subprob _ | CFinalSetup Subprob
  | CSetComplexStepMode _ | CSetVal _ _ | CGetVal _ | CRunDriver | CRunModel
  | CComputeTotals _ _ _ => true
  | _ => false
  end.

(** ** The component instance *)

Record Comp (E : Engine) := {
  base : option (Base E);                  (* set by super().__init__ *)
  options_inputs : odict string ref;       (* self.options['inputs'] *)
  options_outputs : odict string ref;      (* self.options['outputs'] *)
  _prev_complex_step : bool;
  prob_args : option (Model E * option (Driver E) * Extra E);
  _subprob : option (Problem E);
  _input_names : option (list string);
  _output_names : option (list string)
}.
Arguments base {E} c.
Arguments options_inputs {E} c.
Arguments options_outputs {E} c.
Arguments _prev_complex_step {E} c.
Arguments prob_args {E} c.
Arguments _subprob {E} c.
Arguments _input_names {E} c.
Arguments _output_names {E} c.

Record World (E : Engine) := {
  heap : store (Value E);     (* the metadata dictionaries *)
  self : Comp E;
  log : list (call E)
}.
Arguments heap {E} w.
Arguments self {E} w.
Arguments log {E} w.

(** ** Running the methods

    A method is a state transformer over the world that may raise.  A raise
    keeps the world as it was when the exception left: Python does not undo
    the mutations made before it. *)

Section Node.
Context {E : Engine}.

Definition M (A : Type) : Type := World E -> World E * res A.

#[global] Instance M_ret : MRet M := fun A a w => (w, Ok a).
#[global] Instance M_bind : MBind M := fun A B f m w =>
  match m w with
  | (w', Ok a) => f a w'
  | (w', Raise e) => (w', Raise e)
  end.

Definition raise {A} (e : exn) : M A := fun w => (w, Raise e).
Definition lift {A} (r : res A) : M A := fun w => (w, r).

Definition emit (c : call E) : M unit := fun w =>
  ({| heap := heap w; self := self w; log := log w ++ [c] |}, Ok tt).

(** Make a call on a collaborator: record it, then take its result. *)
Definition invoke {A} (c : call E) (r : res A) : M A := emit c;; lift r.

Definition get_self : M (Comp E) := fun w => (w, Ok (self w)).
Definition get_heap : M (store (Value E)) := fun w => (w, Ok (heap w)).
Definition put_heap (h : store (Value E)) : M unit := fun w =>
  ({| heap := h; self := self w; log := log w |}, Ok tt).
Definition modify (f : Comp E -> Comp E) : M unit := fun w =>
  ({| heap := heap w; self := f (self w); log := log w |}, Ok tt).

Definition getattr {A} (name : string) (f : Comp E -> option A) : M A :=
  c ← get_self;
  match f c with
  | Some a => mret a
  | None => raise (AttributeError name)
  end.

Definition getitem {A} (key : string) (o : option A) : M A :=
  match o with
  | Some a => mret a
  | None => raise (KeyError key)
  end.

Fixpoint for_each {A} (l : list A) (body : A -> M unit) : M unit :=
  match l with
  | [] => mret tt
  | a :: l' => body a;; for_each l' body
  end.

Fixpoint for_fold {A S} (l : list A) (body : S -> A -> M S) (s : S) : M S :=
  match l with
  | [] => mret s
  | a :: l' => s' ← body s a; for_fold l' body s'
  end.

(** *** Attribute assignment *)

Definition set_base (v : option (Base E)) (c : Comp E) : Comp E :=
  {| base := v; options_inputs := options_inputs c;
     options_outputs := options_outputs c;
     _prev_complex_step := _prev_complex_step c; prob_args := prob_args c;
     _subprob := _subprob c; _input_names := _input_names c;
     _output_names := _output_names c |}.

Definition set_options (side : io) (v : odict string ref) (c : Comp E) : Comp E :=
  {| base := base c;
     options_inputs := if side is Input then v else options_inputs c;
     options_outputs := if side is Output then v else options_outputs c;
     _prev_complex_step := _prev_complex_step c; prob_args := prob_args c;
     _subprob := _subprob c; _input_names := _input_names c;
     _output_names := _output_names c |}.

Definition get_options (side : io) (c : Comp E) : odict string ref :=
  if side is Input then options_inputs c else options_outputs c.

Definition set_prev_complex_step (v : bool) (c : Comp E) : Comp E :=
  {| base := base c; options_inputs := options_inputs c;
     options_outputs := options_outputs c;
     _prev_complex_step := v; prob_args := prob_args c;
     _subprob := _subprob c; _input_names := _input_names c;
     _output_names := _output_names c |}.

Definition set_prob_args (v : option (Model E * option (Driver E) * Extra E))
    (c : Comp E) : Comp E :=
  {| base := base c; options_inputs := options_inputs c;
     options_outputs := options_outputs c;
     _prev_complex_step := _prev_complex_step c; prob_args := v;
     _subprob := _subprob c; _input_names := _input_names c;
     _output_names := _output_names c |}.

Definition set_subprob (v : option (Problem E)) (c : Comp E) : Comp E :=
  {| base := base c; options_inputs := options_inputs c;
     options_outputs := options_outputs c;
     _prev_complex_step := _prev_complex_step c; prob_args := prob_args c;
     _subprob := v; _input_names := _input_names c;
     _output_names := _output_names c |}.

Definition set_input_names (v : option (list string)) (c : Comp E) : Comp E :=
  {| base := base c; options_inputs := options_inputs c;
     options_outputs := options_outputs c;
     _prev_complex_step := _prev_complex_step c; prob_args := prob_args c;
     _subprob := _subprob c; _input_names := v;
     _output_names := _output_names c |}.

Definition set_output_names (v : option (list string)) (c : Comp E) : Comp E :=
  {| base := base c; options_inputs := options_inputs c;
     options_outputs := options_outputs c;
     _prev_complex_step := _prev_complex_step c; prob_args := prob_args c;
     _subprob := _subprob c; _input_names := _input_names c;
     _output_names := v |}.

(** *** Calls on [self._subprob] and on the base class

    [p] and [self._subprob] name one object; a method that returns leaves the
    new state in it.  When a method raises, the state it leaves behind is not
    known and the old one is kept. *)

Definition on_subprob_do (c : call E) (f : Problem E -> res (Problem E)) : M unit :=
  p ← getattr "_subprob" _subprob;
  p' ← invoke c (f p);
  modify (set_subprob (Some p')).

Definition on_base_do (c : call E) (f : Base E -> res (Base E)) : M unit :=
  b ← getattr "base" base;
  b' ← invoke c (f b);
  modify (set_base (Some b')).

(** *** Metadata dictionaries *)

(** The dictionary [list_inputs(prom_name=True, ...)] builds for one
    variable. *)
Definition to_meta (d : string * gmap string (pyval (Value E)))
  : gmap string (pyval (Value E)) :=
  <["prom_name" := PStr d.1]> d.2.

(** The dictionaries of a harvested list are fresh objects. *)
Fixpoint alloc_metas
    (listed : list (string * (string * gmap string (pyval (Value E)))))
  : M (list (string * ref)) :=
  match listed with
  | [] => mret []
  | (abs_name, d) :: rest =>
      h ← get_heap;
      put_heap (h ++ [to_meta d]);;
      tl ← alloc_metas rest;
      mret ((abs_name, length h) :: tl)
  end.

Definition deref (r : ref) : M (gmap string (pyval (Value E))) :=
  h ← get_heap;
  match h !! r with
  | Some m => mret m
  | None => raise (EngineError "dangling metadata reference")
  end.

(** [meta.pop(key)] *)
Definition meta_pop (r : ref) (key : string) : M (pyval (Value E)) :=
  m ← deref r;
  v ← getitem key (m !! key);
  h ← get_heap;
  put_heap (<[r := delete key m]> h);;
  mret v.

(** [meta[key] = v] *)
Definition meta_setitem (r : ref) (key : string) (v : pyval (Value E)) : M unit :=
  m ← deref r;
  h ← get_heap;
  put_heap (<[r := <[key := v]> m]> h).

(** ** [SubproblemComp.__init__] (lines 43-187) *)

(** The two [for] loops.  Iterating [None] raises before the body runs. *)
Definition bind_loop (side : io) (table : odict string ref)
    (sels : option (list selector)) : M unit :=
  match sels with
  | None => raise (TypeError "'NoneType' object is not iterable")
  | Some l => fun w =>
      let '(opts, r) :=
        bind_selectors side (heap w) table l (get_options side (self w)) in
      ({| heap := heap w; self := set_options side opts (self w); log := log w |}, r)
  end.

(** Lines 47-84: everything up to the two tables keyed by promoted name. *)
Definition harvest (model : Model E) (driver : option (Driver E))
    (extra : Extra E) (kwargs : Kwargs E)
  : M (odict string ref * odict string ref) :=
  (if driver is Some _ then emit CIssueWarning else mret tt);;
  (* call base class to set kwargs *)
  b ← invoke CComponentInit (om_component_init E kwargs);
  modify (set_base (Some b));;
  (* store inputs and outputs in options *)
  modify (set_options Input []);;
  modify (set_options Output []);;
  (* set other variables necessary for subproblem *)
  modify (set_prev_complex_step false);;
  modify (set_prob_args (Some (model, driver, extra)));;
  (* instantiate problem to get model inputs and outputs *)
  emit (CProblem Probe);;
  p ← invoke (CSetup Probe false) (om_setup E false (om_Problem_of_model E model));
  p ← invoke (CFinalSetup Probe) (om_final_setup E p);
  listed_in ← invoke CListInputs (om_list_inputs E p);
  model_inputs ← alloc_metas listed_in;
  listed_out ← invoke CListOutputs (om_list_outputs E p);
  model_outputs ← alloc_metas listed_out;
  (* delete problem and free memory *)
  emit CDel;;
  (* store model inputs/outputs as dictionary with keys as the promoted name *)
  h ← get_heap;
  model_inputs ← lift (index_by_prom h model_inputs []);
  model_outputs ← lift (index_by_prom h model_outputs []);
  mret (model_inputs, model_outputs).

Definition __init__ (model : Model E) (driver : option (Driver E))
    (extra : Extra E) (kwargs : Kwargs E)
    (inputs outputs : option (list selector)) : M unit :=
  tables ← harvest model driver extra kwargs;
  (* loop through inputs and make sure they're valid for use *)
  bind_loop Input tables.1 inputs;;
  (* loop through outputs and make sure they're valid for use *)
  bind_loop Output tables.2 outputs.

(** The object before [__init__] has run on it. *)
Definition blank : Comp E :=
  {| base := None; options_inputs := []; options_outputs := [];
     _prev_complex_step := false; prob_args := None; _subprob := None;
     _input_names := None; _output_names := None |}.

Definition fresh_world : World E := {| heap := []; self := blank; log := [] |}.

(** The expression [SubproblemComp(model=..., ...)]: the caller gets the
    instance only when [__init__] returns. *)
Definition SubproblemComp (model : Model E) (driver : option (Driver E))
    (extra : Extra E) (kwargs : Kwargs E)
    (inputs outputs : option (list selector)) : res (World E) :=
  match __init__ model driver extra kwargs inputs outputs fresh_world with
  | (w, Ok _) => Ok w
  | (_, Raise e) => Raise e
  end.

(** ** [SubproblemComp.setup] (lines 189-231) *)

Definition append_input_name (var : string) : M unit :=
  names ← getattr "_input_names" _input_names;
  modify (set_input_names (Some (names ++ [var]))).

Definition append_output_name (var : string) : M unit :=
  names ← getattr "_output_names" _output_names;
  modify (set_output_names (Some (names ++ [var]))).

Definition setup_input (item : string * ref) : M unit :=
  let '(var, r) := item in
  prom_name ← meta_pop r "prom_name";
  m ← deref r;
  on_base_do (CAddInput var m) (om_add_input E var m);;
  (* add prom_name back *)
  meta_setitem r "prom_name" prom_name;;
  append_input_name var.

Definition setup_output (item : string * ref) : M unit :=
  let '(var, r) := item in
  prom_name ← meta_pop r "prom_name";
  m ← deref r;
  on_base_do (CAddOutput var m) (om_add_output E var m);;
  (* add prom_name back *)
  meta_setitem r "prom_name" prom_name;;
  append_output_name var;;
  names ← getattr "_input_names" _input_names;
  for_each names (fun ip =>
    on_base_do (CDeclarePartials var ip) (om_declare_partials E var ip)).

Definition setup : M unit :=
  args ← getattr "prob_args" prob_args;
  let '(model, driver, extra) := args in
  c ← get_self;
  let inputs := options_inputs c in
  let outputs := options_outputs c in
  (* instantiate subproblem *)
  emit (CProblem Subprob);;
  modify (set_subprob (Some (om_Problem E driver extra)));;
  on_subprob_do CAddSubsystem (om_add_subsystem E model);;
  (* set up subproblem *)
  on_subprob_do (CSetup Subprob false) (om_setup E false);;
  on_subprob_do (CFinalSetup Subprob) (om_final_setup E);;
  modify (set_input_names (Some []));;
  modify (set_output_names (Some []));;
  for_each inputs setup_input;;
  for_each outputs setup_output.

(** ** [SubproblemComp.compute] (lines 233-260) *)

(** [self.options[side][alias]['prom_name']] *)
Definition bound_prom_name (side : io) (alias : string) : M string :=
  c ← get_self;
  r ← getitem alias (OD.get alias (get_options side c));
  h ← get_heap;
  lift (prom_name_of h r).

(** Lines 249-250 and 264-265. *)
Definition push_inputs (inputs : gmap string (Value E)) : M unit :=
  names ← getattr "_input_names" _input_names;
  for_each names (fun inp =>
    prom ← bound_prom_name Input inp;
    v ← getitem inp (inputs !! inp);
    on_subprob_do (CSetVal prom v) (om_set_val E prom v)).

(** Lines 236-246. *)
Definition switch_mode (under_complex_step : bool) : M unit :=
  c ← get_self;
  if negb (eqb under_complex_step (_prev_complex_step c)) then
    (if under_complex_step then
       on_subprob_do (CSetup Subprob true) (om_setup E true);;
       on_subprob_do (CFinalSetup Subprob) (om_final_setup E);;
       on_subprob_do (CSetComplexStepMode true) (om_set_complex_step_mode E true)
     else
       on_subprob_do (CSetup Subprob false) (om_setup E false);;
       on_subprob_do (CFinalSetup Subprob) (om_final_setup E);;
       on_subprob_do (CSetComplexStepMode false) (om_set_complex_step_mode E false));;
    modify (set_prev_complex_step under_complex_step)
  else mret tt.

(** Lines 252-256. *)
Definition run_inner : M unit :=
  p ← getattr "_subprob" _subprob;
  if om_driver E p is Some _
  then on_subprob_do CRunDriver (om_run_driver E)
  else on_subprob_do CRunModel (om_run_model E).

(** Lines 258-260; [outputs] is the vector the framework passes in. *)
Definition pull_outputs (outputs : gmap string (Value E))
  : M (gmap string (Value E)) :=
  names ← getattr "_output_names" _output_names;
  for_fold names (fun outs op =>
    prom ← bound_prom_name Output op;
    p ← getattr "_subprob" _subprob;
    v ← invoke (CGetVal prom) (om_get_val E prom p);
    mret (<[op := v]> outs)) outputs.

Definition compute (under_complex_step : bool)
    (inputs outputs : gmap string (Value E)) : M (gmap string (Value E)) :=
  _ ← getattr "_subprob" _subprob;
  switch_mode under_complex_step;;
  push_inputs inputs;;
  run_inner;;
  pull_outputs outputs.

(** ** [SubproblemComp.compute_partials] (lines 262-275) *)

Definition compute_partials (inputs : gmap string (Value E))
    (partials : gmap (string * string) (Matrix E))
  : M (gmap (string * string) (Matrix E)) :=
  p ← getattr "_subprob" _subprob;
  push_inputs inputs;;
  output_names ← getattr "_output_names" _output_names;
  input_names ← getattr "_input_names" _input_names;
  p ← getattr "_subprob" _subprob;
  r ← invoke (CComputeTotals output_names input_names false)
        (om_compute_totals E output_names input_names false p);
  modify (set_subprob (Some r.1));;
  let tots := r.2 in
  (* store derivatives in Jacobian *)
  for_fold output_names (fun partials of_ =>
    for_fold input_names (fun partials wrt =>
      t ← getitem (of_ +:+ ", " +:+ wrt) (tots !! (of_, wrt));
      mret (<[(of_, wrt) := t]> partials)) partials) partials.

End Node.

(** ** A small inner problem to run the component on

    Values are integers.  A model lists its inputs and outputs as
    (absolute name, promoted name) pairs and settles its outputs from its
    inputs; [setup] resets every variable to zero. *)

Module Toy.

Record model := {
  m_inputs : list (string * string);
  m_outputs : list (string * string);
  m_settle : gmap string Z -> gmap string Z;
  m_totals : gmap string Z -> string -> string -> Z
}.

Record problem := {
  p_model : option model;
  p_driver : option unit;
  p_vals : gmap string Z;
  p_complex_alloc : bool;
  p_complex_step : bool
}.

Definition names_of (p : problem) : list string :=
  match p_model p with
  | Some m => (m_inputs m).*2 ++ (m_outputs m).*2
  | None => []
  end.

Definition describe (v : string * string)
  : string * (string * gmap string (pyval Z)) :=
  (v.1, (v.2, {[ "val" := PArray 0%Z; "units" := PNone;
                 "shape" := PTuple [1]; "desc" := PStr "" ]})).

Definition list_vars (sel : model -> list (string * string)) (p : problem)
  : res (list (string * (string * gmap string (pyval Z)))) :=
  match p_model p with
  | Some m => Ok (describe <$> sel m)
  | None => Ok []
  end.

Definition set_vals (f : gmap string Z -> gmap string Z) (p : problem) : problem :=
  {| p_model := p_model p; p_driver := p_driver p; p_vals := f (p_vals p);
     p_complex_alloc := p_complex_alloc p; p_complex_step := p_complex_step p |}.

Definition do_setup (force_alloc_complex : bool) (p : problem) : res problem :=
  Ok {| p_model := p_model p; p_driver := p_driver p;
        p_vals := list_to_map ((fun n => (n, 0%Z)) <$> names_of p);
        p_complex_alloc := force_alloc_complex; p_complex_step := false |}.

Definition do_set_complex_step_mode (active : bool) (p : problem) : res problem :=
  if active && negb (p_complex_alloc p)
  then Raise (EngineError "complex vectors were not allocated")
  else Ok {| p_model := p_model p; p_driver := p_driver p; p_vals := p_vals p;
             p_complex_alloc := p_complex_alloc p; p_complex_step := active |}.

Definition do_set_val (name : string) (v : Z) (p : problem) : res problem :=
  if bool_decide (name ∈ names_of p)
  then Ok (set_vals (insert name v) p)
  else Raise (KeyError name).

Definition do_get_val (name : string) (p : problem) : res Z :=
  match p_vals p !! name with
  | Some v => Ok v
  | None => Raise (KeyError name)
  end.

Definition do_run (p : problem) : res problem :=
  match p_model p with
  | Some m => Ok (set_vals (fun vals => m_settle m vals ∪ vals) p)
  | None => Ok p
  end.

Definition do_compute_totals (of_ wrt : list string) (use_abs_names : bool)
    (p : problem) : res (problem * gmap (string * string) Z) :=
  match p_model p with
  | None => Raise (EngineError "no model")
  | Some m =>
      match list_find (fun n => n ∉ names_of p) (of_ ++ wrt) with
      | Some (_, n) => Raise (KeyError n)
      | None =>
          Ok (p, list_to_map
                   ((fun ow => (ow, m_totals m (p_vals p) ow.1 ow.2))
                      <$> (o ← of_; w ← wrt; [(o, w)])))
      end
  end.

(** The base class refuses a variable name it already holds. *)
Definition do_add_var (var : string) (kwargs : gmap string (pyval Z))
    (b : list string) : res (list string) :=
  if bool_decide (var ∈ b)
  then Raise (EngineError "Variable name already exists")
  else Ok (b ++ [var]).

Definition engine : Engine := {|
  Value := Z; Matrix := Z; Model := model; Driver := unit; Extra := unit;
  Kwargs := unit; Problem := problem; Base := list string;
  om_component_init := fun _ => Ok [];
  om_add_input := do_add_var;
  om_add_output := do_add_var;
  om_declare_partials := fun _ _ b => Ok b;
  om_Problem_of_model := fun m =>
    {| p_model := Some m; p_driver := None; p_vals := ∅;
       p_complex_alloc := false; p_complex_step := false |};
  om_Problem := fun d _ =>
    {| p_model := None; p_driver := d; p_vals := ∅;
       p_complex_alloc := false; p_complex_step := false |};
  om_add_subsystem := fun m p =>
    Ok {| p_model := Some m; p_driver := p_driver p; p_vals := p_vals p;
          p_complex_alloc := p_complex_alloc p;
          p_complex_step := p_complex_step p |};
  om_setup := do_setup;
  om_final_setup := fun p => Ok p;
  om_list_inputs := list_vars m_inputs;
  om_list_outputs := list_vars m_outputs;
  om_set_complex_step_mode := do_set_complex_step_mode;
  om_set_val := do_set_val;
  om_get_val := do_get_val;
  om_driver := p_driver;
  om_run_driver := do_run;
  om_run_model := do_run;
  om_compute_totals := do_compute_totals
|}.

(** [x = r + 2*theta], the integer stand-in for the test script's
    [ExecComp('x = r*cos(theta)')]. *)
Definition polar : model := {|
  m_inputs := [("subsys.r", "r"); ("subsys.theta", "theta")];
  m_outputs := [("subsys.x", "x")];
  m_settle := fun vals =>
    {[ "x" := (default 0 (vals !! "r") + 2 * default 0 (vals !! "theta"))%Z ]};
  m_totals := fun _ o w =>
    if bool_decide (w = "r") then 1%Z else 2%Z
|}.

(** A model with two inputs and two outputs whose promoted names share their
    last path component (scenario A of the design notes). *)
Definition twin : model := {|
  m_inputs := [("y.x1.gain", "y.x1.gain"); ("y.x2.gain", "y.x2.gain");
               ("y.ctr", "ctr")];
  m_outputs := [("y.x1.value", "y.x1.value"); ("y.x2.value", "y.x2.value")];
  m_settle := fun vals =>
    {[ "y.x1.value" := (default 0 (vals !! "y.x1.gain") * default 0 (vals !! "ctr"))%Z;
       "y.x2.value" := (default 0 (vals !! "y.x2.gain") * default 0 (vals !! "ctr"))%Z ]};
  m_totals := fun _ _ _ => 1%Z
|}.

End Toy.

(** * Properties *)

(** ** The ordered dictionary *)

Section DictFacts.
Context {K V : Type} `{EqDecision K}.

Lemma od_set_fresh (k : K) (v : V) (d : odict K V) :
  k ∉ OD.keys d -> OD.set k v d = d ++ [(k, v)].
Proof.
  induction d as [|[k' v'] d IH]; simpl; [done |].
  intros [Hne Hk]%not_elem_of_cons.
  rewrite decide_False by congruence. by rewrite IH.
Qed.

(** A comprehension whose key is fixed keeps only the last value. *)
Lemma od_fold_const (k : K) (vs : list V) (v0 : V) :
  fold_left (fun acc kv => OD.set kv.1 kv.2 acc) (map (pair k) vs) [(k, v0)]
  = [(k, default v0 (last vs))].
Proof.
  revert v0; induction vs as [|v vs IH]; intros v0; simpl; [done |].
  rewrite decide_True by done. rewrite IH.
  destruct vs as [|v' vs]; [done |]. rewrite last_cons_cons.
  destruct (last (v' :: vs)) eqn:Hl; [done |].
  by apply last_None in Hl.
Qed.

Lemma od_of_pairs_const (k : K) (vs : list V) :
  OD.of_pairs (map (pair k) vs)
  = match last vs with Some v => [(k, v)] | None => [] end.
Proof.
  unfold OD.of_pairs. destruct vs as [|v vs]; simpl; [done |].
  rewrite od_fold_const.
  destruct vs as [|v' vs]; [done |]. rewrite last_cons_cons.
  destruct (last (v' :: vs)) eqn:Hl; [done |].
  by apply last_None in Hl.
Qed.

Lemma od_update_single (k : K) (v : V) (d : odict K V) :
  k ∉ OD.keys d -> OD.update d [(k, v)] = d ++ [(k, v)].
Proof. intros Hk. unfold OD.update; simpl. by apply od_set_fresh. Qed.

End DictFacts.

(** ** The selector loops *)

Section ResolverFacts.
Context {V : Type}.
Implicit Types (h : store V) (table opts : odict string ref).

Lemma comp_pairs_shape h key test table ps :
  comp_pairs h key test table = Ok ps -> exists rs, ps = map (pair key) rs.
Proof.
  revert ps; induction table as [|[k r] table IH]; intros ps; simpl.
  - intros [= <-]. by exists [].
  - destruct (prom_name_of h r) as [p|e]; simpl; [|done].
    destruct (comp_pairs h key test table) as [tl|e]; simpl; [|done].
    destruct (IH tl eq_refl) as [rs ->]. intros [= <-].
    destruct (test p); [by exists (r :: rs) | by exists rs].
Qed.

Lemma comp_pairs_wf h key test table :
  table_wf h table ->
  comp_pairs h key test table = Ok (map (pair key) (matching h test table)).
Proof.
  unfold matching, table_wf.
  induction 1 as [|[k r] table [p Hp] _ IH]; simpl; [done |].
  simpl in Hp. rewrite Hp; simpl. rewrite IH; simpl.
  assert (accepts h test r = test p) as Ha by (unfold accepts; by rewrite Hp).
  rewrite filter_cons; simpl. rewrite Ha.
  by destruct (test p).
Qed.

(** A comprehension only fails where reading a promoted name fails. *)
Lemma comp_pairs_raise h key test table e :
  comp_pairs h key test table = Raise e ->
  exists r, prom_name_of h r = Raise e.
Proof.
  induction table as [|[k r] table IH]; simpl; [done |].
  destruct (prom_name_of h r) as [p|e'] eqn:Hp; simpl.
  - destruct (comp_pairs h key test table) as [tl|e'']; simpl; [done |].
    intros [= ->]. by apply IH.
  - intros [= ->]. by exists r.
Qed.

Lemma prom_name_of_raise h r e :
  prom_name_of h r = Raise e ->
  forall side name, e <> AmbiguousVariableError side name.
Proof.
  unfold prom_name_of. destruct (h !! r) as [m|]; [|by intros [= <-]].
  destruct (m !! "prom_name") as [[]|]; by intros [= <-].
Qed.

(** The dictionary a comprehension builds has at most one entry, whatever
    the number of table entries its filter lets through. *)
Lemma str_dict_length h inp table d :
  str_dict h inp table = Ok d -> length d <= 1.
Proof.
  unfold str_dict. destruct (comp_pairs h inp _ table) as [ps|e] eqn:Hc; [|done].
  intros [= <-]. apply comp_pairs_shape in Hc as [rs ->].
  rewrite od_of_pairs_const. destruct (last rs); simpl; lia.
Qed.

Lemma str_dict_wf h inp table :
  table_wf h table ->
  str_dict h inp table
  = Ok match last (matching h (str_test inp) table) with
       | Some r => [(inp, r)]
       | None => []
       end.
Proof.
  intros Hwf. unfold str_dict. rewrite comp_pairs_wf by done. simpl.
  unfold fmap, res_fmap. by rewrite od_of_pairs_const.
Qed.

Lemma tuple_dict_wf h prom alias table :
  table_wf h table ->
  tuple_dict h prom alias table
  = Ok match last (matching h (tuple_test prom) table) with
       | Some r => [(alias, r)]
       | None => []
       end.
Proof.
  intros Hwf. unfold tuple_dict. rewrite comp_pairs_wf by done. simpl.
  unfold fmap, res_fmap. by rewrite od_of_pairs_const.
Qed.

(** No input makes an iteration raise the ambiguity error. *)
Lemma bind_selector_never_ambiguous side h table opts sel side' name :
  bind_selector side h table opts sel <> Raise (AmbiguousVariableError side' name).
Proof.
  destruct sel as [inp|prom alias|]; simpl; [| |done].
  - case_bool_decide; [done |].
    destruct (str_dict h inp table) as [d|e] eqn:Hd; simpl.
    + apply str_dict_length in Hd.
      destruct (1 <? length d)%nat eqn:Hlt; [apply Nat.ltb_lt in Hlt; lia |].
      by destruct (length d =? 0)%nat.
    + unfold str_dict in Hd.
      destruct (comp_pairs h inp _ table) as [ps|e'] eqn:Hc; [done |].
      injection Hd as <-. apply comp_pairs_raise in Hc as [r Hr].
      intros [= ->]. by eapply prom_name_of_raise.
  - case_bool_decide; [done |].
    destruct (tuple_dict h prom alias table) as [d|e] eqn:Hd; simpl.
    + by destruct (length d =? 0)%nat.
    + unfold tuple_dict in Hd.
      destruct (comp_pairs h alias _ table) as [ps|e'] eqn:Hc; [done |].
      injection Hd as <-. apply comp_pairs_raise in Hc as [r Hr].
      intros [= ->]. by eapply prom_name_of_raise.
Qed.

Lemma comp_pairs_ok_wf h key test table ps :
  comp_pairs h key test table = Ok ps -> table_wf h table.
Proof.
  unfold table_wf.
  revert ps; induction table as [|[k r] table IH]; intros ps; simpl; [done |].
  destruct (prom_name_of h r) as [p|e] eqn:Hp; simpl; [|done].
  destruct (comp_pairs h key test table) as [tl|e]; simpl; [|done].
  intros _. constructor; [by exists p | by eapply IH].
Qed.

(** One iteration on a well-formed table, as a decision list: the alias
    check, then the number of entries let through; the entry bound is the
    last one let through. *)
Lemma bind_selector_wf side h table opts sel a :
  table_wf h table -> alias_of sel = Some a ->
  bind_selector side h table opts sel
  = if bool_decide (a ∈ OD.keys opts) then Raise (DuplicateAliasError a)
    else match last (matching h (selector_test sel) table) with
         | Some r => Ok (opts ++ [(a, r)])
         | None => Raise (UnknownVariableError (selector_name sel))
         end.
Proof.
  intros Hwf Ha. destruct sel as [inp|prom alias|]; simpl in *; [| |done];
    injection Ha as ->; case_bool_decide as Hin; try done.
  - rewrite str_dict_wf by done; simpl.
    destruct (last _) as [r|]; simpl; [|done]. by rewrite od_set_fresh.
  - rewrite tuple_dict_wf by done; simpl.
    destruct (last _) as [r|]; simpl; [|done]. by rewrite od_set_fresh.
Qed.

Lemma bind_selector_ok side h table opts sel opts' :
  bind_selector side h table opts sel = Ok opts' ->
  exists a r, alias_of sel = Some a /\ (a ∉ OD.keys opts)
    /\ last (matching h (selector_test sel) table) = Some r
    /\ opts' = opts ++ [(a, r)].
Proof.
  intros Hb.
  assert (table_wf h table) as Hwf.
  { destruct sel as [inp|prom alias|]; simpl in Hb; [| |done];
      case_bool_decide; try done.
    - unfold str_dict in Hb.
      destruct (comp_pairs h inp _ table) eqn:Hc; [|done].
      by eapply comp_pairs_ok_wf.
    - unfold tuple_dict in Hb.
      destruct (comp_pairs h alias _ table) eqn:Hc; [|done].
      by eapply comp_pairs_ok_wf. }
  destruct (alias_of sel) as [a|] eqn:Ha; [|by destruct sel].
  rewrite (bind_selector_wf _ _ _ _ _ a) in Hb by done.
  case_bool_decide; [done |].
  destruct (last _) as [r|]; [|done].
  injection Hb as <-. by exists a, r.
Qed.

Lemma bind_selectors_app side h table pre post opts :
  bind_selectors side h table (pre ++ post) opts
  = match bind_selectors side h table pre opts with
    | (opts', Ok _) => bind_selectors side h table post opts'
    | (opts', Raise e) => (opts', Raise e)
    end.
Proof.
  revert opts; induction pre as [|s pre IH]; intros opts; simpl; [done |].
  destruct (bind_selector side h table opts s); [apply IH | done].
Qed.

(** A loop that runs to its end has appended one binding per selector, under
    the alias the selector asked for, in selector order. *)
Lemma bind_selectors_ok_keys side h table sels opts opts' :
  bind_selectors side h table sels opts = (opts', Ok tt) ->
  OD.keys opts' = OD.keys opts ++ aliases sels.
Proof.
  revert opts; induction sels as [|s sels IH]; intros opts; simpl.
  - intros [= <-]. by rewrite app_nil_r.
  - destruct (bind_selector side h table opts s) as [o|e] eqn:Hb; [|done].
    apply bind_selector_ok in Hb as (a & r & Ha & _ & _ & ->).
    intros ->%IH. unfold aliases; simpl. rewrite Ha.
    unfold OD.keys. rewrite map_app; simpl. by rewrite <- app_assoc.
Qed.

(** A loop only ever appends to the options dictionary. *)
Lemma bind_selectors_prefix side h table sels opts opts' r :
  bind_selectors side h table sels opts = (opts', r) -> opts `prefix_of` opts'.
Proof.
  revert opts; induction sels as [|s sels IH]; intros opts; simpl.
  - by intros [= <- _].
  - destruct (bind_selector side h table opts s) as [o|e] eqn:Hb.
    + apply bind_selector_ok in Hb as (a & r' & _ & _ & _ & ->).
      intros ?%IH. etrans; [|done]. by apply prefix_app_r.
    + by intros [= <- _].
Qed.

Lemma bind_selectors_succeeds side h table sels opts :
  table_wf h table ->
  NoDup (OD.keys opts ++ aliases sels) ->
  Forall (fun s => is_Some (alias_of s)
                   /\ matching h (selector_test s) table <> []) sels ->
  exists opts', bind_selectors side h table sels opts = (opts', Ok tt).
Proof.
  intros Hwf. revert opts; induction sels as [|s sels IH]; intros opts Hnd Hall.
  - by exists opts.
  - apply Forall_cons in Hall as [[[a Ha] Hm] Hall]. simpl.
    unfold aliases in Hnd; simpl in Hnd; rewrite Ha in Hnd.
    rewrite (bind_selector_wf _ _ _ _ _ a) by done.
    rewrite bool_decide_false; last first.
    { apply NoDup_app in Hnd as (_ & Hd & _). intros Hin.
      apply (Hd a Hin). left. }
    destruct (last _) as [r|] eqn:Hl; [|by apply last_None in Hl].
    apply IH; [|done]. unfold OD.keys. rewrite map_app; simpl.
    by rewrite <- app_assoc.
Qed.

(** The first selector whose alias is already bound stops the loop. *)
Lemma bind_selectors_duplicate side h table pre s post a opts :
  bind_selectors side h table pre [] = (opts, Ok tt) ->
  alias_of s = Some a -> a ∈ aliases pre ->
  bind_selectors side h table (pre ++ s :: post) []
  = (opts, Raise (DuplicateAliasError a)).
Proof.
  intros Hpre Ha Hin. rewrite bind_selectors_app, Hpre. simpl.
  apply bind_selectors_ok_keys in Hpre. simpl in Hpre.
  destruct s as [inp|prom alias|]; simpl in *; [| |done]; injection Ha as ->;
    by rewrite bool_decide_true by (by rewrite Hpre).
Qed.

(** The first selector that is free to bind and lets no table entry through
    stops the loop. *)
Lemma bind_selectors_unknown side h table pre s post a opts :
  table_wf h table ->
  bind_selectors side h table pre [] = (opts, Ok tt) ->
  alias_of s = Some a -> a ∉ aliases pre ->
  matching h (selector_test s) table = [] ->
  bind_selectors side h table (pre ++ s :: post) []
  = (opts, Raise (UnknownVariableError (selector_name s))).
Proof.
  intros Hwf Hpre Ha Hin Hm. rewrite bind_selectors_app, Hpre. simpl.
  apply bind_selectors_ok_keys in Hpre. simpl in Hpre.
  rewrite (bind_selector_wf _ _ _ _ _ a) by done.
  rewrite bool_decide_false by (by rewrite Hpre). by rewrite Hm.
Qed.

(** What a loop that runs to its end has bound: for each selector, in order,
    its alias to the last table entry its filter lets through. *)
Lemma bind_selectors_ok_bindings side h table sels opts opts' :
  bind_selectors side h table sels opts = (opts', Ok tt) ->
  exists new, opts' = opts ++ new
    /\ Forall2 (fun s kr => alias_of s = Some kr.1
                   /\ last (matching h (selector_test s) table) = Some kr.2)
               sels new.
Proof.
  revert opts; induction sels as [|s sels IH]; intros opts; simpl.
  - intros [= <-]. exists []. by rewrite app_nil_r.
  - destruct (bind_selector side h table opts s) as [o|e] eqn:Hb; [|done].
    apply bind_selector_ok in Hb as (a & r & Ha & _ & Hl & ->).
    intros (new & -> & Hall)%IH. exists ((a, r) :: new).
    rewrite <- app_assoc. split; [done |]. by constructor.
Qed.

End ResolverFacts.

(** ** Reasoning about methods *)

Section MethodFacts.
Context {E : Engine}.
Implicit Types (w : World E) (c : call E).

(** [hoare P m Q]: run from a world in [P], [m] ends, by return or by
    raise, in a world that satisfies [Q] of its result. *)
Definition hoare {A} (P : World E -> Prop) (m : M A)
    (Q : res A -> World E -> Prop) : Prop :=
  forall w w' r, P w -> m w = (w', r) -> Q r w'.

(** [stable I m]: [m] keeps [I], also when it raises. *)
Definition stable {A} (I : World E -> Prop) (m : M A) : Prop :=
  hoare I m (fun _ => I).

Lemma bind_run {A B} (m : M A) (f : A -> M B) w :
  (m ≫= f) w
  = match m w with
    | (w', Ok a) => f a w'
    | (w', Raise e) => (w', Raise e)
    end.
Proof. reflexivity. Qed.

Lemma bind_ok_inv {A B} (m : M A) (f : A -> M B) w w' b :
  (m ≫= f) w = (w', Ok b) ->
  exists a w1, m w = (w1, Ok a) /\ f a w1 = (w', Ok b).
Proof.
  rewrite bind_run. destruct (m w) as [w1 [a|e]]; [|done]. by exists a, w1.
Qed.

Lemma hoare_bind {A B} P (Q1 : res A -> World E -> Prop) Q
    (m : M A) (f : A -> M B) :
  hoare P m Q1 ->
  (forall a, hoare (Q1 (Ok a)) (f a) Q) ->
  (forall e w, Q1 (Raise e) w -> Q (Raise e) w) ->
  hoare P (m ≫= f) Q.
Proof.
  intros Hm Hf He w w' r HP. rewrite bind_run.
  destruct (m w) as [w1 [a|e]] eqn:Hmw.
  - apply Hf. by apply (Hm _ _ _ HP Hmw).
  - intros [= <- <-]. apply He. by apply (Hm _ _ _ HP Hmw).
Qed.

Lemma hoare_step {A B} I Q (m : M A) (f : A -> M B) :
  stable I m ->
  (forall a, hoare I (f a) Q) ->
  (forall e w, I w -> Q (Raise e) w) ->
  hoare I (m ≫= f) Q.
Proof. intros Hm Hf He. by eapply hoare_bind. Qed.

Lemma hoare_weaken {A} (P P' : World E -> Prop) (Q Q' : res A -> World E -> Prop)
    (m : M A) :
  hoare P m Q -> (forall w, P' w -> P w) -> (forall r w, Q r w -> Q' r w) ->
  hoare P' m Q'.
Proof. intros Hm HP HQ w w' r ? ?. eapply HQ, Hm; eauto. Qed.

Lemma stable_bind {A B} I (m : M A) (f : A -> M B) :
  stable I m -> (forall a, stable I (f a)) -> stable I (m ≫= f).
Proof. intros Hm Hf. by eapply hoare_bind. Qed.

Lemma stable_ret {A} I (a : A) : stable I (mret a).
Proof. by intros w w' r HI [= <- _]. Qed.

Lemma stable_raise {A} I e : stable I (raise (A:=A) e).
Proof. by intros w w' r HI [= <- _]. Qed.

Lemma stable_lift {A} I (x : res A) : stable I (lift x).
Proof. by intros w w' r HI [= <- _]. Qed.

Lemma stable_get_self I : stable I get_self.
Proof. by intros w w' r HI [= <- _]. Qed.

Lemma stable_get_heap I : stable I get_heap.
Proof. by intros w w' r HI [= <- _]. Qed.

Lemma stable_getattr {A} I name (f : Comp E -> option A) :
  stable I (getattr name f).
Proof.
  apply stable_bind; [apply stable_get_self |].
  intros c'. destruct (f c'); [apply stable_ret | apply stable_raise].
Qed.

Lemma stable_getitem {A} I key (o : option A) : stable I (getitem key o).
Proof. destruct o; [apply stable_ret | apply stable_raise]. Qed.

Lemma stable_emit I c :
  (forall w, I w ->
     I {| heap := heap w; self := self w; log := log w ++ [c] |}) ->
  stable I (emit c).
Proof. intros H w w' r HI [= <- _]. by apply H. Qed.

Lemma stable_modify I (f : Comp E -> Comp E) :
  (forall w, I w ->
     I {| heap := heap w; self := f (self w); log := log w |}) ->
  stable I (modify f).
Proof. intros H w w' r HI [= <- _]. by apply H. Qed.

Lemma stable_put_heap I h :
  (forall w, I w -> I {| heap := h; self := self w; log := log w |}) ->
  stable I (put_heap h).
Proof. intros H w w' r HI [= <- _]. by apply H. Qed.

Lemma stable_invoke {A} I c (x : res A) :
  (forall w, I w ->
     I {| heap := heap w; self := self w; log := log w ++ [c] |}) ->
  stable I (invoke c x).
Proof.
  intros H. apply stable_bind; [by apply stable_emit |].
  intros _. apply stable_lift.
Qed.

Lemma stable_for_each {A} I (l : list A) (body : A -> M unit) :
  (forall a, stable I (body a)) -> stable I (for_each l body).
Proof.
  intros Hb. induction l as [|a l IH]; simpl; [apply stable_ret |].
  apply stable_bind; [apply Hb | by intros _].
Qed.

Lemma stable_for_fold {A S} I (l : list A) (body : S -> A -> M S) (s : S) :
  (forall s a, stable I (body s a)) -> stable I (for_fold l body s).
Proof.
  intros Hb. revert s; induction l as [|a l IH]; intros s; simpl;
    [apply stable_ret |].
  apply stable_bind; [apply Hb | done].
Qed.

Lemma stable_alloc_metas I listed :
  (forall w h, I w -> I {| heap := h; self := self w; log := log w |}) ->
  stable I (alloc_metas listed).
Proof.
  intros H. induction listed as [|[abs_name d] rest IH]; simpl;
    [apply stable_ret |].
  apply stable_bind; [apply stable_get_heap | intros h].
  apply stable_bind; [apply stable_put_heap; intros; by apply H | intros _].
  apply stable_bind; [apply IH | intros tl]. apply stable_ret.
Qed.

(** *** What [__init__] keeps while it harvests

    Nothing is bound, [self._subprob] does not exist, and no call has been
    made on it. *)
Definition unprovisioned w : Prop :=
  _subprob (self w) = None /\ Forall (fun c => on_subprob c = false) (log w).

Definition unbound w : Prop :=
  options_inputs (self w) = [] /\ options_outputs (self w) = [].

Lemma index_by_prom_wf (h : store (Value E)) listed acc table :
  index_by_prom h listed acc = Ok table -> table_wf h acc -> table_wf h table.
Proof.
  unfold table_wf.
  revert acc; induction listed as [|[k r] listed IH]; intros acc; simpl.
  - by intros [= <-].
  - destruct (prom_name_of h r) as [p|e] eqn:Hp; simpl; [|done].
    intros Hi Hacc. apply (IH _ Hi). clear -Hacc Hp.
    induction Hacc as [|[k' r'] acc Hx Hacc IH']; simpl.
    + constructor; [by exists p | done].
    + destruct (decide (k' = p)); constructor; simpl; eauto.
Qed.

Lemma harvest_spec model driver extra kwargs :
  hoare (fun w => unprovisioned w /\ unbound w)
    (harvest model driver extra kwargs)
    (fun r w =>
       unprovisioned w /\ unbound w /\
       match r with
       | Ok tables => table_wf (heap w) tables.1 /\ table_wf (heap w) tables.2
       | Raise _ => True
       end).
Proof.
  set (I := fun w => unprovisioned w /\ unbound w).
  assert (forall c, on_subprob c = false -> forall w, I w ->
            I {| heap := heap w; self := self w; log := log w ++ [c] |}) as Hemit.
  { intros c Hc w [[Hs Hl] Hu]. split; [split|]; simpl; try done.
    apply Forall_app; split; [done | by constructor]. }
  assert (forall w h, I w -> I {| heap := h; self := self w; log := log w |})
    as Hheap by (by intros w h [[Hs Hl] Hu]).
  unfold harvest.
  eapply hoare_step; [| intros _ | by intros e w [? ?]].
  { destruct driver; [by apply stable_emit, Hemit | apply stable_ret]. }
  eapply hoare_step; [by apply stable_invoke, Hemit | intros b | by intros e w [? ?]].
  eapply hoare_step; [apply stable_modify; by intros w [[? ?] [? ?]] | intros _ | by intros e w [? ?]].
  eapply hoare_step; [apply stable_modify; by intros w [[? ?] [? ?]] | intros _ | by intros e w [? ?]].
  eapply hoare_step; [apply stable_modify; by intros w [[? ?] [? ?]] | intros _ | by intros e w [? ?]].
  eapply hoare_step; [apply stable_modify; by intros w [[? ?] [? ?]] | intros _ | by intros e w [? ?]].
  eapply hoare_step; [apply stable_modify; by intros w [[? ?] [? ?]] | intros _ | by intros e w [? ?]].
  eapply hoare_step; [by apply stable_emit, Hemit | intros _ | by intros e w [? ?]].
  eapply hoare_step; [by apply stable_invoke, Hemit | intros p | by intros e w [? ?]].
  eapply hoare_step; [by apply stable_invoke, Hemit | intros p' | by intros e w [? ?]].
  eapply hoare_step; [by apply stable_invoke, Hemit | intros li | by intros e w [? ?]].
  eapply hoare_step; [by apply stable_alloc_metas | intros mi | by intros e w [? ?]].
  eapply hoare_step; [by apply stable_invoke, Hemit | intros lo | by intros e w [? ?]].
  eapply hoare_step; [by apply stable_alloc_metas | intros mo | by intros e w [? ?]].
  eapply hoare_step; [by apply stable_emit, Hemit | intros _ | by intros e w [? ?]].
  intros w w' r [Hp Hu]. rewrite !bind_run. unfold get_heap, lift.
  destruct (index_by_prom (heap w) mi []) as [ti|e] eqn:Hi; [|by intros [= <- <-]].
  destruct (index_by_prom (heap w) mo []) as [to|e] eqn:Ho; [|by intros [= <- <-]].
  intros [= <- <-]. repeat split; try apply Hp; try apply Hu; simpl.
  - eapply index_by_prom_wf; [done | constructor].
  - eapply index_by_prom_wf; [done | constructor].
Qed.

Lemma fresh_world_blank : unprovisioned (fresh_world (E:=E)) /\ unbound (fresh_world (E:=E)).
Proof. repeat split; simpl; constructor. Qed.

End MethodFacts.

(** ** The constructor *)

Section ConstructorFacts.
Context {E : Engine}.
Implicit Types (w : World E).

Definition with_options (side : io) (opts : odict string ref) w : World E :=
  {| heap := heap w; self := set_options side opts (self w); log := log w |}.

Lemma bind_loop_None side table w :
  bind_loop side table None w
  = (w, Raise (TypeError "'NoneType' object is not iterable")).
Proof. reflexivity. Qed.

Lemma bind_loop_Some side table sels w :
  bind_loop side table (Some sels) w
  = let '(opts, r) :=
      bind_selectors side (heap w) table sels (get_options side (self w)) in
    (with_options side opts w, r).
Proof. reflexivity. Qed.

Lemma harvest_fresh model driver extra kwargs w1 r :
  harvest model driver extra kwargs fresh_world = (w1, r) ->
  unprovisioned w1 /\ unbound w1 /\
  match r with
  | Ok tables => table_wf (heap w1) tables.1 /\ table_wf (heap w1) tables.2
  | Raise _ => True
  end.
Proof. intros H. eapply harvest_spec; [apply fresh_world_blank | done]. Qed.

Lemma with_options_unprovisioned side opts w :
  unprovisioned w -> unprovisioned (with_options side opts w).
Proof. by intros [? ?]. Qed.

(** [__init__] once the tables are there: the input loop, then, if it ran to
    its end, the output loop, each on its own options dictionary. *)
Lemma init_run model driver extra kwargs ins outs w1 ti to :
  harvest model driver extra kwargs fresh_world = (w1, Ok (ti, to)) ->
  __init__ model driver extra kwargs (Some ins) outs fresh_world
  = match bind_selectors Input (heap w1) ti ins [] with
    | (oi, Raise e) => (with_options Input oi w1, Raise e)
    | (oi, Ok _) =>
        match outs with
        | None => (with_options Input oi w1,
                   Raise (TypeError "'NoneType' object is not iterable"))
        | Some outs =>
            let '(oo, r) := bind_selectors Output (heap w1) to outs [] in
            (with_options Output oo (with_options Input oi w1), r)
        end
    end.
Proof.
  intros H. destruct (harvest_fresh _ _ _ _ _ _ H) as (_ & [Hi Ho] & _).
  unfold __init__. rewrite bind_run, H. simpl fst; simpl snd.
  rewrite bind_run, bind_loop_Some. simpl get_options. rewrite Hi.
  destruct (bind_selectors Input (heap w1) ti ins []) as [oi [[]|e]]; [|done].
  destruct outs as [outs|]; [|done].
  rewrite bind_loop_Some. simpl. by rewrite Ho.
Qed.

Lemma init_run_None model driver extra kwargs outs w1 ti to :
  harvest model driver extra kwargs fresh_world = (w1, Ok (ti, to)) ->
  __init__ model driver extra kwargs None outs fresh_world
  = (w1, Raise (TypeError "'NoneType' object is not iterable")).
Proof. intros H. unfold __init__. by rewrite bind_run, H. Qed.

Lemma init_harvest_raise model driver extra kwargs ins outs w1 e :
  harvest model driver extra kwargs fresh_world = (w1, Raise e) ->
  __init__ model driver extra kwargs ins outs fresh_world = (w1, Raise e).
Proof. intros H. unfold __init__. by rewrite bind_run, H. Qed.

(** No path through [__init__] creates or touches [self._subprob], and a
    loop that is never entered binds nothing. *)
Lemma init_unprovisioned model driver extra kwargs ins outs w r :
  __init__ model driver extra kwargs ins outs fresh_world = (w, r) ->
  unprovisioned w
  /\ (ins = None -> unbound w)
  /\ (outs = None -> options_outputs (self w) = []).
Proof.
  destruct (harvest model driver extra kwargs fresh_world) as [w1 [[ti to]|e]] eqn:H;
    destruct (harvest_fresh _ _ _ _ _ _ H) as (Hp & [Hi Ho] & _).
  - destruct ins as [ins|].
    + rewrite (init_run _ _ _ _ _ _ _ _ _ H).
      destruct (bind_selectors Input (heap w1) ti ins []) as [oi [[]|e]].
      * destruct outs as [outs|].
        -- destruct (bind_selectors Output (heap w1) to outs []) as [oo ro].
           intros [= <- <-]. split; [|done].
           by apply with_options_unprovisioned, with_options_unprovisioned.
        -- intros [= <- <-]. split; [by apply with_options_unprovisioned | done].
      * intros [= <- <-]. split; [by apply with_options_unprovisioned | done].
    + rewrite (init_run_None _ _ _ _ _ _ _ _ H). by intros [= <- <-].
  - rewrite (init_harvest_raise _ _ _ _ _ _ _ _ H). by intros [= <- <-].
Qed.

End ConstructorFacts.

(** * The claims about selector resolution *)

(** The design document's reading of a bare selector: the promoted name is
    the selector or ends with a dot followed by the selector. *)
Definition spec_dotted_suffix (prom name : string) : Prop :=
  prom = name \/ exists pre, prom = pre +:+ "." +:+ name.

(** The bindings of a constructed instance: [self.options['inputs']] and
    [self.options['outputs']]. *)
Definition bindings_of {E} (r : res (World E))
  : res (odict string ref * odict string ref) :=
  (fun w => (options_inputs (self w), options_outputs (self w))) <$> r.

(** The tables harvested from the two-output model. *)
Definition twin_harvested : World Toy.engine * res (odict string ref * odict string ref) :=
  harvest (E:=Toy.engine) Toy.twin None tt tt fresh_world.

Definition twin_inputs : odict string ref :=
  [("y.x1.gain", 0); ("y.x2.gain", 1); ("ctr", 2)].

Definition twin_outputs : odict string ref :=
  [("y.x1.value", 3); ("y.x2.value", 4)].

Lemma twin_harvested_eq :
  harvest (E:=Toy.engine) Toy.twin None tt tt fresh_world
  = (twin_harvested.1, Ok (twin_inputs, twin_outputs)).
Proof.
  assert (twin_harvested.2 = Ok (twin_inputs, twin_outputs)) as H
    by (vm_compute; reflexivity).
  change (twin_harvested = (twin_harvested.1, Ok (twin_inputs, twin_outputs))).
  rewrite <- H. apply surjective_pairing.
Qed.

Section SelectorClaims.
Context {V : Type}.
Implicit Types (h : store V) (table opts : odict string ref).

(** A selector whose promoted name is in the table and, for a bare string,
    is let through for exactly one entry. *)
Definition present_and_unambiguous h table (s : selector) : Prop :=
  match s with
  | SelStr name => exists r, matching h (str_test name) table = [r]
  | SelTuple prom _ => exists r, r ∈ table.*2 /\ prom_name_of h r = Ok prom
  | SelOther => False
  end.

Lemma present_matching h table s :
  present_and_unambiguous h table s ->
  is_Some (alias_of s) /\ matching h (selector_test s) table <> [].
Proof.
  destruct s as [name|prom alias|]; simpl; [| |done].
  - intros [r Hr]. split; [by eexists | by rewrite Hr].
  - intros (r & Hin & Hp). split; [by eexists |].
    assert (r ∈ matching h (tuple_test prom) table) as Hm.
    { apply list_elem_of_filter. split; [|done].
      unfold accepts, tuple_test. rewrite Hp. by rewrite String.eqb_refl. }
    intros Hnil. rewrite Hnil in Hm. by apply elem_of_nil in Hm.
Qed.

(** C3, as amended: on a table whose dictionaries all carry a promoted name,
    the comprehension of a bare selector [name] lets through exactly the
    entries whose promoted name has [name] as a plain character suffix
    ([str.endswith]); no dot is required before the suffix. *)
Theorem C3_bare_selector_matches_plain_suffix h table name :
  table_wf h table ->
  comp_pairs h name (str_test name) table
  = Ok (map (pair name) (matching h (str_test name) table))
  /\ forall r, r ∈ matching h (str_test name) table
       <-> r ∈ table.*2
           /\ exists p pre, prom_name_of h r = Ok p /\ p = pre +:+ name.
Proof.
  intros Hwf. split; [by apply comp_pairs_wf |].
  intros r. unfold matching. rewrite list_elem_of_filter. unfold accepts, str_test.
  split.
  - intros [Ha Hin]. split; [done |].
    destruct (prom_name_of h r) as [p|e]; [|done].
    apply Is_true_true, PyStr.endswith_true in Ha as [pre ->]. by exists (pre +:+ name), pre.
  - intros [Hin (p & pre & -> & ->)]. split; [|done].
    apply Is_true_true, PyStr.endswith_true. by exists pre.
Qed.

(** C7: a selector list without duplicate aliases, whose promoted names are
    all in the table and whose bare selectors are unambiguous, resolves; the
    keys of the bindings are the requested aliases in selector order, one
    binding per selector, each to an entry its selector lets through. *)
Theorem C7_resolution_binds_requested_aliases_in_order side h table sels :
  table_wf h table ->
  NoDup (aliases sels) ->
  Forall (present_and_unambiguous h table) sels ->
  exists opts,
    bind_selectors side h table sels [] = (opts, Ok tt)
    /\ OD.keys opts = aliases sels
    /\ Forall2 (fun s kr => alias_of s = Some kr.1
                  /\ kr.2 ∈ matching h (selector_test s) table)
               sels opts.
Proof.
  intros Hwf Hnd Hall.
  destruct (bind_selectors_succeeds side h table sels []) as [opts Hopts];
    [done | done | |].
  { eapply Forall_impl; [done |]. intros s. apply present_matching. }
  exists opts. split; [done |]. split.
  - by rewrite (bind_selectors_ok_keys _ _ _ _ _ _ Hopts).
  - apply bind_selectors_ok_bindings in Hopts as (new & -> & Hnew). simpl.
    eapply Forall2_impl; [done |]. intros s [a r] [Ha Hl]. split; [done |].
    simpl in *. apply last_Some in Hl as [l' Hl]. rewrite Hl.
    apply elem_of_app. right. left.
Qed.

End SelectorClaims.

(** Witness for C3: the input table of the two-output model and the bare
    selector [gain]. *)
Lemma C3_witness :
  comp_pairs (heap twin_harvested.1) "gain" (str_test "gain") twin_inputs
  = Ok (map (pair "gain")
          (matching (heap twin_harvested.1) (str_test "gain") twin_inputs))
  /\ forall r, r ∈ matching (heap twin_harvested.1) (str_test "gain") twin_inputs
       <-> r ∈ twin_inputs.*2
           /\ exists p pre, prom_name_of (heap twin_harvested.1) r = Ok p
                            /\ p = pre +:+ "gain".
Proof.
  apply (C3_bare_selector_matches_plain_suffix (heap twin_harvested.1)
           twin_inputs "gain").
  repeat constructor; vm_compute; by eexists.
Defined.

(** C3, as stated, fails: the bare selector [r] lets the entry promoted as
    [ctr] through, although [ctr] neither is [r] nor ends with [.r]. *)
Lemma C3_counterexample :
  table_wf (heap twin_harvested.1) twin_inputs
  /\ 2 ∈ matching (heap twin_harvested.1) (str_test "r") twin_inputs
  /\ prom_name_of (heap twin_harvested.1) 2 = Ok "ctr"
  /\ ~ spec_dotted_suffix "ctr" "r".
Proof.
  split; [repeat constructor; vm_compute; by eexists |].
  split; [vm_compute; left |]. split; [vm_compute; reflexivity |].
  intros [H|[pre H]]; [done |].
  destruct pre as [|c1 [|c2 [|c3 pre]]]; try done.
  cbv in H. injection H as _ _ _ H. by destruct pre.
Qed.

(** Witness for C7: two pair selectors and a bare one on the input table of
    the two-output model. *)
Lemma C7_witness :
  exists opts,
    bind_selectors Input (heap twin_harvested.1) twin_inputs
      [SelTuple "y.x2.gain" "g2"; SelStr "ctr"; SelTuple "y.x1.gain" "g1"] []
    = (opts, Ok tt)
    /\ OD.keys opts = ["g2"; "ctr"; "g1"]
    /\ Forall2 (fun s kr => alias_of s = Some kr.1
                  /\ kr.2 ∈ matching (heap twin_harvested.1) (selector_test s)
                             twin_inputs)
         [SelTuple "y.x2.gain" "g2"; SelStr "ctr"; SelTuple "y.x1.gain" "g1"]
         opts.
Proof.
  apply (C7_resolution_binds_requested_aliases_in_order Input
           (heap twin_harvested.1) twin_inputs
           [SelTuple "y.x2.gain" "g2"; SelStr "ctr"; SelTuple "y.x1.gain" "g1"]).
  - repeat constructor; vm_compute; by eexists.
  - apply (bool_decide_unpack _). vm_compute. exact I.
  - repeat constructor.
    + exists 1. split; [apply (bool_decide_unpack _); vm_compute; exact I | vm_compute; reflexivity].
    + exists 2. vm_compute; reflexivity.
    + exists 0. split; [apply (bool_decide_unpack _); vm_compute; exact I | vm_compute; reflexivity].
Defined.

(** C1 (the code departs from it): on the two-output model the bare
    selectors [gain] and [value] each let two table entries through, yet
    construction returns an instance; each alias is bound to the last entry
    let through. *)
Theorem C1_ambiguous_bare_selector_is_bound :
  matching (heap twin_harvested.1) (str_test "gain") twin_inputs = [0; 1]
  /\ matching (heap twin_harvested.1) (str_test "value") twin_outputs = [3; 4]
  /\ bindings_of
       (SubproblemComp (E:=Toy.engine) Toy.twin None tt tt
          (Some [SelStr "gain"]) (Some [SelStr "value"]))
     = Ok ([("gain", 1)], [("value", 4)]).
Proof.
  split; [vm_compute; reflexivity |].
  split; vm_compute; reflexivity.
Qed.

(** * The claims about construction *)

Section ConstructionClaims.
Context {E : Engine}.
Implicit Types (w : World E).

Lemma SubproblemComp_raise model driver extra kwargs ins outs w e :
  __init__ model driver extra kwargs ins outs fresh_world = (w, Raise e) ->
  SubproblemComp model driver extra kwargs ins outs = Raise e.
Proof. intros H. unfold SubproblemComp. by rewrite H. Qed.

Lemma SubproblemComp_ok model driver extra kwargs ins outs w :
  __init__ model driver extra kwargs ins outs fresh_world = (w, Ok tt) ->
  SubproblemComp model driver extra kwargs ins outs = Ok w.
Proof. intros H. unfold SubproblemComp. by rewrite H. Qed.

(** C5: once the tables are harvested, a selector whose alias an earlier
    selector of the same list has bound makes [__init__] raise the
    duplicate-alias error, in the input list and in the output list alike,
    for bare and pair selectors in any order; at that point
    [self._subprob] does not exist and no call has been made on it, and the
    caller gets no instance.  The two lists are checked apart: when each
    resolves on its own, construction returns, also when an alias occurs in
    both. *)
Theorem C5_duplicate_alias_is_per_set model driver extra kwargs w1 ti to :
  harvest model driver extra kwargs fresh_world = (w1, Ok (ti, to)) ->
  (forall pre s post a outs oi,
     bind_selectors Input (heap w1) ti pre [] = (oi, Ok tt) ->
     alias_of s = Some a -> a ∈ aliases pre ->
     exists w,
       __init__ model driver extra kwargs (Some (pre ++ s :: post)) outs
         fresh_world = (w, Raise (DuplicateAliasError a))
       /\ unprovisioned w
       /\ SubproblemComp model driver extra kwargs (Some (pre ++ s :: post)) outs
          = Raise (DuplicateAliasError a))
  /\ (forall ins pre s post a oi oo,
        bind_selectors Input (heap w1) ti ins [] = (oi, Ok tt) ->
        bind_selectors Output (heap w1) to pre [] = (oo, Ok tt) ->
        alias_of s = Some a -> a ∈ aliases pre ->
        exists w,
          __init__ model driver extra kwargs (Some ins) (Some (pre ++ s :: post))
            fresh_world = (w, Raise (DuplicateAliasError a))
          /\ unprovisioned w
          /\ SubproblemComp model driver extra kwargs (Some ins)
               (Some (pre ++ s :: post))
             = Raise (DuplicateAliasError a))
  /\ (forall ins outs a oi oo,
        bind_selectors Input (heap w1) ti ins [] = (oi, Ok tt) ->
        bind_selectors Output (heap w1) to outs [] = (oo, Ok tt) ->
        a ∈ aliases ins -> a ∈ aliases outs ->
        exists w,
          SubproblemComp model driver extra kwargs (Some ins) (Some outs) = Ok w
          /\ options_inputs (self w) = oi
          /\ options_outputs (self w) = oo).
Proof.
  intros H. split; [|split].
  - intros pre s post a outs oi Hpre Ha Hin.
    pose proof (init_run _ _ _ _ (pre ++ s :: post) outs _ _ _ H) as Hrun.
    rewrite (bind_selectors_duplicate _ _ _ _ _ _ _ _ Hpre Ha Hin) in Hrun.
    eexists. split; [exact Hrun |]. split.
    + by apply (init_unprovisioned _ _ _ _ _ _ _ _ Hrun).
    + by apply (SubproblemComp_raise _ _ _ _ _ _ _ _ Hrun).
  - intros ins pre s post a oi oo Hins Hpre Ha Hin.
    pose proof (init_run _ _ _ _ ins (Some (pre ++ s :: post)) _ _ _ H) as Hrun.
    rewrite Hins in Hrun.
    rewrite (bind_selectors_duplicate _ _ _ _ _ _ _ _ Hpre Ha Hin) in Hrun.
    eexists. split; [exact Hrun |]. split.
    + by apply (init_unprovisioned _ _ _ _ _ _ _ _ Hrun).
    + by apply (SubproblemComp_raise _ _ _ _ _ _ _ _ Hrun).
  - intros ins outs a oi oo Hins Houts _ _.
    pose proof (init_run _ _ _ _ ins (Some outs) _ _ _ H) as Hrun.
    rewrite Hins, Houts in Hrun.
    eexists. split; [by apply SubproblemComp_ok |]. by destruct (harvest_fresh _ _ _ _ _ _ H) as (_ & [? ?] & _).
Qed.

(** C6, as amended: once the tables are harvested, a selector that the loop
    reaches with its alias not yet bound and that lets no entry of its table
    through makes construction raise the unknown-variable error, for bare
    and pair selectors, inputs and outputs; and whatever [__init__] raises,
    the caller gets no instance. *)
Theorem C6_unmatched_selector_raises_unknown model driver extra kwargs w1 ti to :
  harvest model driver extra kwargs fresh_world = (w1, Ok (ti, to)) ->
  (forall pre s post a outs oi,
     bind_selectors Input (heap w1) ti pre [] = (oi, Ok tt) ->
     alias_of s = Some a -> a ∉ aliases pre ->
     matching (heap w1) (selector_test s) ti = [] ->
     SubproblemComp model driver extra kwargs (Some (pre ++ s :: post)) outs
     = Raise (UnknownVariableError (selector_name s)))
  /\ (forall ins pre s post a oi oo,
        bind_selectors Input (heap w1) ti ins [] = (oi, Ok tt) ->
        bind_selectors Output (heap w1) to pre [] = (oo, Ok tt) ->
        alias_of s = Some a -> a ∉ aliases pre ->
        matching (heap w1) (selector_test s) to = [] ->
        SubproblemComp model driver extra kwargs (Some ins)
          (Some (pre ++ s :: post))
        = Raise (UnknownVariableError (selector_name s)))
  /\ (forall ins outs w e,
        __init__ model driver extra kwargs ins outs fresh_world = (w, Raise e) ->
        SubproblemComp model driver extra kwargs ins outs = Raise e).
Proof.
  intros H. destruct (harvest_fresh _ _ _ _ _ _ H) as (_ & _ & Hwi & Hwo).
  simpl in Hwi, Hwo. split; [|split].
  - intros pre s post a outs oi Hpre Ha Hin Hm.
    pose proof (init_run _ _ _ _ (pre ++ s :: post) outs _ _ _ H) as Hrun.
    rewrite (bind_selectors_unknown _ _ _ _ _ _ _ _ Hwi Hpre Ha Hin Hm) in Hrun.
    by apply (SubproblemComp_raise _ _ _ _ _ _ _ _ Hrun).
  - intros ins pre s post a oi oo Hins Hpre Ha Hin Hm.
    pose proof (init_run _ _ _ _ ins (Some (pre ++ s :: post)) _ _ _ H) as Hrun.
    rewrite Hins in Hrun.
    rewrite (bind_selectors_unknown _ _ _ _ _ _ _ _ Hwo Hpre Ha Hin Hm) in Hrun.
    by apply (SubproblemComp_raise _ _ _ _ _ _ _ _ Hrun).
  - intros ins outs w e. apply SubproblemComp_raise.
Qed.

Lemma init_None_raises model driver extra kwargs ins outs :
  ins = None \/ outs = None ->
  exists w e,
    __init__ model driver extra kwargs ins outs fresh_world = (w, Raise e).
Proof.
  intros Hnone.
  destruct (harvest model driver extra kwargs fresh_world)
    as [w1 [[ti to]|e]] eqn:H.
  - destruct ins as [ins|].
    + destruct Hnone as [Hnone|Hnone]; [done | subst outs].
      rewrite (init_run _ _ _ _ _ _ _ _ _ H).
      destruct (bind_selectors Input (heap w1) ti ins []) as [oi [[]|e]];
        by eexists _, _.
    + rewrite (init_run_None _ _ _ _ _ _ _ _ H). by eexists _, _.
  - rewrite (init_harvest_raise _ _ _ _ _ _ _ _ H). by eexists _, _.
Qed.

(** C10, as amended: with the input list or the output list left at [None]
    [__init__] always raises and the caller gets no instance;
    [self._subprob] does not exist then and no call has been made on it.
    With the input list at [None] nothing is bound when the error leaves;
    with only the output list at [None] no output is bound (the input loop
    has run before). *)
Theorem C10_selector_list_left_at_None model driver extra kwargs :
  (forall outs, exists w e,
     __init__ model driver extra kwargs None outs fresh_world = (w, Raise e)
     /\ unbound w /\ unprovisioned w
     /\ SubproblemComp model driver extra kwargs None outs = Raise e)
  /\ (forall ins, exists w e,
        __init__ model driver extra kwargs ins None fresh_world = (w, Raise e)
        /\ options_outputs (self w) = [] /\ unprovisioned w
        /\ SubproblemComp model driver extra kwargs ins None = Raise e).
Proof.
  split.
  - intros outs.
    destruct (init_None_raises model driver extra kwargs None outs)
      as (w & e & Hrun); [by left |].
    exists w, e. split; [done |].
    destruct (init_unprovisioned _ _ _ _ _ _ _ _ Hrun) as (Hp & Hi & _).
    split; [by apply Hi |]. split; [done |].
    by apply (SubproblemComp_raise _ _ _ _ _ _ _ _ Hrun).
  - intros ins.
    destruct (init_None_raises model driver extra kwargs ins None)
      as (w & e & Hrun); [by right |].
    exists w, e. split; [done |].
    destruct (init_unprovisioned _ _ _ _ _ _ _ _ Hrun) as (Hp & _ & Ho).
    split; [by apply Ho |]. split; [done |].
    by apply (SubproblemComp_raise _ _ _ _ _ _ _ _ Hrun).
Qed.

End ConstructionClaims.

(** Witness for C5 on the two-output model: [ctr] bound bare and then asked
    for again by a pair selector, among the inputs and among the outputs
    ([value] twice); and the alias [v] once as an input and once as an
    output. *)
Lemma C5_witness :
  (exists w,
     __init__ (E:=Toy.engine) Toy.twin None tt tt
       (Some ([SelStr "ctr"] ++ SelTuple "y.x1.gain" "ctr" :: []))
       (Some []) fresh_world = (w, Raise (DuplicateAliasError "ctr"))
     /\ unprovisioned w
     /\ SubproblemComp (E:=Toy.engine) Toy.twin None tt tt
          (Some ([SelStr "ctr"] ++ SelTuple "y.x1.gain" "ctr" :: []))
          (Some [])
        = Raise (DuplicateAliasError "ctr"))
  /\ (exists w,
        __init__ (E:=Toy.engine) Toy.twin None tt tt (Some [SelStr "ctr"])
          (Some ([SelTuple "y.x1.value" "value"] ++ SelStr "value" :: []))
          fresh_world = (w, Raise (DuplicateAliasError "value"))
        /\ unprovisioned w
        /\ SubproblemComp (E:=Toy.engine) Toy.twin None tt tt (Some [SelStr "ctr"])
             (Some ([SelTuple "y.x1.value" "value"] ++ SelStr "value" :: []))
           = Raise (DuplicateAliasError "value"))
  /\ (exists w,
        SubproblemComp (E:=Toy.engine) Toy.twin None tt tt
          (Some [SelTuple "ctr" "v"]) (Some [SelTuple "y.x1.value" "v"]) = Ok w
        /\ options_inputs (self w) = [("v", 2)]
        /\ options_outputs (self w) = [("v", 3)]).
Proof.
  destruct (C5_duplicate_alias_is_per_set (E:=Toy.engine) Toy.twin None tt tt
              twin_harvested.1 twin_inputs twin_outputs twin_harvested_eq)
    as (Hin & Hout & Hboth).
  split; [|split].
  - apply (Hin [SelStr "ctr"] (SelTuple "y.x1.gain" "ctr") [] "ctr" (Some [])
             [("ctr", 2)]); [vm_compute; reflexivity | done | vm_compute; left].
  - apply (Hout [SelStr "ctr"] [SelTuple "y.x1.value" "value"] (SelStr "value")
             [] "value" [("ctr", 2)] [("value", 3)]);
      [vm_compute; reflexivity | vm_compute; reflexivity | done | vm_compute; left].
  - apply (Hboth [SelTuple "ctr" "v"] [SelTuple "y.x1.value" "v"] "v"
             [("v", 2)] [("v", 3)]);
      [vm_compute; reflexivity | vm_compute; reflexivity | vm_compute; left | vm_compute; left].
Defined.

(** C6, as stated, fails: the pair selector [('nope', 'a')] lets no entry of
    the input table through, yet construction raises the duplicate-alias
    error, because [a] is already bound when the loop reaches it. *)
Lemma C6_counterexample :
  matching (heap twin_harvested.1) (selector_test (SelTuple "nope" "a"))
    twin_inputs = []
  /\ SubproblemComp (E:=Toy.engine) Toy.twin None tt tt
       (Some [SelTuple "ctr" "a"; SelTuple "nope" "a"]) (Some [])
     = Raise (DuplicateAliasError "a")
  /\ SubproblemComp (E:=Toy.engine) Toy.twin None tt tt
       (Some [SelTuple "ctr" "a"; SelTuple "nope" "a"]) (Some [])
     <> Raise (UnknownVariableError "nope").
Proof.
  assert (SubproblemComp (E:=Toy.engine) Toy.twin None tt tt
            (Some [SelTuple "ctr" "a"; SelTuple "nope" "a"]) (Some [])
          = Raise (DuplicateAliasError "a")) as H
    by (apply error_of_Some; vm_compute; reflexivity).
  split; [vm_compute; reflexivity |]. split; [exact H |].
  rewrite H. discriminate.
Qed.

(** Witness for C6 on the two-output model: an unknown bare input and an
    unknown pair output. *)
Lemma C6_witness :
  SubproblemComp (E:=Toy.engine) Toy.twin None tt tt
    (Some ([SelStr "ctr"] ++ SelStr "nope" :: [])) (Some [])
  = Raise (UnknownVariableError "nope")
  /\ SubproblemComp (E:=Toy.engine) Toy.twin None tt tt (Some [SelStr "ctr"])
       (Some ([] ++ SelTuple "y.x3.value" "c" :: [SelStr "value"]))
     = Raise (UnknownVariableError "y.x3.value")
  /\ (__init__ (E:=Toy.engine) Toy.twin None tt tt (Some [SelOther]) (Some [])
        fresh_world
      = ((__init__ (E:=Toy.engine) Toy.twin None tt tt (Some [SelOther])
            (Some []) fresh_world).1, Raise (InvalidSelectorError Input)) ->
      SubproblemComp (E:=Toy.engine) Toy.twin None tt tt (Some [SelOther]) (Some [])
      = Raise (InvalidSelectorError Input)).
Proof.
  destruct (C6_unmatched_selector_raises_unknown (E:=Toy.engine) Toy.twin None
              tt tt twin_harvested.1 twin_inputs twin_outputs twin_harvested_eq)
    as (Hin & Hout & Hfatal).
  split; [|split].
  - apply (Hin [SelStr "ctr"] (SelStr "nope") [] "nope" (Some []) [("ctr", 2)]);
      [vm_compute; reflexivity | done | apply (bool_decide_unpack _); vm_compute; exact I | vm_compute; reflexivity].
  - apply (Hout [SelStr "ctr"] [] (SelTuple "y.x3.value" "c") [SelStr "value"]
             "c" [("ctr", 2)] []);
      [vm_compute; reflexivity | vm_compute; reflexivity | done
      | apply (bool_decide_unpack _); vm_compute; exact I | vm_compute; reflexivity].
  - apply Hfatal.
Defined.

(** C10, as stated, fails: with the output list left at [None] the input
    selector [r] is bound before the error leaves [__init__]. *)
Lemma C10_counterexample :
  (__init__ (E:=Toy.engine) Toy.polar None tt tt (Some [SelStr "r"]) None
     fresh_world).2
  = Raise (TypeError "'NoneType' object is not iterable")
  /\ options_inputs
       (self (__init__ (E:=Toy.engine) Toy.polar None tt tt (Some [SelStr "r"])
                None fresh_world).1)
     = [("r", 0)].
Proof. split; vm_compute; reflexivity. Qed.

(** ** Evaluation *)

Section EvalFacts.
Context {E : Engine}.
Implicit Types (w : World E) (p : Problem E).

(** The world after calls on [self._subprob] that left it in state [p]. *)
Definition touched p (calls : list (call E)) w : World E :=
  {| heap := heap w; self := set_subprob (Some p) (self w);
     log := log w ++ calls |}.

(** The world after calls that changed nothing else. *)
Definition logged (calls : list (call E)) w : World E :=
  {| heap := heap w; self := self w; log := log w ++ calls |}.

(** [self.options[side][alias]['prom_name']], read off the world. *)
Definition lookup_prom w (side : io) (alias : string) : res string :=
  match OD.get alias (get_options side (self w)) with
  | Some r => prom_name_of (heap w) r
  | None => Raise (KeyError alias)
  end.

(** [p.set_val] for a list of (promoted name, value) pairs, in order. *)
Fixpoint push_all (pvs : list (string * Value E)) p : res (Problem E) :=
  match pvs with
  | [] => Ok p
  | (name, v) :: rest => p' ← om_set_val E name v p; push_all rest p'
  end.

(** The run of lines 252-256 and the call it is. *)
Definition settle p : res (Problem E) :=
  if om_driver E p is Some _ then om_run_driver E p else om_run_model E p.

Definition settle_call p : call E :=
  if om_driver E p is Some _ then CRunDriver else CRunModel.

(** Lines 236-246 on the problem, and the calls they make. *)
Definition switch_problem (under_complex_step prev : bool) p : res (Problem E) :=
  if negb (eqb under_complex_step prev) then
    p1 ← om_setup E under_complex_step p;
    p2 ← om_final_setup E p1;
    om_set_complex_step_mode E under_complex_step p2
  else Ok p.

Definition switch_calls (under_complex_step prev : bool) : list (call E) :=
  if negb (eqb under_complex_step prev) then
    [CSetup Subprob under_complex_step; CFinalSetup Subprob;
     CSetComplexStepMode under_complex_step]
  else [].

(** The outputs vector after the assignments of line 260. *)
Definition assign_all (outputs : gmap string (Value E))
    (ovs : list (string * Value E)) : gmap string (Value E) :=
  fold_left (fun acc ov => <[ov.1 := ov.2]> acc) ovs outputs.

Lemma touched_touched p1 p2 l1 l2 w :
  touched p2 l2 (touched p1 l1 w) = touched p2 (l1 ++ l2) w.
Proof. unfold touched; simpl. by rewrite app_assoc. Qed.

Lemma lookup_prom_touched p l w side alias :
  lookup_prom (touched p l w) side alias = lookup_prom w side alias.
Proof. unfold lookup_prom. by destruct side. Qed.

Lemma bound_prom_name_run side alias w :
  bound_prom_name side alias w = (w, lookup_prom w side alias).
Proof.
  unfold bound_prom_name, lookup_prom. rewrite bind_run. simpl.
  by destruct (OD.get alias (get_options side (self w))).
Qed.

Lemma getattr_run {A} name (f : Comp E -> option A) w :
  getattr name f w
  = (w, match f (self w) with Some a => Ok a | None => Raise (AttributeError name) end).
Proof. unfold getattr. rewrite bind_run. simpl. by destruct (f (self w)). Qed.

Lemma getitem_run {A} key (o : option A) w :
  getitem key o w
  = (w, match o with Some a => Ok a | None => Raise (KeyError key) end).
Proof. by destruct o. Qed.

Lemma on_subprob_do_run c f w p :
  _subprob (self w) = Some p ->
  on_subprob_do c f w
  = match f p with
    | Ok p' => (touched p' [c] w, Ok tt)
    | Raise e =>
        ({| heap := heap w; self := self w; log := log w ++ [c] |}, Raise e)
    end.
Proof.
  intros Hp. unfold on_subprob_do. rewrite bind_run, getattr_run, Hp.
  unfold invoke. rewrite !bind_run. simpl. by destruct (f p).
Qed.

Lemma subprob_touched p l w : _subprob (self (touched p l w)) = Some p.
Proof. reflexivity. Qed.

(** The loop of lines 249-250, when it runs to its end. *)
Lemma push_loop_ok (inputs : gmap string (Value E)) names w w' p :
  _subprob (self w) = Some p ->
  for_each names (fun inp =>
    prom ← bound_prom_name Input inp;
    v ← getitem inp (inputs !! inp);
    on_subprob_do (CSetVal prom v) (om_set_val E prom v)) w = (w', Ok tt) ->
  exists pushed p1,
    Forall2 (fun inp pv => lookup_prom w Input inp = Ok pv.1
                           /\ inputs !! inp = Some pv.2) names pushed
    /\ push_all pushed p = Ok p1
    /\ w' = touched p1 (map (fun pv => CSetVal pv.1 pv.2) pushed) w.
Proof.
  revert w p; induction names as [|inp names IH]; intros w p Hp; simpl.
  - intros [= <-]. exists [], p. split; [constructor |]. split; [done |].
    unfold touched. rewrite app_nil_r. destruct w as [h c l]; simpl in *.
    f_equal. destruct c; simpl in *. by subst.
  - rewrite bind_run, bind_run, bound_prom_name_run.
    destruct (lookup_prom w Input inp) as [prom|e] eqn:Hprom; [|done].
    rewrite bind_run, getitem_run.
    destruct (inputs !! inp) as [v|] eqn:Hv; [|done].
    rewrite (on_subprob_do_run _ _ _ _ Hp).
    destruct (om_set_val E prom v p) as [p'|e] eqn:Hset; [|done].
    intros Hrest. apply IH with (p := p') in Hrest as (pushed & p1 & Hall & Hpush & ->);
      [|done].
    exists ((prom, v) :: pushed), p1. split; [|split].
    + constructor; [done |]. eapply Forall2_impl; [done |].
      intros a b [Ha Hb]. by rewrite lookup_prom_touched in Ha.
    + simpl. by rewrite Hset.
    + by rewrite touched_touched.
Qed.

Lemma push_inputs_ok inputs names w w' p :
  _subprob (self w) = Some p -> _input_names (self w) = Some names ->
  push_inputs inputs w = (w', Ok tt) ->
  exists pushed p1,
    Forall2 (fun inp pv => lookup_prom w Input inp = Ok pv.1
                           /\ inputs !! inp = Some pv.2) names pushed
    /\ push_all pushed p = Ok p1
    /\ w' = touched p1 (map (fun pv => CSetVal pv.1 pv.2) pushed) w.
Proof.
  intros Hp Hn. unfold push_inputs. rewrite bind_run, getattr_run, Hn.
  by apply push_loop_ok.
Qed.

(** The loop of lines 259-260, when it runs to its end. *)
Lemma pull_loop_ok names outputs result w w' p :
  _subprob (self w) = Some p ->
  for_fold names (fun outs op =>
    prom ← bound_prom_name Output op;
    p ← getattr "_subprob" _subprob;
    v ← invoke (CGetVal prom) (om_get_val E prom p);
    mret (<[op := v]> outs)) outputs w = (w', Ok result) ->
  exists pulled,
    Forall2 (fun op pv => lookup_prom w Output op = Ok pv.1
                          /\ om_get_val E pv.1 p = Ok pv.2) names pulled
    /\ result = assign_all outputs (zip names pulled.*2)
    /\ w' = logged (map (fun pv => CGetVal pv.1) pulled) w.
Proof.
  revert w outputs; induction names as [|op names IH]; intros w outputs Hp; simpl.
  - intros [= <- <-]. exists []. split; [constructor |]. split; [done |].
    unfold logged; simpl. rewrite app_nil_r. by destruct w.
  - rewrite bind_run, bind_run, bound_prom_name_run.
    destruct (lookup_prom w Output op) as [prom|e] eqn:Hprom; [|done].
    rewrite bind_run, getattr_run, Hp. unfold invoke. rewrite !bind_run. simpl.
    destruct (om_get_val E prom p) as [v|e] eqn:Hget; [|done]. simpl.
    intros Hrest.
    change {| heap := heap w; self := self w; log := log w ++ [CGetVal prom] |}
      with (logged [CGetVal prom] w) in Hrest.
    apply IH in Hrest as (pulled & Hall & -> & ->); [|done].
    exists ((prom, v) :: pulled). split; [|split].
    + constructor; [done |]. eapply Forall2_impl; [done |]. by intros a b.
    + done.
    + unfold logged; simpl. by rewrite <- app_assoc.
Qed.

(** The world after an evaluation in mode [mode] that left
    [self._subprob] in state [p]. *)
Definition evaluated (mode : bool) p (calls : list (call E)) w : World E :=
  {| heap := heap w;
     self := set_prev_complex_step mode (set_subprob (Some p) (self w));
     log := log w ++ calls |}.

Lemma touched_evaluated mode p1 p2 l1 l2 w :
  touched p2 l2 (evaluated mode p1 l1 w) = evaluated mode p2 (l1 ++ l2) w.
Proof. unfold touched, evaluated; simpl. by rewrite app_assoc. Qed.

Lemma logged_evaluated mode p l1 l2 w :
  logged l2 (evaluated mode p l1 w) = evaluated mode p (l1 ++ l2) w.
Proof. unfold logged, evaluated; simpl. by rewrite app_assoc. Qed.

Lemma lookup_prom_evaluated mode p l w side alias :
  lookup_prom (evaluated mode p l w) side alias = lookup_prom w side alias.
Proof. unfold lookup_prom. by destruct side. Qed.

Lemma evaluated_same w p :
  _subprob (self w) = Some p ->
  evaluated (_prev_complex_step (self w)) p [] w = w.
Proof.
  intros Hp. unfold evaluated. rewrite app_nil_r.
  destruct w as [h c l]; simpl in *. f_equal. destruct c; simpl in *. by subst.
Qed.

(** Lines 236-246, when they return. *)
Lemma switch_mode_ok mode w w' p :
  _subprob (self w) = Some p ->
  switch_mode mode w = (w', Ok tt) ->
  exists p',
    switch_problem mode (_prev_complex_step (self w)) p = Ok p'
    /\ w' = evaluated mode p'
              (switch_calls mode (_prev_complex_step (self w))) w.
Proof.
  intros Hp. unfold switch_mode, switch_problem, switch_calls.
  rewrite bind_run. simpl.
  destruct (negb (eqb mode (_prev_complex_step (self w)))) eqn:Hne.
  - assert (forall w1,
      (on_subprob_do (CSetup Subprob mode) (om_setup E mode);;
       on_subprob_do (CFinalSetup Subprob) (om_final_setup E);;
       on_subprob_do (CSetComplexStepMode mode)
         (om_set_complex_step_mode E mode)) w = (w1, Ok tt) ->
      exists p', (p1 ← om_setup E mode p; p2 ← om_final_setup E p1;
                  om_set_complex_step_mode E mode p2) = Ok p'
        /\ w1 = touched p' [CSetup Subprob mode; CFinalSetup Subprob;
                            CSetComplexStepMode mode] w) as Hseq.
    { intros w1. rewrite bind_run, (on_subprob_do_run _ _ _ _ Hp).
      destruct (om_setup E mode p) as [p1|e]; [|done]. simpl.
      rewrite bind_run, (on_subprob_do_run _ _ _ p1) by done.
      destruct (om_final_setup E p1) as [p2|e]; [|done]. simpl.
      rewrite (on_subprob_do_run _ _ _ p2) by done.
      destruct (om_set_complex_step_mode E mode p2) as [p3|e]; [|done].
      intros [= <-]. exists p3. split; [done |].
      by rewrite !touched_touched. }
    rewrite bind_run.
    destruct mode; simpl in Hseq |- *.
    + destruct ((on_subprob_do (CSetup Subprob true) (om_setup E true);;
                 on_subprob_do (CFinalSetup Subprob) (om_final_setup E);;
                 on_subprob_do (CSetComplexStepMode true)
                   (om_set_complex_step_mode E true)) w) as [w1 [[]|e]] eqn:Hw1;
        [|done].
      destruct (Hseq w1 eq_refl) as (p' & Hp' & ->).
      intros [= <-]. by exists p'.
    + destruct ((on_subprob_do (CSetup Subprob false) (om_setup E false);;
                 on_subprob_do (CFinalSetup Subprob) (om_final_setup E);;
                 on_subprob_do (CSetComplexStepMode false)
                   (om_set_complex_step_mode E false)) w) as [w1 [[]|e]] eqn:Hw1;
        [|done].
      destruct (Hseq w1 eq_refl) as (p' & Hp' & ->).
      intros [= <-]. by exists p'.
  - intros [= <-]. exists p. split; [done |].
    apply negb_false_iff, eqb_prop in Hne. subst mode.
    by rewrite evaluated_same.
Qed.

(** [compute], when it returns: what it asked of the inner problem and what
    it hands back. *)
Lemma compute_ok mode inputs outputs w w' result p ins outs :
  _subprob (self w) = Some p ->
  _input_names (self w) = Some ins ->
  _output_names (self w) = Some outs ->
  compute mode inputs outputs w = (w', Ok result) ->
  exists p0 pushed p1 p2 pulled,
    switch_problem mode (_prev_complex_step (self w)) p = Ok p0
    /\ Forall2 (fun inp pv => lookup_prom w Input inp = Ok pv.1
                              /\ inputs !! inp = Some pv.2) ins pushed
    /\ push_all pushed p0 = Ok p1
    /\ settle p1 = Ok p2
    /\ Forall2 (fun op pv => lookup_prom w Output op = Ok pv.1
                             /\ om_get_val E pv.1 p2 = Ok pv.2) outs pulled
    /\ result = assign_all outputs (zip outs pulled.*2)
    /\ w' = evaluated mode p2
              (switch_calls mode (_prev_complex_step (self w))
               ++ map (fun pv => CSetVal pv.1 pv.2) pushed
               ++ [settle_call p1]
               ++ map (fun pv => CGetVal pv.1) pulled) w.
Proof.
  intros Hp Hins Houts. unfold compute.
  rewrite bind_run, getattr_run, Hp, bind_run.
  destruct (switch_mode mode w) as [w1 [[]|e]] eqn:Hsw; [|done].
  apply (switch_mode_ok _ _ _ _ Hp) in Hsw as (p0 & Hp0 & ->).
  rewrite bind_run.
  destruct (push_inputs inputs _) as [w2 [[]|e]] eqn:Hpush; [|done].
  apply (push_inputs_ok _ ins _ _ p0) in Hpush as (pushed & p1 & Hpushed & Hp1 & ->);
    [|done|done].
  rewrite touched_evaluated, bind_run. unfold run_inner.
  rewrite bind_run, getattr_run. simpl _subprob.
  unfold pull_outputs, settle, settle_call.
  destruct (om_driver E p1) as [d|] eqn:Hd.
  - rewrite (on_subprob_do_run _ _ _ p1) by done.
    destruct (om_run_driver E p1) as [p2|e] eqn:Hrun; [|done].
    rewrite touched_evaluated, bind_run, getattr_run. simpl _output_names.
    rewrite Houts. intros Hpull.
    apply (pull_loop_ok _ _ _ _ _ p2) in Hpull as (pulled & Hpulled & -> & ->);
      [|done].
    exists p0, pushed, p1, p2, pulled. rewrite Hd.
    repeat split; try done.
    all: try (by rewrite logged_evaluated, <- !app_assoc).
    all: eapply Forall2_impl; [done |]; intros a b [Ha Hb];
      by rewrite lookup_prom_evaluated in Ha.
  - rewrite (on_subprob_do_run _ _ _ p1) by done.
    destruct (om_run_model E p1) as [p2|e] eqn:Hrun; [|done].
    rewrite touched_evaluated, bind_run, getattr_run. simpl _output_names.
    rewrite Houts. intros Hpull.
    apply (pull_loop_ok _ _ _ _ _ p2) in Hpull as (pulled & Hpulled & -> & ->);
      [|done].
    exists p0, pushed, p1, p2, pulled. rewrite Hd.
    repeat split; try done.
    all: try (by rewrite logged_evaluated, <- !app_assoc).
    all: eapply Forall2_impl; [done |]; intros a b [Ha Hb];
      by rewrite lookup_prom_evaluated in Ha.
Qed.

End EvalFacts.

(** * The claims about evaluation *)

Section EvalClaims.
Context {E : Engine}.
Implicit Types (w : World E) (p : Problem E).

(** How often [self._subprob] was provisioned between two worlds of one
    run: the [p.setup(...)] calls logged after [w] up to [w']. *)
Definition count_provisions (calls : list (call E)) : nat :=
  length (filter (fun c => is_provision c) calls).

Definition provisions w w' : nat :=
  count_provisions (drop (length (log w)) (log w')).

Lemma count_provisions_app l1 l2 :
  count_provisions (l1 ++ l2) = count_provisions l1 + count_provisions l2.
Proof. unfold count_provisions. by rewrite filter_app, length_app. Qed.

Lemma count_provisions_none l :
  Forall (fun c => is_provision c = false) l -> count_provisions l = 0.
Proof.
  unfold count_provisions. induction 1 as [|c l Hc _ IH]; [done |].
  rewrite filter_cons, Hc. by simpl.
Qed.

Lemma count_provisions_switch mode prev :
  count_provisions (switch_calls (E:=E) mode prev)
  = if eqb mode prev then 0 else 1.
Proof. by destruct mode, prev. Qed.

Lemma log_evaluated mode p2 calls w :
  log (evaluated mode p2 calls w) = log w ++ calls.
Proof. reflexivity. Qed.

Lemma provisions_evaluated mode p2 calls w :
  provisions w (evaluated mode p2 calls w) = count_provisions calls.
Proof. unfold provisions, evaluated; simpl. by rewrite drop_app_length. Qed.

Lemma count_provisions_evaluation mode prev pushed p1 pulled :
  count_provisions
    (switch_calls (E:=E) mode prev
     ++ map (fun pv : string * Value E => CSetVal pv.1 pv.2) pushed
     ++ [settle_call p1]
     ++ map (fun pv : string * Value E => CGetVal pv.1) pulled)
  = if eqb mode prev then 0 else 1.
Proof.
  rewrite !count_provisions_app, count_provisions_switch.
  rewrite (count_provisions_none (map _ pushed)) by (by apply Forall_map, Forall_true).
  rewrite (count_provisions_none [_])
    by (constructor; [unfold settle_call; by destruct (om_driver E p1) | done]).
  rewrite (count_provisions_none (map _ pulled)) by (by apply Forall_map, Forall_true).
  lia.
Qed.

(** [compute] provisions on a mode change and only then, and records the
    mode it ran in. *)
Lemma compute_provisions mode inputs outputs w w' result p ins outs :
  _subprob (self w) = Some p ->
  _input_names (self w) = Some ins ->
  _output_names (self w) = Some outs ->
  compute mode inputs outputs w = (w', Ok result) ->
  _prev_complex_step (self w') = mode
  /\ provisions w w' = if eqb mode (_prev_complex_step (self w)) then 0 else 1.
Proof.
  intros Hp Hi Ho Hc.
  destruct (compute_ok _ _ _ _ _ _ _ _ _ Hp Hi Ho Hc)
    as (p0 & pushed & p1 & p2 & pulled & _ & _ & _ & _ & _ & _ & ->).
  split; [done |].
  by rewrite provisions_evaluated, count_provisions_evaluation.
Qed.

(** *** The outputs vector *)

Lemma assign_all_other (outputs : gmap string (Value E)) ovs op :
  op ∉ ovs.*1 -> assign_all outputs ovs !! op = outputs !! op.
Proof.
  revert outputs; induction ovs as [|[o v] ovs IH]; intros outputs; simpl; [done |].
  intros [Hne Hin]%not_elem_of_cons. unfold assign_all in *; simpl.
  rewrite IH by done. by rewrite lookup_insert_ne.
Qed.

Lemma assign_all_dom (outputs : gmap string (Value E)) ovs :
  dom (assign_all outputs ovs) = dom outputs ∪ list_to_set ovs.*1.
Proof.
  revert outputs; induction ovs as [|[o v] ovs IH]; intros outputs; simpl.
  - unfold assign_all; simpl. set_solver.
  - unfold assign_all in *; simpl. rewrite IH, dom_insert_L. set_solver.
Qed.

(** Every alias read from the settled problem holds the value read for it,
    also when the list names an alias twice. *)
Lemma assign_all_pulled (value_of : string -> Value E -> Prop)
    (outputs : gmap string (Value E)) outs vs op :
  (forall o v1 v2, value_of o v1 -> value_of o v2 -> v1 = v2) ->
  Forall2 value_of outs vs -> op ∈ outs ->
  exists v, value_of op v /\ assign_all outputs (zip outs vs) !! op = Some v.
Proof.
  intros Hfun Hall. revert outputs.
  induction Hall as [|o v outs vs Hov Hall IH]; intros outputs Hin.
  - by apply elem_of_nil in Hin.
  - destruct (decide (op ∈ outs)) as [Hin'|Hnin].
    + unfold assign_all in *; simpl. by apply IH.
    + apply elem_of_cons in Hin as [->|]; [|done].
      exists v. split; [done |]. unfold assign_all; simpl.
      change (fold_left _ _ ?m) with (assign_all m (zip outs vs)).
      rewrite assign_all_other; [by rewrite lookup_insert_eq |].
      rewrite fst_zip; [done |]. by rewrite (Forall2_length _ _ _ Hall).
Qed.

(** C8: on a node whose inner problem is provisioned in the mode asked for,
    an evaluation that returns has pushed, for each input alias in order,
    the caller's value under the binding's promoted name, has then run the
    driver if the problem has one and the model otherwise, exactly once,
    and has then read every output alias from the settled problem under its
    binding's promoted name; it has made no other call.  Every declared
    output alias holds the value read for it, and the vector has the
    aliases as keys next to those it came with. *)
Theorem C8_evaluation_pushes_settles_pulls
    mode inputs outputs w w' result p ins outs :
  _subprob (self w) = Some p ->
  _prev_complex_step (self w) = mode ->
  _input_names (self w) = Some ins ->
  _output_names (self w) = Some outs ->
  compute mode inputs outputs w = (w', Ok result) ->
  exists pushed p1 p2 pulled,
    Forall2 (fun inp pv => lookup_prom w Input inp = Ok pv.1
                           /\ inputs !! inp = Some pv.2) ins pushed
    /\ push_all pushed p = Ok p1
    /\ settle p1 = Ok p2
    /\ Forall2 (fun op pv => lookup_prom w Output op = Ok pv.1
                             /\ om_get_val E pv.1 p2 = Ok pv.2) outs pulled
    /\ log w' = log w
                ++ map (fun pv => CSetVal pv.1 pv.2) pushed
                ++ [settle_call p1]
                ++ map (fun pv => CGetVal pv.1) pulled
    /\ _subprob (self w') = Some p2
    /\ (forall op, op ∈ outs ->
          exists prom v, lookup_prom w Output op = Ok prom
                         /\ om_get_val E prom p2 = Ok v
                         /\ result !! op = Some v)
    /\ dom result = dom outputs ∪ list_to_set outs.
Proof.
  intros Hp Hmode Hi Ho Hc.
  destruct (compute_ok _ _ _ _ _ _ _ _ _ Hp Hi Ho Hc)
    as (p0 & pushed & p1 & p2 & pulled & Hsw & Hpushed & Hp1 & Hp2 & Hpulled
        & -> & ->).
  unfold switch_problem, switch_calls in *. rewrite Hmode in *.
  rewrite eqb_reflx in *. simpl in Hsw. injection Hsw as <-.
  exists pushed, p1, p2, pulled. repeat split; try done.
  - intros op Hin.
    destruct (assign_all_pulled
                (fun o v => exists prom, lookup_prom w Output o = Ok prom
                                         /\ om_get_val E prom p2 = Ok v)
                outputs outs pulled.*2 op) as (v & (prom & Hprom & Hv) & Hres).
    + intros o v1 v2 (prom1 & Ho1 & Hv1) (prom2 & Ho2 & Hv2). congruence.
    + apply Forall2_fmap_r. eapply Forall2_impl; [done |].
      intros o [prom v] [? ?]. by exists prom.
    + done.
    + by exists prom, v.
  - rewrite assign_all_dom, fst_zip; [done |].
    rewrite length_fmap. by rewrite (Forall2_length _ _ _ Hpulled).
Qed.

(** *** Re-provisioning

    What the comparison of two real-mode runs needs of the inner problem:
    [ident] names what a problem object was built from; no method changes
    it; [setup] builds the run-time state from it alone; and switching
    complex-step mode off on a problem just set up for real arithmetic
    changes nothing. *)
Record reprovision_laws {Ident : Type} (ident : Problem E -> Ident) : Prop := {
  setup_ident b p p' : om_setup E b p = Ok p' -> ident p' = ident p;
  final_setup_ident p p' : om_final_setup E p = Ok p' -> ident p' = ident p;
  set_mode_ident b p p' :
    om_set_complex_step_mode E b p = Ok p' -> ident p' = ident p;
  set_val_ident name v p p' : om_set_val E name v p = Ok p' -> ident p' = ident p;
  run_driver_ident p p' : om_run_driver E p = Ok p' -> ident p' = ident p;
  run_model_ident p p' : om_run_model E p = Ok p' -> ident p' = ident p;
  setup_from_definition b p q :
    ident p = ident q -> om_setup E b p = om_setup E b q;
  real_mode_off_is_noop p p1 p2 :
    om_setup E false p = Ok p1 -> om_final_setup E p1 = Ok p2 ->
    om_set_complex_step_mode E false p2 = Ok p2
}.

Section Reprovision.
Context {Ident : Type} (ident : Problem E -> Ident).
Hypothesis laws : reprovision_laws ident.

Lemma push_all_ident pushed p p' :
  push_all pushed p = Ok p' -> ident p' = ident p.
Proof.
  revert p; induction pushed as [|[n v] pushed IH]; intros p; simpl.
  - by intros [= <-].
  - destruct (om_set_val E n v p) as [p1|e] eqn:Hset; [|done]. simpl.
    intros ->%IH. by eapply set_val_ident.
Qed.

Lemma settle_ident p p' : settle p = Ok p' -> ident p' = ident p.
Proof.
  unfold settle. destruct (om_driver E p).
  - by eapply run_driver_ident.
  - by eapply run_model_ident.
Qed.

Lemma switch_problem_ident mode prev p p' :
  switch_problem mode prev p = Ok p' -> ident p' = ident p.
Proof.
  unfold switch_problem. destruct (negb (eqb mode prev)); [|by intros [= <-]].
  destruct (om_setup E mode p) as [p1|e] eqn:H1; [|done]. simpl.
  destruct (om_final_setup E p1) as [p2|e] eqn:H2; [|done]. simpl.
  intros H3.
  rewrite (set_mode_ident _ laws _ _ _ H3), (final_setup_ident _ laws _ _ H2).
  by eapply setup_ident.
Qed.

End Reprovision.


End EvalClaims.

(** * The claim about the metadata dictionaries *)

Section MetadataClaims.
Context {E : Engine}.
Implicit Types (w : World E).

(** The metadata a node refers to: the dictionaries and the two sets of
    bindings to them. *)
Definition metadata w
  : store (Value E) * odict string ref * odict string ref :=
  (heap w, options_inputs (self w), options_outputs (self w)).

(** [ok_stable I m]: [m] keeps [I] whenever it returns. *)
Definition ok_stable {A} (I : World E -> Prop) (m : M A) : Prop :=
  hoare I m (fun r w => match r with Ok _ => I w | Raise _ => True end).

Lemma stable_ok_stable {A} I (m : M A) : stable I m -> ok_stable I m.
Proof. intros H w w' r HI Hm. destruct r; [by eapply H | done]. Qed.

Lemma ok_stable_bind {A B} I (m : M A) (f : A -> M B) :
  ok_stable I m -> (forall a, ok_stable I (f a)) -> ok_stable I (m ≫= f).
Proof. intros Hm Hf. eapply hoare_bind; [exact Hm | exact Hf | done]. Qed.

Lemma ok_stable_for_each {A} I (l : list A) (body : A -> M unit) :
  (forall a, ok_stable I (body a)) -> ok_stable I (for_each l body).
Proof.
  intros Hb. induction l as [|a l IH]; simpl.
  - apply stable_ok_stable, stable_ret.
  - apply ok_stable_bind; [apply Hb | by intros _].
Qed.

Section Keeps.
Variable md : store (Value E) * odict string ref * odict string ref.

Definition keeps w : Prop := metadata w = md.

Lemma keeps_log w l :
  keeps w -> keeps {| heap := heap w; self := self w; log := l |}.
Proof. done. Qed.

Lemma stable_on_subprob_do c f : stable keeps (on_subprob_do c f).
Proof.
  apply stable_bind; [apply stable_getattr | intros p].
  apply stable_bind; [by apply stable_invoke | intros p'].
  by apply stable_modify.
Qed.

Lemma stable_on_base_do c f : stable keeps (on_base_do c f).
Proof.
  apply stable_bind; [apply stable_getattr | intros b].
  apply stable_bind; [by apply stable_invoke | intros b'].
  by apply stable_modify.
Qed.

Lemma stable_bound_prom_name side alias : stable keeps (bound_prom_name side alias).
Proof.
  apply stable_bind; [apply stable_get_self | intros c].
  apply stable_bind; [apply stable_getitem | intros r].
  apply stable_bind; [apply stable_get_heap | intros h]. apply stable_lift.
Qed.

Lemma stable_push_inputs inputs : stable keeps (push_inputs inputs).
Proof.
  apply stable_bind; [apply stable_getattr | intros names].
  apply stable_for_each. intros inp.
  apply stable_bind; [apply stable_bound_prom_name | intros prom].
  apply stable_bind; [apply stable_getitem | intros v].
  apply stable_on_subprob_do.
Qed.

Lemma stable_compute mode inputs outputs :
  stable keeps (compute mode inputs outputs).
Proof.
  apply stable_bind; [apply stable_getattr | intros _].
  apply stable_bind.
  { apply stable_bind; [apply stable_get_self | intros c].
    destruct (negb _); [|apply stable_ret].
    apply stable_bind; [|intros _; by apply stable_modify].
    destruct mode; repeat (apply stable_bind; [apply stable_on_subprob_do | intros _]);
      apply stable_on_subprob_do. }
  intros _. apply stable_bind; [apply stable_push_inputs | intros _].
  apply stable_bind.
  { apply stable_bind; [apply stable_getattr | intros p].
    destruct (om_driver E p); apply stable_on_subprob_do. }
  intros _. apply stable_bind; [apply stable_getattr | intros names].
  apply stable_for_fold. intros outs op.
  apply stable_bind; [apply stable_bound_prom_name | intros prom].
  apply stable_bind; [apply stable_getattr | intros p].
  apply stable_bind; [by apply stable_invoke | intros v]. apply stable_ret.
Qed.

Lemma stable_compute_partials inputs partials :
  stable keeps (compute_partials inputs partials).
Proof.
  apply stable_bind; [apply stable_getattr | intros _].
  apply stable_bind; [apply stable_push_inputs | intros _].
  apply stable_bind; [apply stable_getattr | intros output_names].
  apply stable_bind; [apply stable_getattr | intros input_names].
  apply stable_bind; [apply stable_getattr | intros p].
  apply stable_bind; [by apply stable_invoke | intros r].
  apply stable_bind; [by apply stable_modify | intros _].
  apply stable_for_fold. intros partials' of_.
  apply stable_for_fold. intros partials'' wrt.
  apply stable_bind; [apply stable_getitem | intros t]. apply stable_ret.
Qed.

Lemma deref_run (r : ref) w :
  deref r w
  = (w, match heap w !! r with
        | Some m => Ok m
        | None => Raise (EngineError "dangling metadata reference")
        end).
Proof.
  unfold deref. rewrite bind_run. simpl. by destruct (heap w !! r).
Qed.

Lemma meta_pop_run (r : ref) key w :
  meta_pop r key w
  = match heap w !! r with
    | None => (w, Raise (EngineError "dangling metadata reference"))
    | Some m =>
        match m !! key with
        | None => (w, Raise (KeyError key))
        | Some v =>
            ({| heap := <[r := delete key m]> (heap w); self := self w;
                log := log w |}, Ok v)
        end
    end.
Proof.
  unfold meta_pop. rewrite bind_run, deref_run.
  destruct (heap w !! r) as [m|]; [|done].
  rewrite bind_run, getitem_run. by destruct (m !! key).
Qed.

Lemma meta_setitem_run (r : ref) key v w :
  meta_setitem r key v w
  = match heap w !! r with
    | None => (w, Raise (EngineError "dangling metadata reference"))
    | Some m =>
        ({| heap := <[r := <[key := v]> m]> (heap w); self := self w;
            log := log w |}, Ok tt)
    end.
Proof.
  unfold meta_setitem. rewrite bind_run, deref_run.
  by destruct (heap w !! r).
Qed.

(** Lines 217-220 and 224-227: [prom_name] is taken out of the dictionary
    for the call and put back after it. *)
Lemma pop_call_restore (r : ref)
    (call : gmap string (pyval (Value E)) -> M unit) (rest : M unit) :
  (forall m h, stable (fun w => heap w = h
                               /\ options_inputs (self w) = md.1.2
                               /\ options_outputs (self w) = md.2) (call m)) ->
  ok_stable keeps rest ->
  ok_stable keeps
    (prom_name ← meta_pop r "prom_name";
     m ← deref r;
     call m;;
     meta_setitem r "prom_name" prom_name;;
     rest).
Proof.
  intros Hcall Hrest w w' res Hk.
  assert (forall w2, heap w2 = heap w ->
            options_inputs (self w2) = options_inputs (self w) ->
            options_outputs (self w2) = options_outputs (self w) ->
            keeps w2) as Hkeeps.
  { intros w2 H1 H2 H3. unfold keeps, metadata in *. by rewrite H1, H2, H3. }
  unfold keeps, metadata in Hk. rewrite <- Hk in Hcall. simpl in Hcall.
  rewrite bind_run, meta_pop_run.
  destruct (heap w !! r) as [m|] eqn:Hm; [|by intros [= <- <-]].
  destruct (m !! "prom_name") as [v|] eqn:Hv; [|by intros [= <- <-]].
  set (w1 := {| heap := <[r:=delete "prom_name" m]> (heap w); self := self w;
                log := log w |}).
  rewrite bind_run, deref_run.
  assert (heap w1 !! r = Some (delete "prom_name" m)) as ->.
  { subst w1; simpl. apply list_lookup_insert_eq. by eapply lookup_lt_Some. }
  rewrite bind_run.
  destruct (call (delete "prom_name" m) w1) as [w2 [[]|e]] eqn:Hc;
    [|by intros [= <- <-]].
  assert (heap w2 = <[r := delete "prom_name" m]> (heap w)
          /\ options_inputs (self w2) = options_inputs (self w)
          /\ options_outputs (self w2) = options_outputs (self w))
    as (Hh2 & Hi2 & Ho2).
  { by eapply (Hcall (delete "prom_name" m) _ w1). }
  rewrite bind_run, meta_setitem_run.
  rewrite Hh2, list_lookup_insert_eq by (by eapply lookup_lt_Some).
  apply Hrest. apply Hkeeps; simpl; [|done|done].
  rewrite list_insert_insert_eq, insert_delete_eq.
  rewrite (insert_id m) by done. by rewrite list_insert_id.
Qed.

End Keeps.

Lemma ok_stable_setup md : ok_stable (keeps md) setup.
Proof.
  unfold setup.
  apply ok_stable_bind;
    [apply stable_ok_stable, stable_getattr | intros [[model driver] extra]].
  apply ok_stable_bind; [apply stable_ok_stable, stable_get_self | intros c].
  apply ok_stable_bind; [by apply stable_ok_stable, stable_emit | intros _].
  apply ok_stable_bind; [by apply stable_ok_stable, stable_modify | intros _].
  do 3 (apply ok_stable_bind;
          [apply stable_ok_stable, stable_on_subprob_do | intros _]).
  apply ok_stable_bind; [by apply stable_ok_stable, stable_modify | intros _].
  apply ok_stable_bind; [by apply stable_ok_stable, stable_modify | intros _].
  apply ok_stable_bind; [|intros _].
  - apply ok_stable_for_each. intros [var r]. unfold setup_input.
    apply pop_call_restore.
    + intros m h. apply stable_bind; [apply stable_getattr | intros b].
      apply stable_bind; [by apply stable_invoke | intros b'].
      by apply stable_modify.
    + apply stable_ok_stable. unfold append_input_name.
      apply stable_bind; [apply stable_getattr | intros names].
      by apply stable_modify.
  - apply ok_stable_for_each. intros [var r]. unfold setup_output.
    apply pop_call_restore.
    + intros m h. apply stable_bind; [apply stable_getattr | intros b].
      apply stable_bind; [by apply stable_invoke | intros b'].
      by apply stable_modify.
    + apply stable_ok_stable.
      apply stable_bind.
      { unfold append_output_name.
        apply stable_bind; [apply stable_getattr | intros names].
        by apply stable_modify. }
      intros _. apply stable_bind; [apply stable_getattr | intros names].
      apply stable_for_each. intros ip. apply stable_on_base_do.
Qed.

(** C9, as amended: [setup], when it returns, and [compute] and
    [compute_partials], however they end, leave every metadata dictionary
    with the contents it had, [prom_name] included, and leave the bindings
    to them as they were.  ([setup] does write to the dictionaries: it takes
    [prom_name] out for the registration call and puts it back after it.) *)
Theorem C9_metadata_is_left_as_found w :
  (forall w', setup w = (w', Ok tt) -> metadata w' = metadata w)
  /\ (forall mode inputs outputs w' r,
        compute mode inputs outputs w = (w', r) -> metadata w' = metadata w)
  /\ (forall inputs partials w' r,
        compute_partials inputs partials w = (w', r) ->
        metadata w' = metadata w).
Proof.
  split; [|split].
  - intros w' H. by apply (ok_stable_setup (metadata w) w w' (Ok tt)).
  - intros mode inputs outputs w' r H.
    by apply (stable_compute (metadata w) mode inputs outputs w w' r).
  - intros inputs partials w' r H.
    by apply (stable_compute_partials (metadata w) inputs partials w w' r).
Qed.

End MetadataClaims.

(** * The component on the small inner problem *)

Lemma run_eq {W A} (x : W * res A) (r : res A) : x.2 = r -> x = (x.1, r).
Proof. intros <-. by destruct x. Qed.

(** [SubproblemComp(model=polar, inputs=['r', 'theta'], outputs=[('x', 'a')])],
    then [setup()]. *)
Definition polar_constructed : World Toy.engine :=
  (__init__ (E:=Toy.engine) Toy.polar None tt tt
     (Some [SelStr "r"; SelStr "theta"]) (Some [SelTuple "x" "a"])
     fresh_world).1.

Definition polar_set_up : World Toy.engine :=
  (setup (E:=Toy.engine) polar_constructed).1.

(** The same node written out: the inner problem as [setup] leaves it, the
    three dictionaries, the bindings and the name lists. *)
Definition polar_new : Toy.problem :=
  {| Toy.p_model := Some Toy.polar; Toy.p_driver := None; Toy.p_vals := ∅;
     Toy.p_complex_alloc := false; Toy.p_complex_step := false |}.

Definition polar_ready : Toy.problem :=
  {| Toy.p_model := Some Toy.polar; Toy.p_driver := None;
     Toy.p_vals := list_to_map [("r", 0%Z); ("theta", 0%Z); ("x", 0%Z)];
     Toy.p_complex_alloc := false; Toy.p_complex_step := false |}.

Definition polar_node : World Toy.engine :=
  {| heap := [to_meta (E:=Toy.engine) (Toy.describe ("subsys.r", "r")).2;
              to_meta (E:=Toy.engine) (Toy.describe ("subsys.theta", "theta")).2;
              to_meta (E:=Toy.engine) (Toy.describe ("subsys.x", "x")).2];
     self := {| base := Some (["r"; "theta"; "a"] : Base Toy.engine);
                options_inputs := [("r", 0); ("theta", 1)];
                options_outputs := [("a", 2)];
                _prev_complex_step := false;
                prob_args := Some (Toy.polar, None, tt);
                _subprob := Some polar_ready;
                _input_names := Some ["r"; "theta"];
                _output_names := Some ["a"] |};
     log := [] |}.

(** What can be compared without unfolding the model's functions agrees
    between the node as run and the node as written out. *)
Definition node_summary (w : World Toy.engine) :=
  (options_inputs (self w), options_outputs (self w),
   _prev_complex_step (self w), _input_names (self w), _output_names (self w),
   base (self w),
   (fun p => (Toy.p_vals p, Toy.p_complex_alloc p, Toy.p_complex_step p,
              Toy.p_driver p)) <$> _subprob (self w),
   prom_name_of (heap w) <$> [0; 1; 2]).

Lemma polar_node_as_run : node_summary polar_set_up = node_summary polar_node.
Proof. vm_compute. reflexivity. Qed.

Definition polar_inputs : gmap string Z := {[ "r" := 3%Z; "theta" := 4%Z ]}.

(** The calls logged, read without their engine-typed payload. *)
Definition totals_requests {E} (calls : list (call E))
  : list (list string * list string * bool) :=
  omap (fun c => match c with
                 | CComputeTotals of_ wrt b => Some (of_, wrt, b)
                 | _ => None
                 end) calls.

Definition value_requests {E} (calls : list (call E)) : list string :=
  omap (fun c => match c with CGetVal name => Some name | _ => None end) calls.

(** C2 (the code departs from it): the output [x] of the inner model is
    bound under the alias [a].  [compute] reads it under its promoted name
    [x]; [compute_partials] makes one total-derivative request, with
    [use_abs_names=False], and names the output by its alias [a], which the
    inner problem does not know. *)
Theorem C2_totals_are_requested_by_alias :
  lookup_prom polar_set_up Output "a" = Ok "x"
  /\ value_requests (log (compute (E:=Toy.engine) false polar_inputs ∅ polar_set_up).1)
     = ["x"]
  /\ totals_requests (log (compute_partials (E:=Toy.engine) polar_inputs ∅ polar_set_up).1)
     = [(["a"], ["r"; "theta"], false)]
  /\ error_of (compute_partials (E:=Toy.engine) polar_inputs ∅ polar_set_up).2
     = Some (KeyError "a").
Proof. repeat split; vm_compute; reflexivity. Qed.

(** Witness for C9: [setup] on the constructed node returns and leaves the
    metadata as it was. *)
Lemma C9_witness : metadata polar_set_up = metadata polar_constructed.
Proof.
  apply (proj1 (C9_metadata_is_left_as_found polar_constructed)).
  apply (run_eq (setup (E:=Toy.engine) polar_constructed)).
  vm_compute. reflexivity.
Defined.

(** [SubproblemComp(model=twin, inputs=[('ctr', 'v')],
    outputs=[('y.x1.value', 'v')])]: the alias [v] is used once on each
    side, which the constructor accepts. *)
Definition twin_clash_built : World Toy.engine * res unit :=
  __init__ (E:=Toy.engine) Toy.twin None tt tt
    (Some [SelTuple "ctr" "v"]) (Some [SelTuple "y.x1.value" "v"]) fresh_world.

Definition twin_clash_set_up : World Toy.engine * res unit :=
  setup (E:=Toy.engine) twin_clash_built.1.

Lemma metadata_lookup_prom {E : Engine} (w w' : World E) side alias :
  metadata w' = metadata w -> lookup_prom w' side alias = lookup_prom w side alias.
Proof.
  unfold metadata, lookup_prom. intros [= Hh Hi Ho].
  destruct side; simpl; by rewrite ?Hh, ?Hi, ?Ho.
Qed.

(** C9, as stated, fails: on this node [setup] raises inside [add_output]
    (the base class already holds an input named [v]), after line 224 has
    taken [prom_name] out of the output's dictionary and before line 227
    puts it back.  The dictionary bound to the output alias has lost its
    [prom_name] entry, so the metadata after [setup] is not the metadata
    before it. *)
Lemma C9_counterexample :
  twin_clash_built.2 = Ok tt
  /\ error_of twin_clash_set_up.2
     = Some (EngineError "Variable name already exists")
  /\ lookup_prom twin_clash_built.1 Output "v" = Ok "y.x1.value"
  /\ lookup_prom twin_clash_set_up.1 Output "v" = Raise (KeyError "prom_name")
  /\ lookup_prom twin_clash_set_up.1 Input "v" = Ok "ctr"
  /\ metadata twin_clash_set_up.1 <> metadata twin_clash_built.1.
Proof.
  assert (lookup_prom twin_clash_built.1 Output "v" = Ok "y.x1.value") as Hbefore
    by (vm_compute; reflexivity).
  assert (lookup_prom twin_clash_set_up.1 Output "v"
          = Raise (KeyError "prom_name")) as Hafter
    by (vm_compute; reflexivity).
  split; [vm_compute; reflexivity |]. split; [vm_compute; reflexivity |].
  split; [exact Hbefore |]. split; [exact Hafter |].
  split; [vm_compute; reflexivity |].
  intros Heq. apply (metadata_lookup_prom _ _ Output "v") in Heq.
  rewrite Hbefore, Hafter in Heq. discriminate.
Qed.

(** Witness for C8: one real-mode evaluation of the node at [r = 3],
    [theta = 4]. *)
Lemma C8_witness :
  exists pushed p1 p2 pulled,
    Forall2 (fun inp pv => lookup_prom polar_node Input inp = Ok pv.1
                           /\ polar_inputs !! inp = Some pv.2)
      ["r"; "theta"] pushed
    /\ push_all (E:=Toy.engine) pushed polar_ready = Ok p1
    /\ settle (E:=Toy.engine) p1 = Ok p2
    /\ Forall2 (fun op pv => lookup_prom polar_node Output op = Ok pv.1
                             /\ om_get_val Toy.engine pv.1 p2 = Ok pv.2)
         ["a"] pulled
    /\ log (compute (E:=Toy.engine) false polar_inputs ∅ polar_node).1
       = log polar_node
         ++ map (fun pv => CSetVal pv.1 pv.2) pushed
         ++ [settle_call (E:=Toy.engine) p1]
         ++ map (fun pv => CGetVal pv.1) pulled
    /\ _subprob (self (compute (E:=Toy.engine) false polar_inputs ∅ polar_node).1)
       = Some p2
    /\ (forall op, op ∈ ["a"] ->
          exists prom v, lookup_prom polar_node Output op = Ok prom
                         /\ om_get_val Toy.engine prom p2 = Ok v
                         /\ ({[ "a" := 11%Z ]} : gmap string Z) !! op = Some v)
    /\ dom ({[ "a" := 11%Z ]} : gmap string Z)
       = dom (∅ : gmap string Z) ∪ list_to_set ["a"].
Proof.
  apply (C8_evaluation_pushes_settles_pulls (E:=Toy.engine) false polar_inputs ∅
           polar_node (compute (E:=Toy.engine) false polar_inputs ∅ polar_node).1
           {[ "a" := 11%Z ]} polar_ready ["r"; "theta"] ["a"]);
    [reflexivity | reflexivity | reflexivity | reflexivity |].
  apply (run_eq (compute (E:=Toy.engine) false polar_inputs ∅ polar_node)).
  vm_compute. reflexivity.
Defined.

(** The small inner problem is rebuilt from its model and driver alone. *)
Lemma toy_reprovision_laws :
  reprovision_laws (E:=Toy.engine)
    (fun p : Toy.problem => (Toy.p_model p, Toy.p_driver p)).
Proof.
  split; simpl.
  - intros b p p' [= <-]. done.
  - intros p p' [= <-]. done.
  - intros b p p'. unfold Toy.do_set_complex_step_mode.
    destruct (b && negb (Toy.p_complex_alloc p)); [done |]. by intros [= <-].
  - intros name v p p'. unfold Toy.do_set_val.
    case_bool_decide; [|done]. by intros [= <-].
  - intros p p'. unfold Toy.do_run.
    destruct (Toy.p_model p) eqn:Hm; intros [= <-]; simpl; by rewrite ?Hm.
  - intros p p'. unfold Toy.do_run.
    destruct (Toy.p_model p) eqn:Hm; intros [= <-]; simpl; by rewrite ?Hm.
  - intros b p q [= Hm Hd]. unfold Toy.do_setup, Toy.names_of. by rewrite Hm, Hd.
  - intros p p1 p2 [= <-] [= <-]. reflexivity.
Qed.

Definition polar_run1 := compute (E:=Toy.engine) false polar_inputs ∅ polar_node.
Definition polar_run2 := compute (E:=Toy.engine) true polar_inputs ∅ polar_run1.1.
Definition polar_run3 := compute (E:=Toy.engine) false polar_inputs ∅ polar_run2.1.


(** * Further properties of the component *)

(** ** The tables keyed by promoted name (lines 83-84) *)

Section TableFacts.
Context {V : Type}.
Implicit Types (h : store V) (listed table acc : odict string ref).

Lemma od_keys_set_NoDup (k : string) (r : ref) acc :
  NoDup (OD.keys acc) -> NoDup (OD.keys (OD.set k r acc)).
Proof.
  intros Hnd. destruct (decide (k ∈ OD.keys acc)) as [Hin|Hin].
  - by rewrite OD.keys_set_present.
  - rewrite OD.keys_set_fresh by done. apply NoDup_app.
    split; [done |]. split; [|apply NoDup_singleton].
    intros x Hx ->%list_elem_of_singleton. done.
Qed.

Lemma matching_cons h test (a : string) (r : ref) listed :
  matching h test ((a, r) :: listed)
  = if accepts h test r then r :: matching h test listed
    else matching h test listed.
Proof. unfold matching. simpl. rewrite filter_cons. by destruct (accepts h test r). Qed.

Lemma last_matching_accepted h test listed r :
  last (matching h test listed) = Some r ->
  exists p, prom_name_of h r = Ok p /\ test p = true.
Proof.
  intros Hl. assert (r ∈ matching h test listed) as Hin.
  { apply last_Some in Hl as [l' ->]. apply elem_of_app. right. left. }
  unfold matching in Hin. apply list_elem_of_filter in Hin as [Ha _].
  unfold accepts in Ha. destruct (prom_name_of h r) as [p|e]; [|done].
  exists p. split; [done |]. by destruct (test p).
Qed.

Lemma index_by_prom_acc h listed acc table :
  index_by_prom h listed acc = Ok table ->
  NoDup (OD.keys acc) ->
  NoDup (OD.keys table)
  /\ forall k, OD.get k table
               = match last (matching h (tuple_test k) listed) with
                 | Some r => Some r
                 | None => OD.get k acc
                 end.
Proof.
  revert acc; induction listed as [|[a r] listed IH]; intros acc; simpl.
  - intros [= <-] Hnd. by split.
  - destruct (prom_name_of h r) as [p|e] eqn:Hp; simpl; [|done].
    intros Hi Hnd.
    destruct (IH _ Hi (od_keys_set_NoDup p r acc Hnd)) as [Hnd' Hget].
    split; [done |]. intros k. rewrite Hget, matching_cons.
    unfold accepts at 1. rewrite Hp. unfold tuple_test at 2.
    destruct (String.eqb_spec p k) as [->|Hne].
    + rewrite OD.get_set_eq.
      destruct (matching h (tuple_test k) listed) as [|r' l'] eqn:Hm; [done |].
      simpl. destruct (last (r' :: l')) eqn:Hl; [|by apply last_None in Hl].
      by destruct l'.
    + rewrite OD.get_set_ne by done. done.
Qed.

(** X1: the table built from a listing has one entry per promoted name; the
    entry under a promoted name is the dictionary of the last listed
    variable that carries it, every entry's dictionary carries the name it
    is filed under, and every listed variable's promoted name is a key. *)
Theorem X1_table_is_keyed_by_promoted_name h listed table :
  index_by_prom h listed [] = Ok table ->
  NoDup (OD.keys table)
  /\ (forall k, OD.get k table = last (matching h (tuple_test k) listed))
  /\ (forall k r, OD.get k table = Some r -> prom_name_of h r = Ok k)
  /\ (forall a r, (a, r) ∈ listed ->
        exists p, prom_name_of h r = Ok p /\ is_Some (OD.get p table)).
Proof.
  intros Hi. destruct (index_by_prom_acc _ _ _ _ Hi) as [Hnd Hget];
    [constructor |].
  assert (forall k, OD.get k table = last (matching h (tuple_test k) listed))
    as Hget'.
  { intros k. rewrite Hget. by destruct (last _). }
  split; [done |]. split; [done |]. split.
  - intros k r. rewrite Hget'. intros (p & Hp & Ht)%last_matching_accepted.
    unfold tuple_test in Ht. apply String.eqb_eq in Ht. by subst.
  - intros a r Hin.
    assert (exists p, prom_name_of h r = Ok p) as [p Hp].
    { clear Hget Hget' Hnd. revert table Hi. generalize (@nil (string * ref)).
      induction listed as [|[a' r'] listed IH]; intros acc table; simpl;
        [by apply elem_of_nil in Hin |].
      destruct (prom_name_of h r') as [p'|e] eqn:Hp'; simpl; [|done].
      apply elem_of_cons in Hin as [[= <- <-]|Hin]; [by exists p' |].
      intros Hi. by eapply IH. }
    exists p. split; [done |]. rewrite Hget'.
    assert (r ∈ matching h (tuple_test p) listed) as Hm.
    { unfold matching. apply list_elem_of_filter. split.
      - unfold accepts. rewrite Hp. unfold tuple_test.
        by rewrite String.eqb_refl.
      - apply list_elem_of_fmap. by exists (a, r). }
    destruct (last _) eqn:Hl; [done |]. apply last_None in Hl.
    rewrite Hl in Hm. by apply elem_of_nil in Hm.
Qed.

End TableFacts.

(** Witness for X1: two listed inputs promoted to the same name [x]. *)
Definition shared_heap : store Z :=
  [{[ "prom_name" := PStr "x" ]}; {[ "prom_name" := PStr "y" ]};
   {[ "prom_name" := PStr "x"; "units" := PStr "m" ]}].

Lemma X1_witness :
  NoDup (OD.keys [("x", 2); ("y", 1)])
  /\ (forall k, OD.get k [("x", 2); ("y", 1)]
                = last (matching shared_heap (tuple_test k)
                          [("a.x", 0); ("b.y", 1); ("c.x", 2)]))
  /\ (forall k r, OD.get k [("x", 2); ("y", 1)] = Some r ->
        prom_name_of shared_heap r = Ok k)
  /\ (forall a r, (a, r) ∈ [("a.x", 0); ("b.y", 1); ("c.x", 2)] ->
        exists p, prom_name_of shared_heap r = Ok p
                  /\ is_Some (OD.get p [("x", 2); ("y", 1)])).
Proof.
  apply (X1_table_is_keyed_by_promoted_name shared_heap
           [("a.x", 0); ("b.y", 1); ("c.x", 2)] [("x", 2); ("y", 1)]).
  vm_compute. reflexivity.
Defined.

(** ** The calls construction makes (lines 47-84) *)

Section ConstructionProtocol.
Context {E : Engine}.
Implicit Types (w : World E).

(** The calls of a construction that gets as far as the selector loops. *)
Definition construction_calls (driver : option (Driver E)) : list (call E) :=
  (if driver is Some _ then [CIssueWarning] else [])
  ++ [CComponentInit; CProblem Probe; CSetup Probe false; CFinalSetup Probe;
      CListInputs; CListOutputs; CDel].

Definition log_is (l : list (call E)) w : Prop := log w = l.

Lemma stable_bind_loop_log l side table sels :
  stable (log_is l) (bind_loop side table sels).
Proof.
  destruct sels as [sels|]; [|apply stable_raise].
  intros w w' r Hl. rewrite bind_loop_Some.
  destruct (bind_selectors _ _ _ _ _) as [opts r']. by intros [= <- _].
Qed.

(** [at_step driver l0 k]: the first [k] calls of [construction_calls] have
    been made since the log was [l0]. *)
Definition at_step (driver : option (Driver E)) (l0 : list (call E))
    (k : nat) w : Prop :=
  log w = l0 ++ take k (construction_calls driver).

Lemma hoare_emit_step driver l0 k c :
  construction_calls driver !! k = Some c ->
  hoare (at_step driver l0 k) (emit c)
    (fun r w => is_ok r = true /\ at_step driver l0 (S k) w).
Proof.
  intros Hc w w' r Hl [= <- <-]. split; [done |]. unfold at_step in *. simpl.
  by rewrite Hl, (take_S_r _ _ _ Hc), app_assoc.
Qed.

Lemma hoare_invoke_step {A} driver l0 k c (x : res A) :
  construction_calls driver !! k = Some c ->
  hoare (at_step driver l0 k) (invoke c x) (fun _ => at_step driver l0 (S k)).
Proof.
  intros Hc. unfold invoke.
  eapply hoare_bind; [by apply hoare_emit_step | | by intros e w [_ ?]].
  intros u w w' r [_ Hw] [= <- _]. done.
Qed.

(** What [harvest] has logged when it ends: a prefix of the calls above that
    reaches at least to [super().__init__], all of them when it returns. *)
Definition harvest_post (driver : option (Driver E)) (l0 : list (call E))
    {A} (r : res A) w : Prop :=
  (exists k, at_step driver l0 k w
             /\ length (construction_calls driver) - 6 <= k)
  /\ (is_ok r = true -> log w = l0 ++ construction_calls driver).

Ltac harvest_raise :=
  let e := fresh "e" in let w := fresh "w" in let Hw := fresh "Hw" in
  intros e w Hw; split; [eexists; split; [exact Hw | simpl; lia] | done].

Ltac harvest_emit :=
  eapply hoare_bind;
    [apply hoare_emit_step; reflexivity
    | intros ?; eapply hoare_weaken; [| by intros ? [_ ?] | done]
    | by intros ? ? [? _]].

Ltac harvest_invoke :=
  eapply hoare_bind;
    [apply hoare_invoke_step; reflexivity | intros ?; cbv beta | harvest_raise].

Ltac harvest_quiet :=
  eapply hoare_step;
    [first [by apply stable_modify | by apply stable_alloc_metas]
    | intros ? | harvest_raise].

Lemma harvest_log model driver extra kwargs l0 :
  hoare (log_is l0) (harvest model driver extra kwargs)
    (fun r => harvest_post driver l0 r).
Proof.
  eapply hoare_weaken with (P := at_step driver l0 0);
    [| intros w Hw; unfold at_step; by rewrite take_0, app_nil_r | done].
  assert (forall ms, hoare
            (at_step driver l0 (length (construction_calls driver) - 1))
            (emit CDel;;
             h ← get_heap;
             model_inputs ← lift (index_by_prom h ms.1 []);
             model_outputs ← lift (index_by_prom h ms.2 []);
             mret (model_inputs, model_outputs))
            (fun r => harvest_post driver l0 r)) as Hend.
  { intros ms w w' r Hl. rewrite bind_run.
    set (w1 := {| heap := heap w; self := self w; log := log w ++ [CDel] |}).
    change (emit CDel w) with (w1, Ok tt). cbv iota.
    assert (log w1 = l0 ++ construction_calls driver) as Hfull.
    { subst w1. simpl. rewrite Hl. unfold construction_calls.
      destruct driver; simpl; by rewrite <- app_assoc. }
    assert (forall (A : Type) (r : res A), harvest_post driver l0 r w1) as Hpost.
    { intros A r'. split; [|done]. exists (length (construction_calls driver)).
      split; [unfold at_step; by rewrite firstn_all | lia]. }
    rewrite !bind_run. unfold get_heap, lift.
    destruct (index_by_prom (heap w1) ms.1 []) as [ti|e];
      [|intros [= <- <-]; apply Hpost].
    destruct (index_by_prom (heap w1) ms.2 []) as [to|e];
      intros [= <- <-]; apply Hpost. }
  unfold harvest. destruct driver as [d|].
  - harvest_emit. harvest_invoke.
    do 5 harvest_quiet.
    harvest_emit. do 3 harvest_invoke.
    harvest_quiet. harvest_invoke.
    harvest_quiet.
    exact (Hend (_, _)).
  - eapply hoare_bind
      with (Q1 := fun r w => is_ok r = true /\ at_step None l0 0 w);
      [by intros w w' r Hw [= <- <-]
      | intros ?; eapply hoare_weaken; [| by intros ? [_ ?] | done]
      | by intros ? ? [? _]].
    harvest_invoke.
    do 5 harvest_quiet.
    harvest_emit. do 3 harvest_invoke.
    harvest_quiet. harvest_invoke.
    harvest_quiet.
    exact (Hend (_, _)).
Qed.

(** X2: whatever the selectors and however [__init__] ends, the calls it has
    made are a prefix of: the driver warning (if and only if a driver was
    given), [super().__init__], then on the probe problem creation, [setup],
    [final_setup], [list_inputs], [list_outputs] and its deletion; the
    warning (when due) and [super().__init__] are always among them, and
    when [__init__] returns all of them have been made, once each, and
    nothing else: the selector loops call nothing. *)
Theorem X2_construction_call_protocol model driver extra kwargs ins outs w r :
  __init__ model driver extra kwargs ins outs fresh_world = (w, r) ->
  ((if driver is Some _ then [CIssueWarning] else []) ++ [CComponentInit])
    `prefix_of` log w
  /\ log w `prefix_of` construction_calls driver
  /\ (r = Ok tt -> log w = construction_calls driver).
Proof.
  assert (forall k, length (construction_calls driver) - 6 <= k ->
            ((if driver is Some _ then [CIssueWarning] else [])
               ++ [CComponentInit])
              `prefix_of` take k (construction_calls driver)) as Hlow.
  { intros k Hk.
    exists (drop (length (construction_calls driver) - 6)
                 (take k (construction_calls driver))).
    rewrite <- (take_drop (length (construction_calls driver) - 6)
                  (take k (construction_calls driver))) at 1.
    f_equal. rewrite take_take, Nat.min_l by done. by destruct driver. }
  unfold __init__. rewrite bind_run.
  destruct (harvest model driver extra kwargs fresh_world) as [w1 rh] eqn:Hh.
  eapply (harvest_log model driver extra kwargs []) in Hh as [(k & Hk & Hlen) Hok];
    [|done].
  unfold at_step in Hk. simpl in Hk, Hok.
  destruct rh as [tables|e].
  - specialize (Hok eq_refl). intros Hloops.
    assert (log w = construction_calls driver) as Hw.
    { eapply (stable_bind (log_is (construction_calls driver))
                (bind_loop Input tables.1 ins)
                (fun _ => bind_loop Output tables.2 outs));
        [apply stable_bind_loop_log | intros _; apply stable_bind_loop_log
        | exact Hok | exact Hloops]. }
    rewrite Hw. split; [|done].
    rewrite <- (firstn_all (construction_calls driver)). apply Hlow. lia.
  - intros [= <- <-]. rewrite Hk. split; [by apply Hlow |].
    split; [|done]. exists (drop k (construction_calls driver)).
    by rewrite take_drop.
Qed.

(** X3: a selector that is neither a [str] nor a [tuple] makes [__init__]
    raise the invalid-type error of its list when the loop reaches it; the
    selectors before it stay bound, [self._subprob] does not exist and the
    caller gets no instance. *)
Theorem X3_invalid_selector_type model driver extra kwargs w1 ti to :
  harvest model driver extra kwargs fresh_world = (w1, Ok (ti, to)) ->
  (forall pre post outs oi,
     bind_selectors Input (heap w1) ti pre [] = (oi, Ok tt) ->
     exists w,
       __init__ model driver extra kwargs (Some (pre ++ SelOther :: post)) outs
         fresh_world = (w, Raise (InvalidSelectorError Input))
       /\ options_inputs (self w) = oi /\ options_outputs (self w) = []
       /\ unprovisioned w
       /\ SubproblemComp model driver extra kwargs
            (Some (pre ++ SelOther :: post)) outs
          = Raise (InvalidSelectorError Input))
  /\ (forall ins pre post oi oo,
        bind_selectors Input (heap w1) ti ins [] = (oi, Ok tt) ->
        bind_selectors Output (heap w1) to pre [] = (oo, Ok tt) ->
        exists w,
          __init__ model driver extra kwargs (Some ins)
            (Some (pre ++ SelOther :: post)) fresh_world
          = (w, Raise (InvalidSelectorError Output))
          /\ options_inputs (self w) = oi /\ options_outputs (self w) = oo
          /\ unprovisioned w
          /\ SubproblemComp model driver extra kwargs (Some ins)
               (Some (pre ++ SelOther :: post))
             = Raise (InvalidSelectorError Output)).
Proof.
  intros H. destruct (harvest_fresh _ _ _ _ _ _ H) as (Hp & [Hi Ho] & _).
  split.
  - intros pre post outs oi Hpre.
    pose proof (init_run _ _ _ _ (pre ++ SelOther :: post) outs _ _ _ H) as Hrun.
    rewrite bind_selectors_app, Hpre in Hrun. simpl in Hrun.
    eexists. split; [exact Hrun |]. simpl.
    split; [done |]. split; [done |].
    split; [by apply with_options_unprovisioned |].
    unfold SubproblemComp. by rewrite Hrun.
  - intros ins pre post oi oo Hins Hpre.
    pose proof (init_run _ _ _ _ ins (Some (pre ++ SelOther :: post)) _ _ _ H)
      as Hrun.
    rewrite Hins, bind_selectors_app, Hpre in Hrun. simpl in Hrun.
    eexists. split; [exact Hrun |]. simpl.
    split; [done |]. split; [done |].
    split; [by apply with_options_unprovisioned, with_options_unprovisioned |].
    unfold SubproblemComp. by rewrite Hrun.
Qed.

End ConstructionProtocol.

(** Witness for X2: the small model constructed with a driver. *)
Lemma X2_witness :
  ([CIssueWarning] ++ [CComponentInit])
    `prefix_of` log (__init__ (E:=Toy.engine) Toy.polar (Some tt) tt tt
                       (Some [SelStr "r"]) (Some [SelStr "x"]) fresh_world).1
  /\ log (__init__ (E:=Toy.engine) Toy.polar (Some tt) tt tt
            (Some [SelStr "r"]) (Some [SelStr "x"]) fresh_world).1
     `prefix_of` construction_calls (E:=Toy.engine) (Some tt)
  /\ (Ok tt = Ok tt ->
      log (__init__ (E:=Toy.engine) Toy.polar (Some tt) tt tt
             (Some [SelStr "r"]) (Some [SelStr "x"]) fresh_world).1
      = construction_calls (E:=Toy.engine) (Some tt)).
Proof.
  apply (X2_construction_call_protocol (E:=Toy.engine) Toy.polar (Some tt) tt tt
           (Some [SelStr "r"]) (Some [SelStr "x"])).
  apply (run_eq (__init__ (E:=Toy.engine) Toy.polar (Some tt) tt tt
                   (Some [SelStr "r"]) (Some [SelStr "x"]) fresh_world)).
  vm_compute. reflexivity.
Defined.

(** Witness for X3 on the two-output model: a selector of another type
    after a bound one, among the inputs and among the outputs. *)
Lemma X3_witness :
  (exists w,
     __init__ (E:=Toy.engine) Toy.twin None tt tt
       (Some ([SelStr "ctr"] ++ SelOther :: [SelStr "gain"])) (Some [])
       fresh_world = (w, Raise (InvalidSelectorError Input))
     /\ options_inputs (self w) = [("ctr", 2)]
     /\ options_outputs (self w) = []
     /\ unprovisioned w
     /\ SubproblemComp (E:=Toy.engine) Toy.twin None tt tt
          (Some ([SelStr "ctr"] ++ SelOther :: [SelStr "gain"])) (Some [])
        = Raise (InvalidSelectorError Input))
  /\ (exists w,
        __init__ (E:=Toy.engine) Toy.twin None tt tt (Some [SelStr "ctr"])
          (Some ([SelTuple "y.x1.value" "v"] ++ SelOther :: [])) fresh_world
        = (w, Raise (InvalidSelectorError Output))
        /\ options_inputs (self w) = [("ctr", 2)]
        /\ options_outputs (self w) = [("v", 3)]
        /\ unprovisioned w
        /\ SubproblemComp (E:=Toy.engine) Toy.twin None tt tt (Some [SelStr "ctr"])
             (Some ([SelTuple "y.x1.value" "v"] ++ SelOther :: []))
           = Raise (InvalidSelectorError Output)).
Proof.
  destruct (X3_invalid_selector_type (E:=Toy.engine) Toy.twin None tt tt
              twin_harvested.1 twin_inputs twin_outputs twin_harvested_eq)
    as (Hin & Hout).
  split.
  - apply (Hin [SelStr "ctr"] [SelStr "gain"] (Some []) [("ctr", 2)]).
    vm_compute. reflexivity.
  - apply (Hout [SelStr "ctr"] [SelTuple "y.x1.value" "v"] [] [("ctr", 2)]
             [("v", 3)]); vm_compute; reflexivity.
Defined.

(** ** What a constructed node is bound to (lines 87-187) *)

Section BindingFacts.
Context {E : Engine}.
Implicit Types (w : World E).

Lemma od_get_elem (d : odict string ref) k r :
  NoDup (OD.keys d) -> (k, r) ∈ d -> OD.get k d = Some r.
Proof.
  induction d as [|[k' r'] d IH]; simpl; [by intros _ ?%elem_of_nil |].
  intros [Hk Hnd]%NoDup_cons [[= <- <-]|Hin]%elem_of_cons.
  - by rewrite decide_True.
  - rewrite decide_False; [by apply IH |].
    intros ->. apply Hk. apply list_elem_of_fmap. by exists (k, r).
Qed.

Lemma bind_selectors_ok_NoDup side (h : store (Value E)) table sels opts opts' :
  bind_selectors side h table sels opts = (opts', Ok tt) ->
  NoDup (OD.keys opts) -> NoDup (OD.keys opts').
Proof.
  revert opts; induction sels as [|s sels IH]; intros opts; simpl.
  - by intros [= <-].
  - destruct (bind_selector side h table opts s) as [o|e] eqn:Hb; [|done].
    apply bind_selector_ok in Hb as (a & r & _ & Ha & _ & ->).
    intros Hrest Hnd. apply (IH _ Hrest). unfold OD.keys. rewrite map_app.
    apply NoDup_app. split; [done |]. split; [|apply NoDup_singleton].
    intros x Hx ->%list_elem_of_singleton. done.
Qed.

(** Every selector of a loop that ran to its end is bound, under its alias,
    to a dictionary whose promoted name passes the selector's test. *)
Lemma bind_selectors_ok_lookup side (h : store (Value E)) table sels opts' s :
  bind_selectors side h table sels [] = (opts', Ok tt) -> s ∈ sels ->
  exists a r p, alias_of s = Some a /\ OD.get a opts' = Some r
    /\ prom_name_of h r = Ok p /\ selector_test s p = true.
Proof.
  intros Hb Hs.
  pose proof (bind_selectors_ok_NoDup _ _ _ _ _ _ Hb (NoDup_nil_2)) as Hnd.
  apply bind_selectors_ok_bindings in Hb as (new & -> & Hall). simpl in *.
  apply list_elem_of_lookup in Hs as [i Hi].
  destruct (Forall2_lookup_l _ _ _ _ _ Hall Hi) as ([a r] & Hnew & Ha & Hl).
  simpl in *. apply last_matching_accepted in Hl as (p & Hp & Ht).
  exists a, r, p. repeat split; try done.
  apply od_get_elem; [done |]. by eapply list_elem_of_lookup_2.
Qed.

(** X4: in a constructed node every selector is bound under its alias, and
    the dictionary [options[...][alias]] carries a promoted name that passes
    the selector's test: for a pair [(prom_name, alias)] it is [prom_name]
    itself, for a bare selector it is a name that ends with the selector. *)
Theorem X4_bound_descriptor_passes_selector_test
    model driver extra kwargs ins outs w :
  SubproblemComp model driver extra kwargs (Some ins) (Some outs) = Ok w ->
  (forall prom alias, SelTuple prom alias ∈ ins ->
     lookup_prom w Input alias = Ok prom)
  /\ (forall name, SelStr name ∈ ins ->
        exists p, lookup_prom w Input name = Ok p
                  /\ PyStr.endswith p name = true)
  /\ (forall prom alias, SelTuple prom alias ∈ outs ->
        lookup_prom w Output alias = Ok prom)
  /\ (forall name, SelStr name ∈ outs ->
        exists p, lookup_prom w Output name = Ok p
                  /\ PyStr.endswith p name = true).
Proof.
  unfold SubproblemComp.
  destruct (__init__ model driver extra kwargs (Some ins) (Some outs) fresh_world)
    as [w0 [[]|e]] eqn:Hrun; [|done].
  intros [= <-].
  destruct (harvest model driver extra kwargs fresh_world)
    as [w1 [[ti to]|e]] eqn:H;
    [|by rewrite (init_harvest_raise _ _ _ _ _ _ _ _ H) in Hrun].
  rewrite (init_run _ _ _ _ _ _ _ _ _ H) in Hrun.
  destruct (bind_selectors Input (heap w1) ti ins []) as [oi [[]|e]] eqn:Hi;
    [|done].
  destruct (bind_selectors Output (heap w1) to outs []) as [oo [[]|e]] eqn:Ho;
    [|done].
  injection Hrun as <-.
  assert (forall side sels table opts s,
            bind_selectors side (heap w1) table sels [] = (opts, Ok tt) ->
            get_options side
              (self (with_options Output oo (with_options Input oi w1))) = opts ->
            s ∈ sels ->
            exists a p, alias_of s = Some a
              /\ lookup_prom (with_options Output oo (with_options Input oi w1))
                   side a = Ok p
              /\ selector_test s p = true) as Hgen.
  { intros side sels table opts s Hb Hopts Hs.
    destruct (bind_selectors_ok_lookup _ _ _ _ _ _ Hb Hs)
      as (a & r & p & Ha & Hg & Hp & Ht).
    exists a, p. split; [done |]. split; [|done].
    unfold lookup_prom. by rewrite Hopts, Hg. }
  repeat split.
  - intros prom alias Hs.
    destruct (Hgen Input _ _ _ _ Hi eq_refl Hs) as (a & p & [= <-] & Hl & Ht).
    unfold selector_test, tuple_test in Ht. apply String.eqb_eq in Ht.
    by subst.
  - intros name Hs.
    destruct (Hgen Input _ _ _ _ Hi eq_refl Hs) as (a & p & [= <-] & Hl & Ht).
    by exists p.
  - intros prom alias Hs.
    destruct (Hgen Output _ _ _ _ Ho eq_refl Hs) as (a & p & [= <-] & Hl & Ht).
    unfold selector_test, tuple_test in Ht. apply String.eqb_eq in Ht.
    by subst.
  - intros name Hs.
    destruct (Hgen Output _ _ _ _ Ho eq_refl Hs) as (a & p & [= <-] & Hl & Ht).
    by exists p.
Qed.

End BindingFacts.

(** Witness for X4 on the two-output model. *)
Definition twin_constructed : World Toy.engine :=
  (__init__ (E:=Toy.engine) Toy.twin None tt tt
     (Some [SelTuple "ctr" "c"; SelStr "gain"])
     (Some [SelTuple "y.x1.value" "v"]) fresh_world).1.

Lemma X4_witness :
  (forall prom alias, SelTuple prom alias ∈ [SelTuple "ctr" "c"; SelStr "gain"] ->
     lookup_prom twin_constructed Input alias = Ok prom)
  /\ (forall name, SelStr name ∈ [SelTuple "ctr" "c"; SelStr "gain"] ->
        exists p, lookup_prom twin_constructed Input name = Ok p
                  /\ PyStr.endswith p name = true)
  /\ (forall prom alias, SelTuple prom alias ∈ [SelTuple "y.x1.value" "v"] ->
        lookup_prom twin_constructed Output alias = Ok prom)
  /\ (forall name, SelStr name ∈ [SelTuple "y.x1.value" "v"] ->
        exists p, lookup_prom twin_constructed Output name = Ok p
                  /\ PyStr.endswith p name = true).
Proof.
  apply (X4_bound_descriptor_passes_selector_test (E:=Toy.engine) Toy.twin None
           tt tt [SelTuple "ctr" "c"; SelStr "gain"]
           [SelTuple "y.x1.value" "v"] twin_constructed).
  apply SubproblemComp_ok.
  apply (run_eq (__init__ (E:=Toy.engine) Toy.twin None tt tt
                   (Some [SelTuple "ctr" "c"; SelStr "gain"])
                   (Some [SelTuple "y.x1.value" "v"]) fresh_world)).
  vm_compute. reflexivity.
Defined.

(** ** What [setup] registers (lines 189-231) *)

Section SetupFacts.
Context {E : Engine}.
Implicit Types (w : World E).

(** The keyword arguments [**meta] of lines 218 and 225: the dictionary at
    [r] with [prom_name] taken out. *)
Definition stripped (h : store (Value E)) (r : ref)
  : gmap string (pyval (Value E)) :=
  delete "prom_name" (default ∅ (h !! r)).

(** The calls of the two loops of lines 216-231. *)
Definition input_registrations (h : store (Value E)) (inputs : odict string ref)
  : list (call E) :=
  map (fun vr => CAddInput vr.1 (stripped h vr.2)) inputs.

Definition output_registrations (h : store (Value E)) (input_names : list string)
    (outputs : odict string ref) : list (call E) :=
  flat_map (fun vr => CAddOutput vr.1 (stripped h vr.2)
                      :: map (CDeclarePartials vr.1) input_names) outputs.

(** The pairs [declare_partials] has been called with, in order. *)
Definition declared_partials (calls : list (call E)) : list (string * string) :=
  omap (fun c => match c with
                 | CDeclarePartials of_ wrt => Some (of_, wrt)
                 | _ => None
                 end) calls.

(** The inner problem of lines 201-207. *)
Definition provisioned (model : Model E) (driver : option (Driver E))
    (extra : Extra E) : res (Problem E) :=
  p1 ← om_add_subsystem E model (om_Problem E driver extra);
  p2 ← om_setup E false p1;
  om_final_setup E p2.

Lemma on_base_do_run c f w :
  on_base_do c f w
  = match base (self w) with
    | None => (w, Raise (AttributeError "base"))
    | Some b =>
        match f b with
        | Ok b' => ({| heap := heap w; self := set_base (Some b') (self w);
                       log := log w ++ [c] |}, Ok tt)
        | Raise e => ({| heap := heap w; self := self w; log := log w ++ [c] |},
                      Raise e)
        end
    end.
Proof.
  unfold on_base_do. rewrite bind_run, getattr_run.
  destruct (base (self w)) as [b|]; [|done].
  unfold invoke. rewrite !bind_run. simpl. by destruct (f b).
Qed.

Lemma get_self_bind_run {B} (f : Comp E -> M B) w :
  (get_self ≫= f) w = f (self w) w.
Proof. reflexivity. Qed.

Lemma emit_bind_run {B} c (f : unit -> M B) w :
  (emit c ≫= f) w
  = f tt {| heap := heap w; self := self w; log := log w ++ [c] |}.
Proof. reflexivity. Qed.

Lemma modify_bind_run {B} (g : Comp E -> Comp E) (f : unit -> M B) w :
  (modify g ≫= f) w
  = f tt {| heap := heap w; self := g (self w); log := log w |}.
Proof. reflexivity. Qed.

Lemma for_each_cons {A} (a : A) (l : list A) (body : A -> M (E:=E) unit) :
  for_each (a :: l) body = (body a;; for_each l body).
Proof. reflexivity. Qed.

Lemma set_base_same w :
  {| heap := heap w; self := set_base (base (self w)) (self w); log := log w |}
  = w.
Proof. destruct w as [h [] l]. reflexivity. Qed.

(** One iteration of the loop of lines 216-221, when it returns. *)
Lemma setup_input_ok var (r : ref) w w' :
  setup_input (var, r) w = (w', Ok tt) ->
  exists b' names,
    is_Some (heap w !! r) /\ _input_names (self w) = Some names
    /\ w' = {| heap := heap w;
               self := set_input_names (Some (names ++ [var]))
                         (set_base (Some b') (self w));
               log := log w ++ [CAddInput var (stripped (heap w) r)] |}.
Proof.
  unfold setup_input. rewrite bind_run, meta_pop_run. unfold stripped.
  destruct (heap w !! r) as [m|] eqn:Hm; [|done]. simpl default.
  destruct (m !! "prom_name") as [v|] eqn:Hv; [|done].
  rewrite bind_run, deref_run. simpl heap.
  rewrite list_lookup_insert_eq by (by eapply lookup_lt_Some).
  rewrite bind_run, on_base_do_run. simpl base.
  destruct (base (self w)) as [b|]; [|done].
  destruct (om_add_input E var (delete "prom_name" m) b) as [b'|e]; [|done].
  rewrite bind_run, meta_setitem_run. simpl heap.
  rewrite list_lookup_insert_eq by (by eapply lookup_lt_Some).
  unfold append_input_name. rewrite bind_run, getattr_run. simpl.
  destruct (_input_names (self w)) as [names|] eqn:Hn; [|done].
  intros [= <-]. exists b', names. split; [done |]. split; [done |].
  rewrite list_insert_insert_eq, insert_delete_eq, (insert_id m) by done.
  by rewrite list_insert_id.
Qed.

Lemma setup_inputs_ok (inputs : odict string ref) w w' names :
  for_each inputs setup_input w = (w', Ok tt) ->
  _input_names (self w) = Some names ->
  exists b',
    w' = {| heap := heap w;
            self := set_input_names (Some (names ++ OD.keys inputs))
                      (set_base b' (self w));
            log := log w ++ input_registrations (heap w) inputs |}.
Proof.
  revert w names; induction inputs as [|[var r] inputs IH]; intros w names.
  - simpl. intros [= <-] Hn. exists (base (self w)). rewrite !app_nil_r.
    destruct w as [h [] l]. simpl in *. by subst.
  - rewrite for_each_cons, bind_run.
    destruct (setup_input (var, r) w) as [w1 [[]|e]] eqn:H1; [|done].
    apply setup_input_ok in H1 as (b1 & names1 & _ & Hn1 & ->).
    intros Hrest Hn. rewrite Hn in Hn1. injection Hn1 as <-.
    apply (IH _ (names ++ [var])) in Hrest as [b' ->]; [|done].
    exists b'. simpl. by rewrite <- !app_assoc.
Qed.

(** The loop of lines 230-231, when it returns. *)
Lemma declare_loop_ok var (names : list string) w w' :
  for_each names (fun ip =>
    on_base_do (CDeclarePartials var ip) (om_declare_partials E var ip)) w
  = (w', Ok tt) ->
  exists b',
    w' = {| heap := heap w; self := set_base b' (self w);
            log := log w ++ map (CDeclarePartials var) names |}.
Proof.
  revert w; induction names as [|ip names IH]; intros w; simpl.
  - intros [= <-]. exists (base (self w)).
    rewrite app_nil_r. by rewrite set_base_same.
  - rewrite bind_run, on_base_do_run.
    destruct (base (self w)) as [b|]; [|done].
    destruct (om_declare_partials E var ip b) as [b1|e]; [|done].
    intros [b' ->]%IH. exists b'. simpl. by rewrite <- app_assoc.
Qed.

(** One iteration of the loop of lines 223-231, when it returns. *)
Lemma setup_output_ok var (r : ref) w w' :
  setup_output (var, r) w = (w', Ok tt) ->
  exists b' onames inames,
    _output_names (self w) = Some onames /\ _input_names (self w) = Some inames
    /\ w' = {| heap := heap w;
               self := set_output_names (Some (onames ++ [var]))
                         (set_base b' (self w));
               log := log w ++ CAddOutput var (stripped (heap w) r)
                               :: map (CDeclarePartials var) inames |}.
Proof.
  unfold setup_output. rewrite bind_run, meta_pop_run. unfold stripped.
  destruct (heap w !! r) as [m|] eqn:Hm; [|done]. simpl default.
  destruct (m !! "prom_name") as [v|] eqn:Hv; [|done].
  rewrite bind_run, deref_run. simpl heap.
  rewrite list_lookup_insert_eq by (by eapply lookup_lt_Some).
  rewrite bind_run, on_base_do_run. simpl base.
  destruct (base (self w)) as [b|]; [|done].
  destruct (om_add_output E var (delete "prom_name" m) b) as [b1|e]; [|done].
  rewrite bind_run, meta_setitem_run. simpl heap.
  rewrite list_lookup_insert_eq by (by eapply lookup_lt_Some).
  unfold append_output_name. rewrite !bind_run, getattr_run. simpl.
  destruct (_output_names (self w)) as [onames|] eqn:Hon; [|done].
  unfold modify at 1. cbv beta iota. rewrite bind_run, getattr_run. simpl.
  destruct (_input_names (self w)) as [inames|] eqn:Hin; [|done].
  intros [b' ->]%declare_loop_ok. exists b', onames, inames.
  split; [done |]. split; [done |]. simpl.
  rewrite list_insert_insert_eq, insert_delete_eq, (insert_id m) by done.
  rewrite list_insert_id by done. by rewrite <- app_assoc.
Qed.

Lemma setup_outputs_ok (outputs : odict string ref) w w' onames inames :
  for_each outputs setup_output w = (w', Ok tt) ->
  _output_names (self w) = Some onames -> _input_names (self w) = Some inames ->
  exists b',
    w' = {| heap := heap w;
            self := set_output_names (Some (onames ++ OD.keys outputs))
                      (set_base b' (self w));
            log := log w ++ output_registrations (heap w) inames outputs |}.
Proof.
  revert w onames; induction outputs as [|[var r] outputs IH]; intros w onames.
  - simpl. intros [= <-] Hon Hin. exists (base (self w)). rewrite !app_nil_r.
    destruct w as [h [] l]. simpl in *. by subst.
  - rewrite for_each_cons, bind_run.
    destruct (setup_output (var, r) w) as [w1 [[]|e]] eqn:H1; [|done].
    apply setup_output_ok in H1 as (b1 & on1 & in1 & Hon1 & Hin1 & ->).
    intros Hrest Hon Hin. rewrite Hon in Hon1. injection Hon1 as <-.
    rewrite Hin in Hin1. injection Hin1 as <-.
    apply (IH _ (onames ++ [var])) in Hrest as [b' ->]; [|done|done].
    exists b'. simpl. by rewrite <- !app_assoc.
Qed.

Lemma declared_partials_app (l1 l2 : list (call E)) :
  declared_partials (l1 ++ l2) = declared_partials l1 ++ declared_partials l2.
Proof. apply omap_app. Qed.

Lemma declared_partials_inputs h inputs :
  declared_partials (input_registrations h inputs) = [].
Proof. induction inputs as [|[var r] inputs IH]; [done | exact IH]. Qed.

Lemma declared_partials_outputs h inames outputs :
  declared_partials (output_registrations h inames outputs)
  = flat_map (fun o => map (pair o) inames) (OD.keys outputs).
Proof.
  induction outputs as [|[var r] outputs IH]; [done |].
  unfold output_registrations in *. simpl.
  change (declared_partials
            (map (CDeclarePartials var) inames
             ++ flat_map (fun vr => CAddOutput vr.1 (stripped h vr.2)
                            :: map (CDeclarePartials vr.1) inames) outputs)
          = map (pair var) inames
            ++ flat_map (fun o => map (pair o) inames) (OD.keys outputs)).
  rewrite declared_partials_app, IH. f_equal.
  clear. induction inames as [|ip inames IH]; [done |]. simpl. by rewrite <- IH.
Qed.

(** X5: a [setup] that returns has built [self._subprob] from the stored
    arguments ([Problem(driver, ...)], [add_subsystem], [setup] without
    complex allocation, [final_setup]); has registered every input alias and
    every output alias with the base class, in binding order, with the
    dictionary's entries except [prom_name]; has declared the partial of
    every output alias with respect to every input alias; has set the two
    name lists to the aliases in binding order, whatever they held before;
    and has left the recorded mode as it was. *)
Theorem X5_setup_registers_every_binding w w' :
  setup w = (w', Ok tt) ->
  exists model driver extra p,
    prob_args (self w) = Some (model, driver, extra)
    /\ provisioned model driver extra = Ok p
    /\ _subprob (self w') = Some p
    /\ _input_names (self w') = Some (OD.keys (options_inputs (self w)))
    /\ _output_names (self w') = Some (OD.keys (options_outputs (self w)))
    /\ log w'
       = log w
         ++ [CProblem Subprob; CAddSubsystem; CSetup Subprob false;
             CFinalSetup Subprob]
         ++ input_registrations (heap w) (options_inputs (self w))
         ++ output_registrations (heap w) (OD.keys (options_inputs (self w)))
              (options_outputs (self w))
    /\ declared_partials (log w')
       = declared_partials (log w)
         ++ flat_map (fun o => map (pair o) (OD.keys (options_inputs (self w))))
              (OD.keys (options_outputs (self w)))
    /\ _prev_complex_step (self w') = _prev_complex_step (self w).
Proof.
  unfold setup, provisioned. rewrite bind_run, getattr_run.
  destruct (prob_args (self w)) as [[[model driver] extra]|] eqn:Hargs; [|done].
  rewrite get_self_bind_run, emit_bind_run, modify_bind_run.
  rewrite bind_run, (on_subprob_do_run _ _ _ (om_Problem E driver extra)) by done.
  destruct (om_add_subsystem E model (om_Problem E driver extra)) as [p1|e]
    eqn:Hp1; [|done].
  rewrite bind_run, (on_subprob_do_run _ _ _ p1) by done.
  destruct (om_setup E false p1) as [p2|e] eqn:Hp2; [|done].
  rewrite bind_run, (on_subprob_do_run _ _ _ p2) by done.
  destruct (om_final_setup E p2) as [p|e] eqn:Hp; [|done].
  rewrite !modify_bind_run, bind_run.
  match goal with
  | |- context [for_each (options_inputs (self w)) setup_input ?w0] =>
      destruct (for_each (options_inputs (self w)) setup_input w0)
        as [w1 [[]|e]] eqn:Hins; [|done]
  end.
  apply (setup_inputs_ok _ _ _ []) in Hins as [b1 ->]; [|done].
  intros Houts.
  apply (setup_outputs_ok _ _ _ [] (OD.keys (options_inputs (self w))))
    in Houts as [b2 ->]; [|done|done].
  exists model, driver, extra, p. simpl.
  split; [done |]. split; [by rewrite Hp1; simpl; rewrite Hp2 |].
  do 3 (split; [done |]). split; [by rewrite <- !app_assoc |].
  split; [|done].
  rewrite !declared_partials_app, declared_partials_inputs,
    declared_partials_outputs.
  simpl. by rewrite !app_nil_r.
Qed.

End SetupFacts.

(** Witness for X5: [setup] on the constructed small node. *)
Lemma X5_witness :
  exists model driver extra p,
    prob_args (self polar_constructed) = Some (model, driver, extra)
    /\ provisioned (E:=Toy.engine) model driver extra = Ok p
    /\ _subprob (self polar_set_up) = Some p
    /\ _input_names (self polar_set_up)
       = Some (OD.keys (options_inputs (self polar_constructed)))
    /\ _output_names (self polar_set_up)
       = Some (OD.keys (options_outputs (self polar_constructed)))
    /\ log polar_set_up
       = log polar_constructed
         ++ [CProblem Subprob; CAddSubsystem; CSetup Subprob false;
             CFinalSetup Subprob]
         ++ input_registrations (heap polar_constructed)
              (options_inputs (self polar_constructed))
         ++ output_registrations (heap polar_constructed)
              (OD.keys (options_inputs (self polar_constructed)))
              (options_outputs (self polar_constructed))
    /\ declared_partials (log polar_set_up)
       = declared_partials (log polar_constructed)
         ++ flat_map
              (fun o => map (pair o)
                          (OD.keys (options_inputs (self polar_constructed))))
              (OD.keys (options_outputs (self polar_constructed)))
    /\ _prev_complex_step (self polar_set_up)
       = _prev_complex_step (self polar_constructed).
Proof.
  apply (X5_setup_registers_every_binding (E:=Toy.engine) polar_constructed
           polar_set_up).
  apply (run_eq (setup (E:=Toy.engine) polar_constructed)).
  vm_compute. reflexivity.
Defined.

(** ** What an evaluation never does (lines 233-275) *)

Section EvaluationFacts.
Context {E : Engine}.
Implicit Types (w : World E) (p : Problem E).

(** A call that re-provisions the inner problem or switches its mode
    (lines 239-245). *)
Definition is_mode_call (c : call E) : bool :=
  match c with
  | CSetup Subprob _ | CFinalSetup Subprob | CSetComplexStepMode _ => true
  | _ => false
  end.

(** A call that pushes a value or asks for total derivatives. *)
Definition is_push_or_totals (c : call E) : bool :=
  match c with
  | CSetVal _ _ | CComputeTotals _ _ _ => true
  | _ => false
  end.

(** [grown l0 P w]: since the log was [l0], only calls that satisfy [P] have
    been made. *)
Definition grown (l0 : list (call E)) (P : call E -> bool) w : Prop :=
  exists new, log w = l0 ++ new /\ Forall (fun c => P c = true) new.

Lemma invoke_bind_run {A B} c (x : res A) (f : A -> M B) w :
  (invoke c x ≫= f) w
  = match x with
    | Ok a => f a {| heap := heap w; self := self w; log := log w ++ [c] |}
    | Raise e =>
        ({| heap := heap w; self := self w; log := log w ++ [c] |}, Raise e)
    end.
Proof. by destruct x. Qed.

Lemma grown_refl P w : grown (log w) P w.
Proof. exists []. by rewrite app_nil_r. Qed.

Lemma grown_call l0 (P : call E -> bool) c w :
  P c = true -> grown l0 P w ->
  grown l0 P {| heap := heap w; self := self w; log := log w ++ [c] |}.
Proof.
  intros Hc (new & Hl & Hall). exists (new ++ [c]). simpl.
  rewrite Hl, app_assoc. split; [done |].
  apply Forall_app. split; [done | by constructor].
Qed.

Section Closed.
Variable (I : World E -> Prop) (P : call E -> bool).
Hypothesis I_call : forall c w, P c = true -> I w ->
  I {| heap := heap w; self := self w; log := log w ++ [c] |}.
Hypothesis I_subprob : forall p w, I w ->
  I {| heap := heap w; self := set_subprob (Some p) (self w); log := log w |}.

Lemma closed_on_subprob_do c f : P c = true -> stable I (on_subprob_do c f).
Proof.
  intros Hc. apply stable_bind; [apply stable_getattr | intros p].
  apply stable_bind; [apply stable_invoke; intros; by apply I_call | intros p'].
  apply stable_modify. intros; by apply I_subprob.
Qed.

Lemma closed_bound_prom_name side alias : stable I (bound_prom_name side alias).
Proof.
  apply stable_bind; [apply stable_get_self | intros c].
  apply stable_bind; [apply stable_getitem | intros r].
  apply stable_bind; [apply stable_get_heap | intros h]. apply stable_lift.
Qed.

Lemma closed_push_inputs inputs :
  (forall n v, P (CSetVal n v) = true) -> stable I (push_inputs inputs).
Proof.
  intros HP. apply stable_bind; [apply stable_getattr | intros names].
  apply stable_for_each. intros inp.
  apply stable_bind; [apply closed_bound_prom_name | intros prom].
  apply stable_bind; [apply stable_getitem | intros v].
  by apply closed_on_subprob_do.
Qed.

Lemma closed_run_inner :
  P CRunDriver = true -> P CRunModel = true -> stable I run_inner.
Proof.
  intros Hd Hm. apply stable_bind; [apply stable_getattr | intros p].
  destruct (om_driver E p); by apply closed_on_subprob_do.
Qed.

Lemma closed_pull_outputs outputs :
  (forall n, P (CGetVal n) = true) -> stable I (pull_outputs outputs).
Proof.
  intros HP. apply stable_bind; [apply stable_getattr | intros names].
  apply stable_for_fold. intros outs op.
  apply stable_bind; [apply closed_bound_prom_name | intros prom].
  apply stable_bind; [apply stable_getattr | intros p].
  apply stable_bind; [apply stable_invoke; intros; by apply I_call | intros v].
  apply stable_ret.
Qed.

Lemma closed_compute_partials inputs partials :
  (forall n v, P (CSetVal n v) = true) ->
  (forall o i b, P (CComputeTotals o i b) = true) ->
  stable I (compute_partials inputs partials).
Proof.
  intros Hs Ht. apply stable_bind; [apply stable_getattr | intros _].
  apply stable_bind; [by apply closed_push_inputs | intros _].
  apply stable_bind; [apply stable_getattr | intros output_names].
  apply stable_bind; [apply stable_getattr | intros input_names].
  apply stable_bind; [apply stable_getattr | intros p].
  apply stable_bind; [apply stable_invoke; intros; by apply I_call | intros r].
  apply stable_bind; [apply stable_modify; intros; by apply I_subprob | intros _].
  apply stable_for_fold. intros partials' of_.
  apply stable_for_fold. intros partials'' wrt.
  apply stable_bind; [apply stable_getitem | intros t]. apply stable_ret.
Qed.

End Closed.

Lemma compute_same_mode_quiet mode inputs outputs w w' r :
  _prev_complex_step (self w) = mode ->
  compute mode inputs outputs w = (w', r) ->
  _prev_complex_step (self w') = mode
  /\ exists new, log w' = log w ++ new
                 /\ Forall (fun c => is_mode_call c = false) new.
Proof.
  intros Hprev Hrun.
  set (P := fun c : call E => negb (is_mode_call c)).
  set (I := fun w1 => _prev_complex_step (self w1) = mode /\ grown (log w) P w1).
  assert (forall c w1, P c = true -> I w1 ->
            I {| heap := heap w1; self := self w1; log := log w1 ++ [c] |})
    as Hcall by (intros c w1 Hc [? ?]; split; [done | by apply grown_call]).
  assert (forall p w1, I w1 ->
            I {| heap := heap w1; self := set_subprob (Some p) (self w1);
                 log := log w1 |}) as Hsub by (by intros p w1 [? ?]).
  assert (stable I (compute mode inputs outputs)) as Hst.
  { apply stable_bind; [apply stable_getattr | intros _].
    apply stable_bind.
    { intros w1 w1' r1 [Hm Hg]. unfold switch_mode.
      rewrite get_self_bind_run, Hm, eqb_reflx. by intros [= <- _]. }
    intros _. apply stable_bind; [by apply (closed_push_inputs I P) | intros _].
    apply stable_bind; [by apply (closed_run_inner I P) | intros _].
    by apply (closed_pull_outputs I P). }
  destruct (Hst w w' r) as [Hm (new & Hl & Hall)];
    [split; [done | apply grown_refl] | done |].
  split; [done |]. exists new. split; [done |].
  eapply Forall_impl; [exact Hall |]. intros c Hc. by apply negb_true_iff.
Qed.

(** X6: an evaluation in the recorded mode, however it ends, makes no
    [setup], [final_setup] or [set_complex_step_mode] call on the inner
    problem, and the recorded mode stays what it was. *)
Theorem X6_same_mode_evaluation_never_reprovisions
    mode inputs outputs w w' r :
  _prev_complex_step (self w) = mode ->
  compute mode inputs outputs w = (w', r) ->
  _prev_complex_step (self w') = mode
  /\ exists new, log w' = log w ++ new
                 /\ Forall (fun c => is_mode_call c = false) new.
Proof. apply compute_same_mode_quiet. Qed.

(** X7: [compute_partials], however it ends, only pushes values and asks
    for total derivatives: it makes no [setup], [final_setup],
    [set_complex_step_mode], [run_model], [run_driver] or [get_val] call,
    and it leaves the recorded mode, the name lists and the bindings as
    they were. *)
Theorem X7_compute_partials_only_pushes_and_differentiates
    inputs partials w w' r :
  compute_partials inputs partials w = (w', r) ->
  (exists new, log w' = log w ++ new
               /\ Forall (fun c => is_push_or_totals c = true) new
               /\ length (totals_requests new) <= 1)
  /\ _prev_complex_step (self w') = _prev_complex_step (self w)
  /\ _input_names (self w') = _input_names (self w)
  /\ _output_names (self w') = _output_names (self w)
  /\ options_inputs (self w') = options_inputs (self w)
  /\ options_outputs (self w') = options_outputs (self w).
Proof.
  intros Hrun.
  set (I := fun w1 =>
    grown (log w) is_push_or_totals w1
    /\ _prev_complex_step (self w1) = _prev_complex_step (self w)
    /\ _input_names (self w1) = _input_names (self w)
    /\ _output_names (self w1) = _output_names (self w)
    /\ options_inputs (self w1) = options_inputs (self w)
    /\ options_outputs (self w1) = options_outputs (self w)).
  assert (stable I (compute_partials inputs partials)) as Hst.
  { apply (closed_compute_partials I is_push_or_totals);
      [intros c w1 Hc (? & ?); split; [by apply grown_call | done]
      | by intros p w1 (? & ?) | done | done]. }
  destruct (Hst w w' r) as (Hg & Hrest);
    [split; [apply grown_refl | done] | done |].
  split; [|done]. destruct Hg as (new & Hl & Hall). exists new.
  split; [done |]. split; [done |].
  (* at most one request: the loop of pushes precedes it *)
  clear Hrest Hst I Hall. revert Hrun. unfold compute_partials.
  rewrite bind_run, getattr_run.
  destruct (_subprob (self w)) as [p|]; [|intros [= <- _];
    rewrite <- (app_nil_r (log w)) in Hl at 1;
    apply app_inv_head in Hl; subst; simpl; lia].
  rewrite bind_run.
  destruct (push_inputs inputs w) as [w1 r1] eqn:Hpush.
  assert (exists l1, log w1 = log w ++ l1 /\ totals_requests l1 = [])
    as (l1 & Hl1 & Hn1).
  { set (P := fun c : call E => match c with CSetVal _ _ => true | _ => false end).
    destruct (closed_push_inputs (grown (log w) P) P) with (inputs := inputs)
      (w := w) (w' := w1) (r := r1) as (l1 & Hl1 & Hall1); try done.
    - intros c w2 Hc Hg. by apply grown_call.
    - apply grown_refl.
    - exists l1. split; [done |]. clear -Hall1.
      induction Hall1 as [|c l Hc _ IH]; [done |]. by destruct c. }
  destruct r1 as [[]|e].
  2: { intros [= <- _]. rewrite Hl1 in Hl. apply app_inv_head in Hl.
       subst. rewrite Hn1. simpl. lia. }
  rewrite bind_run, getattr_run.
  destruct (_output_names (self w1)) as [outs|];
    [|intros [= <- _]; rewrite Hl1 in Hl; apply app_inv_head in Hl;
      subst; rewrite Hn1; simpl; lia].
  rewrite bind_run, getattr_run.
  destruct (_input_names (self w1)) as [ins|];
    [|intros [= <- _]; rewrite Hl1 in Hl; apply app_inv_head in Hl;
      subst; rewrite Hn1; simpl; lia].
  rewrite bind_run, getattr_run.
  destruct (_subprob (self w1)) as [p1|];
    [|intros [= <- _]; rewrite Hl1 in Hl; apply app_inv_head in Hl;
      subst; rewrite Hn1; simpl; lia].
  rewrite invoke_bind_run.
  set (w2 := {| heap := heap w1; self := self w1;
                log := log w1 ++ [CComputeTotals outs ins false] |}).
  assert (forall w3, log w3 = log w2 -> w3 = w' ->
            length (totals_requests new) <= 1) as Hend.
  { intros w3 H3 <-. rewrite H3 in Hl. subst w2. simpl in Hl.
    rewrite Hl1, <- app_assoc in Hl. apply app_inv_head in Hl. subst new.
    unfold totals_requests in *. rewrite omap_app, Hn1. simpl. lia. }
  destruct (om_compute_totals E outs ins false p1) as [[p2 tots]|e];
    [|intros [= <- _]; by apply (Hend w2)].
  rewrite modify_bind_run. intros Hfold.
  eapply (Hend w'); [|done].
  eapply (stable_for_fold (fun w3 => log w3 = log w2)); [| |exact Hfold]; [|done].
  intros acc of_. apply stable_for_fold. intros acc' wrt.
  apply stable_bind; [apply stable_getitem | intros t]. apply stable_ret.
Qed.

(** What [setup] has no business with: the recorded mode, the stored
    problem arguments and which dictionary each alias is bound to. *)
Definition node_frame w
  : bool * option (Model E * option (Driver E) * Extra E)
    * odict string ref * odict string ref :=
  (_prev_complex_step (self w), prob_args (self w),
   options_inputs (self w), options_outputs (self w)).

Lemma stable_setup_frame fr : stable (fun w => node_frame w = fr) setup.
Proof.
  set (I := fun w => node_frame w = fr).
  assert (forall c f, stable I (on_subprob_do c f)) as Hsub.
  { intros c f. by apply (closed_on_subprob_do I (fun _ => true)). }
  assert (forall c f, stable I (on_base_do c f)) as Hbase.
  { intros c f. apply stable_bind; [apply stable_getattr | intros b].
    apply stable_bind; [by apply stable_invoke | intros b'].
    by apply stable_modify. }
  assert (forall r, stable I (deref r)) as Hderef.
  { intros r. apply stable_bind; [apply stable_get_heap | intros h].
    destruct (h !! r); [apply stable_ret | apply stable_raise]. }
  assert (forall r k, stable I (meta_pop r k)) as Hpop.
  { intros r k. apply stable_bind; [apply Hderef | intros m].
    apply stable_bind; [apply stable_getitem | intros v].
    apply stable_bind; [apply stable_get_heap | intros h].
    apply stable_bind; [by apply stable_put_heap | intros _]. apply stable_ret. }
  assert (forall r k v, stable I (meta_setitem r k v)) as Hset.
  { intros r k v. apply stable_bind; [apply Hderef | intros m].
    apply stable_bind; [apply stable_get_heap | intros h].
    by apply stable_put_heap. }
  unfold setup.
  apply stable_bind; [apply stable_getattr | intros [[model driver] extra]].
  apply stable_bind; [apply stable_get_self | intros c].
  apply stable_bind; [by apply stable_emit | intros _].
  apply stable_bind; [by apply stable_modify | intros _].
  do 3 (apply stable_bind; [apply Hsub | intros _]).
  do 2 (apply stable_bind; [by apply stable_modify | intros _]).
  apply stable_bind; [|intros _].
  - apply stable_for_each. intros [var r]. unfold setup_input.
    apply stable_bind; [apply Hpop | intros v].
    apply stable_bind; [apply Hderef | intros m].
    apply stable_bind; [apply Hbase | intros _].
    apply stable_bind; [apply Hset | intros _].
    apply stable_bind; [apply stable_getattr | intros names].
    by apply stable_modify.
  - apply stable_for_each. intros [var r]. unfold setup_output.
    apply stable_bind; [apply Hpop | intros v].
    apply stable_bind; [apply Hderef | intros m].
    apply stable_bind; [apply Hbase | intros _].
    apply stable_bind; [apply Hset | intros _].
    apply stable_bind.
    { apply stable_bind; [apply stable_getattr | intros names].
      by apply stable_modify. }
    intros _. apply stable_bind; [apply stable_getattr | intros names].
    apply stable_for_each. intros ip. apply Hbase.
Qed.

(** X8: [setup], however it ends, leaves the recorded mode, the stored
    problem arguments and the bindings as they were.  In particular it does
    not reset the recorded mode: the first evaluation after a [setup] that
    is made in the mode recorded before it makes no [setup], [final_setup]
    or [set_complex_step_mode] call on the inner problem [setup] has just
    built. *)
Theorem X8_setup_keeps_recorded_mode w w1 r1 :
  setup w = (w1, r1) ->
  node_frame w1 = node_frame w
  /\ (forall inputs outputs w2 r2,
        compute (_prev_complex_step (self w)) inputs outputs w1 = (w2, r2) ->
        exists new, log w2 = log w1 ++ new
                    /\ Forall (fun c => is_mode_call c = false) new).
Proof.
  intros Hsetup.
  assert (node_frame w1 = node_frame w) as Hfr
    by (by eapply (stable_setup_frame (node_frame w))).
  split; [done |]. intros inputs outputs w2 r2 Hc.
  eapply compute_same_mode_quiet; [|exact Hc].
  by injection Hfr as -> _ _ _.
Qed.

(** Lines 239-241 and 243-245 on a node whose inner problem is [p]. *)
Lemma switch_calls_run (b : bool) w p :
  _subprob (self w) = Some p ->
  (on_subprob_do (CSetup Subprob b) (om_setup E b);;
   on_subprob_do (CFinalSetup Subprob) (om_final_setup E);;
   on_subprob_do (CSetComplexStepMode b) (om_set_complex_step_mode E b)) w
  = match om_setup E b p with
    | Raise e => (logged [CSetup Subprob b] w, Raise e)
    | Ok p1 =>
        match om_final_setup E p1 with
        | Raise e =>
            (logged [CFinalSetup Subprob] (touched p1 [CSetup Subprob b] w),
             Raise e)
        | Ok p2 =>
            match om_set_complex_step_mode E b p2 with
            | Raise e =>
                (logged [CSetComplexStepMode b]
                   (touched p2 [CSetup Subprob b; CFinalSetup Subprob] w),
                 Raise e)
            | Ok p3 =>
                (touched p3 [CSetup Subprob b; CFinalSetup Subprob;
                             CSetComplexStepMode b] w, Ok tt)
            end
        end
    end.
Proof.
  intros Hp. rewrite bind_run, (on_subprob_do_run _ _ _ _ Hp).
  destruct (om_setup E b p) as [p1|e]; [|done].
  rewrite bind_run, (on_subprob_do_run _ _ _ p1) by done.
  destruct (om_final_setup E p1) as [p2|e]; [|done].
  rewrite touched_touched, (on_subprob_do_run _ _ _ p2) by done.
  destruct (om_set_complex_step_mode E b p2) as [p3|e]; [|done].
  by rewrite touched_touched.
Qed.

(** X9: when one of the three calls of a mode switch raises, the evaluation
    raises that error, pushes no value and runs nothing, and the recorded
    mode is not updated, so the next evaluation in that mode attempts the
    switch again. *)
Theorem X9_failed_mode_switch_is_not_recorded mode inputs outputs w p e :
  _subprob (self w) = Some p ->
  _prev_complex_step (self w) = negb mode ->
  switch_problem mode (negb mode) p = Raise e ->
  exists w' new,
    compute mode inputs outputs w = (w', Raise e)
    /\ _prev_complex_step (self w') = negb mode
    /\ log w' = log w ++ new
    /\ new <> []
    /\ new `prefix_of` switch_calls mode (negb mode).
Proof.
  intros Hp Hprev Hsw. unfold compute.
  rewrite bind_run, getattr_run, Hp, bind_run. unfold switch_mode.
  rewrite get_self_bind_run, Hprev.
  unfold switch_problem, switch_calls in *.
  assert (negb (eqb mode (negb mode)) = true) as Hne by (by destruct mode).
  rewrite Hne in *. rewrite bind_run.
  assert ((if mode
           then on_subprob_do (CSetup Subprob true) (om_setup E true);;
                on_subprob_do (CFinalSetup Subprob) (om_final_setup E);;
                on_subprob_do (CSetComplexStepMode true)
                  (om_set_complex_step_mode E true)
           else on_subprob_do (CSetup Subprob false) (om_setup E false);;
                on_subprob_do (CFinalSetup Subprob) (om_final_setup E);;
                on_subprob_do (CSetComplexStepMode false)
                  (om_set_complex_step_mode E false)) w
          = (on_subprob_do (CSetup Subprob mode) (om_setup E mode);;
             on_subprob_do (CFinalSetup Subprob) (om_final_setup E);;
             on_subprob_do (CSetComplexStepMode mode)
               (om_set_complex_step_mode E mode)) w) as ->
    by (by destruct mode).
  rewrite (switch_calls_run mode w p Hp).
  destruct (om_setup E mode p) as [p1|e1]; simpl in Hsw.
  - destruct (om_final_setup E p1) as [p2|e2]; simpl in Hsw.
    + destruct (om_set_complex_step_mode E mode p2) as [p3|e3]; [done |].
      injection Hsw as ->. eexists _, _. split; [done |]. simpl.
      split; [done |]. rewrite <- app_assoc. split; [done |].
      split; [done |]. by exists [].
    + injection Hsw as ->. eexists _, _. split; [done |]. simpl.
      split; [done |]. rewrite <- app_assoc. split; [done |].
      split; [done |]. by exists [CSetComplexStepMode mode].
  - injection Hsw as ->. eexists _, _. split; [done |]. simpl.
    split; [done |]. split; [done |]. split; [done |].
    by exists [CFinalSetup Subprob; CSetComplexStepMode mode].
Qed.

(** X10: a node that was constructed but not set up cannot be evaluated:
    [compute] and [compute_partials] raise [AttributeError] on
    [self._subprob] and change nothing. *)
Theorem X10_evaluation_before_setup model driver extra kwargs ins outs w :
  SubproblemComp model driver extra kwargs ins outs = Ok w ->
  (forall mode inputs outputs,
     compute mode inputs outputs w = (w, Raise (AttributeError "_subprob")))
  /\ (forall inputs partials,
        compute_partials inputs partials w
        = (w, Raise (AttributeError "_subprob"))).
Proof.
  unfold SubproblemComp.
  destruct (__init__ model driver extra kwargs ins outs fresh_world)
    as [w0 [[]|e]] eqn:Hrun; [|done].
  intros [= <-].
  destruct (init_unprovisioned _ _ _ _ _ _ _ _ Hrun) as ([Hnone _] & _).
  split.
  - intros mode inputs outputs. unfold compute.
    by rewrite bind_run, getattr_run, Hnone.
  - intros inputs partials. unfold compute_partials.
    by rewrite bind_run, getattr_run, Hnone.
Qed.

(** The inner loop of lines 273-275 for one output. *)
Lemma store_row_ok (tots : gmap (string * string) (Matrix E)) (o : string)
    (ins : list string) (acc : gmap (string * string) (Matrix E)) w w'
    (res : gmap (string * string) (Matrix E)) :
  for_fold ins (fun partials wrt =>
    t ← getitem (o +:+ ", " +:+ wrt) (tots !! (o, wrt));
    mret (<[(o, wrt) := t]> partials)) acc w = (w', Ok res) ->
  w' = w
  /\ (forall i, i ∈ ins -> is_Some (tots !! (o, i)))
  /\ (forall k, res !! k
                = if decide (k.1 = o /\ k.2 ∈ ins) then tots !! k else acc !! k).
Proof.
  revert acc; induction ins as [|a ins IH]; intros acc; simpl.
  - intros [= <- <-]. split; [done |]. split; [by intros i ?%elem_of_nil |].
    intros k. by rewrite decide_False by (by intros [_ ?%elem_of_nil]).
  - rewrite !bind_run, getitem_run.
    destruct (tots !! (o, a)) as [t|] eqn:Ht; [|done]. simpl.
    intros (-> & Hsome & Hres)%IH. split; [done |]. split.
    + intros i [->|Hi]%elem_of_cons; [by rewrite Ht | by apply Hsome].
    + intros k. rewrite Hres.
      destruct (decide (k.1 = o /\ k.2 ∈ ins)) as [[Hk1 Hk2]|Hn].
      * rewrite decide_True; [done |]. split; [done | by right].
      * destruct (decide (k = (o, a))) as [->|Hne].
        -- rewrite lookup_insert_eq, decide_True; [done |]. split; [done | left].
        -- rewrite lookup_insert_ne by done.
           rewrite decide_False; [done |]. intros [Hk1 [Hk2|Hk2]%elem_of_cons].
           ++ apply Hne. destruct k; simpl in *; by subst.
           ++ by apply Hn.
Qed.

(** The loops of lines 273-275. *)
Lemma store_block_ok (tots : gmap (string * string) (Matrix E))
    (outs ins : list string) (acc : gmap (string * string) (Matrix E)) w w'
    (res : gmap (string * string) (Matrix E)) :
  for_fold outs (fun partials of_ =>
    for_fold ins (fun partials wrt =>
      t ← getitem (of_ +:+ ", " +:+ wrt) (tots !! (of_, wrt));
      mret (<[(of_, wrt) := t]> partials)) partials) acc w = (w', Ok res) ->
  w' = w
  /\ (forall o i, o ∈ outs -> i ∈ ins -> is_Some (tots !! (o, i)))
  /\ (forall k, res !! k
                = if decide (k.1 ∈ outs /\ k.2 ∈ ins) then tots !! k
                  else acc !! k).
Proof.
  revert acc w; induction outs as [|o outs IH]; intros acc w; simpl.
  - intros [= <- <-]. split; [done |]. split; [by intros o i ?%elem_of_nil |].
    done.
  - rewrite bind_run.
    destruct (for_fold ins _ acc w) as [w1 [acc1|e]] eqn:Hrow; [|done].
    apply store_row_ok in Hrow as (-> & Hsome1 & Hres1).
    intros (-> & Hsome & Hres)%IH. split; [done |]. split.
    + intros o' i [->|Ho]%elem_of_cons Hi; [by apply Hsome1 | by apply Hsome].
    + intros k. rewrite Hres, Hres1.
      destruct (decide (k.1 ∈ outs /\ k.2 ∈ ins)) as [[Hk1 Hk2]|Hn].
      * rewrite decide_True; [done |]. split; [by right | done].
      * destruct (decide (k.1 = o /\ k.2 ∈ ins)) as [[Hk1 Hk2]|Hn1].
        -- rewrite decide_True; [done |]. split; [rewrite Hk1; left | done].
        -- rewrite decide_False; [done |].
           intros [[Hk1|Hk1]%elem_of_cons Hk2]; [by apply Hn1 | by apply Hn].
Qed.

(** X11: a [compute_partials] that returns has pushed each input alias's
    value under its promoted name, in order; has then made one request
    [compute_totals(of=_output_names, wrt=_input_names,
    use_abs_names=False)]; and hands back the Jacobian it was given with the
    entry of every (output alias, input alias) pair replaced by the block
    the request returned under that pair, every other entry untouched. *)
Theorem X11_compute_partials_stores_every_pair
    inputs partials w w' result p ins outs :
  _subprob (self w) = Some p ->
  _input_names (self w) = Some ins ->
  _output_names (self w) = Some outs ->
  compute_partials inputs partials w = (w', Ok result) ->
  exists pushed p1 p2 tots,
    Forall2 (fun inp pv => lookup_prom w Input inp = Ok pv.1
                           /\ inputs !! inp = Some pv.2) ins pushed
    /\ push_all pushed p = Ok p1
    /\ om_compute_totals E outs ins false p1 = Ok (p2, tots)
    /\ log w' = log w ++ map (fun pv => CSetVal pv.1 pv.2) pushed
                      ++ [CComputeTotals outs ins false]
    /\ _subprob (self w') = Some p2
    /\ (forall o i, o ∈ outs -> i ∈ ins ->
          exists t, tots !! (o, i) = Some t /\ result !! (o, i) = Some t)
    /\ (forall k, ~ (k.1 ∈ outs /\ k.2 ∈ ins) -> result !! k = partials !! k).
Proof.
  intros Hp Hins Houts. unfold compute_partials.
  rewrite bind_run, getattr_run, Hp, bind_run.
  destruct (push_inputs inputs w) as [w1 [[]|e]] eqn:Hpush; [|done].
  apply (push_inputs_ok _ ins _ _ p) in Hpush
    as (pushed & p1 & Hpushed & Hp1 & ->); [|done|done].
  rewrite bind_run, getattr_run. simpl _output_names. rewrite Houts.
  rewrite bind_run, getattr_run. simpl _input_names. rewrite Hins.
  rewrite bind_run, getattr_run, subprob_touched.
  rewrite invoke_bind_run.
  destruct (om_compute_totals E outs ins false p1) as [[p2 tots]|e] eqn:Ht;
    [|done].
  rewrite modify_bind_run. simpl fst; simpl snd.
  intros (-> & Hsome & Hres)%store_block_ok.
  exists pushed, p1, p2, tots. simpl.
  split; [done |]. split; [done |]. split; [done |].
  split; [by rewrite <- app_assoc |]. split; [done |]. split.
  - intros o i Ho Hi. destruct (Hsome o i Ho Hi) as [t Ht'].
    exists t. split; [done |]. rewrite Hres. by rewrite decide_True.
  - intros k Hk. rewrite Hres. by rewrite decide_False.
Qed.

Lemma for_each_app_run {A} (l1 l2 : list A) (body : A -> M (E:=E) unit) w :
  for_each (l1 ++ l2) body w
  = match for_each l1 body w with
    | (w1, Ok _) => for_each l2 body w1
    | (w1, Raise e) => (w1, Raise e)
    end.
Proof.
  revert w; induction l1 as [|a l1 IH]; intros w; simpl; [done |].
  rewrite !bind_run. destruct (body a w) as [w1 [[]|e]]; [apply IH | done].
Qed.

(** The loop of lines 249-250 over aliases whose values are all there. *)
Lemma push_loop_run (inputs : gmap string (Value E)) names pushed w p p1 :
  _subprob (self w) = Some p ->
  Forall2 (fun inp pv => lookup_prom w Input inp = Ok pv.1
                         /\ inputs !! inp = Some pv.2) names pushed ->
  push_all pushed p = Ok p1 ->
  for_each names (fun inp =>
    prom ← bound_prom_name Input inp;
    v ← getitem inp (inputs !! inp);
    on_subprob_do (CSetVal prom v) (om_set_val E prom v)) w
  = (touched p1 (map (fun pv => CSetVal pv.1 pv.2) pushed) w, Ok tt).
Proof.
  intros Hp Hall. revert names w p Hp Hall.
  induction pushed as [|[prom v] pushed IH]; intros names w p Hp Hall Hpush.
  - apply Forall2_nil_inv_r in Hall as ->. simpl in *. injection Hpush as <-.
    unfold touched. rewrite app_nil_r. destruct w as [h c l]; simpl in *.
    do 2 f_equal. destruct c; simpl in *. by subst.
  - apply Forall2_cons_inv_r in Hall as (inp & names' & [Hl Hv] & Hall & ->).
    simpl in *. rewrite !bind_run, bound_prom_name_run, Hl.
    rewrite bind_run, getitem_run, Hv, (on_subprob_do_run _ _ _ _ Hp).
    destruct (om_set_val E prom v p) as [p'|e] eqn:Hset; [|done].
    simpl in Hpush. rewrite (IH names' (touched p' [CSetVal prom v] w) p').
    all: try done.
    all: try (by rewrite touched_touched).
    all: try (eapply Forall2_impl; [exact Hall |]; intros a b;
              by rewrite lookup_prom_touched).
Qed.

(** X12: when the caller's vector lacks the value of a declared input,
    [compute] (in the recorded mode) and [compute_partials] raise
    [KeyError] on that alias: the inputs that come before it in binding
    order have been pushed, the model has not been run and no derivative
    has been asked for. *)
Theorem X12_missing_input_value
    mode inputs outputs partials w p pre inp post pushed p1 prom :
  _subprob (self w) = Some p ->
  _prev_complex_step (self w) = mode ->
  _input_names (self w) = Some (pre ++ inp :: post) ->
  Forall2 (fun a pv => lookup_prom w Input a = Ok pv.1
                       /\ inputs !! a = Some pv.2) pre pushed ->
  push_all pushed p = Ok p1 ->
  lookup_prom w Input inp = Ok prom ->
  inputs !! inp = None ->
  compute mode inputs outputs w
  = (touched p1 (map (fun pv => CSetVal pv.1 pv.2) pushed) w,
     Raise (KeyError inp))
  /\ compute_partials inputs partials w
     = (touched p1 (map (fun pv => CSetVal pv.1 pv.2) pushed) w,
        Raise (KeyError inp)).
Proof.
  intros Hp Hprev Hnames Hall Hpush Hl Hnone.
  assert (push_inputs inputs w
          = (touched p1 (map (fun pv => CSetVal pv.1 pv.2) pushed) w,
             Raise (KeyError inp))) as Hrun.
  { unfold push_inputs. rewrite bind_run, getattr_run, Hnames.
    rewrite for_each_app_run, (push_loop_run _ _ _ _ _ _ Hp Hall Hpush).
    rewrite for_each_cons, !bind_run, bound_prom_name_run.
    rewrite lookup_prom_touched, Hl, bind_run, getitem_run. by rewrite Hnone. }
  split.
  - unfold compute. rewrite bind_run, getattr_run, Hp, bind_run.
    unfold switch_mode. rewrite get_self_bind_run, Hprev, eqb_reflx.
    simpl. by rewrite bind_run, Hrun.
  - unfold compute_partials. rewrite bind_run, getattr_run, Hp, bind_run.
    by rewrite Hrun.
Qed.

(** A call of the evaluation proper: a push, the run or a read. *)
Definition is_evaluation_call (c : call E) : bool :=
  match c with
  | CSetVal _ _ | CRunDriver | CRunModel | CGetVal _ => true
  | _ => false
  end.

(** X13: an evaluation that returns in a mode other than the recorded one
    has first called, on the inner problem, [setup] with
    [force_alloc_complex] equal to the new mode, [final_setup] and
    [set_complex_step_mode] with the new mode, in this order; the calls
    after them are exactly the pushes of the input values into the
    re-provisioned problem, one run ([run_driver] if the problem has a
    driver, [run_model] otherwise) and the reads of the outputs, so every
    later call is a [set_val], the run or a [get_val] and none of them
    touches the mode; and the new mode is recorded. *)
Theorem X13_mode_switch_precedes_the_evaluation
    mode inputs outputs w w' result p ins outs :
  _subprob (self w) = Some p ->
  _prev_complex_step (self w) = negb mode ->
  _input_names (self w) = Some ins ->
  _output_names (self w) = Some outs ->
  compute mode inputs outputs w = (w', Ok result) ->
  exists p1 p2 p3 pushed q1 q2 pulled rest,
    om_setup E mode p = Ok p1
    /\ om_final_setup E p1 = Ok p2
    /\ om_set_complex_step_mode E mode p2 = Ok p3
    /\ Forall2 (fun inp pv => lookup_prom w Input inp = Ok pv.1
                              /\ inputs !! inp = Some pv.2) ins pushed
    /\ push_all pushed p3 = Ok q1
    /\ settle q1 = Ok q2
    /\ Forall2 (fun op pv => lookup_prom w Output op = Ok pv.1
                             /\ om_get_val E pv.1 q2 = Ok pv.2) outs pulled
    /\ rest = map (fun pv => CSetVal pv.1 pv.2) pushed
              ++ [if om_driver E q1 is Some _ then CRunDriver else CRunModel]
              ++ map (fun pv => CGetVal pv.1) pulled
    /\ log w' = log w ++ [CSetup Subprob mode; CFinalSetup Subprob;
                          CSetComplexStepMode mode] ++ rest
    /\ Forall (fun c => is_evaluation_call c = true) rest
    /\ Forall (fun c => is_mode_call c = false) rest
    /\ _prev_complex_step (self w') = mode.
Proof.
  intros Hp Hprev Hins Houts Hrun.
  apply (compute_ok _ _ _ _ _ _ p ins outs) in Hrun
    as (p0 & pushed & q1 & q2 & pulled & Hsw & Hpushed & Hq1 & Hq2 & Hpulled
        & _ & ->);
    [|done|done|done].
  rewrite Hprev in *. unfold switch_problem, switch_calls in *.
  assert (negb (eqb mode (negb mode)) = true) as Hne by (by destruct mode).
  rewrite Hne in *.
  destruct (om_setup E mode p) as [p1|e] eqn:H1; [|done]. simpl in Hsw.
  destruct (om_final_setup E p1) as [p2|e] eqn:H2; [|done]. simpl in Hsw.
  exists p1, p2, p0, pushed, q1, q2, pulled,
    (map (fun pv => CSetVal pv.1 pv.2) pushed
     ++ [if om_driver E q1 is Some _ then CRunDriver else CRunModel]
     ++ map (fun pv => CGetVal pv.1) pulled).
  do 8 (split; [done |]). split; [done |]. split; [|split; [|done]].
  - apply Forall_app. split; [by apply Forall_map, Forall_true |].
    apply Forall_app. split; [|by apply Forall_map, Forall_true].
    constructor; [|done]. by destruct (om_driver E q1).
  - apply Forall_app. split; [by apply Forall_map, Forall_true |].
    apply Forall_app. split; [|by apply Forall_map, Forall_true].
    constructor; [|done]. by destruct (om_driver E q1).
Qed.

End EvaluationFacts.

(** ** The small node again *)

(** The small node with its output bound under its own name. *)
Definition plain_node : World Toy.engine :=
  {| heap := [to_meta (E:=Toy.engine) (Toy.describe ("subsys.r", "r")).2;
              to_meta (E:=Toy.engine) (Toy.describe ("subsys.theta", "theta")).2;
              to_meta (E:=Toy.engine) (Toy.describe ("subsys.x", "x")).2];
     self := {| base := Some (["r"; "theta"; "x"] : Base Toy.engine);
                options_inputs := [("r", 0); ("theta", 1)];
                options_outputs := [("x", 2)];
                _prev_complex_step := false;
                prob_args := Some (Toy.polar, None, tt);
                _subprob := Some polar_ready;
                _input_names := Some ["r"; "theta"];
                _output_names := Some ["x"] |};
     log := [] |}.

Definition plain_partials : gmap (string * string) Z :=
  {[ ("x", "r") := 1%Z; ("x", "theta") := 2%Z ]}.

Definition plain_differentiated :=
  compute_partials (E:=Toy.engine) polar_inputs ∅ plain_node.

(** An inner problem that cannot be put under complex step. *)
Definition real_only : Engine := {|
  Value := Z; Matrix := Z; Model := Toy.model; Driver := unit; Extra := unit;
  Kwargs := unit; Problem := Toy.problem; Base := list string;
  om_component_init := om_component_init Toy.engine;
  om_add_input := om_add_input Toy.engine;
  om_add_output := om_add_output Toy.engine;
  om_declare_partials := om_declare_partials Toy.engine;
  om_Problem_of_model := om_Problem_of_model Toy.engine;
  om_Problem := om_Problem Toy.engine;
  om_add_subsystem := om_add_subsystem Toy.engine;
  om_setup := om_setup Toy.engine;
  om_final_setup := om_final_setup Toy.engine;
  om_list_inputs := om_list_inputs Toy.engine;
  om_list_outputs := om_list_outputs Toy.engine;
  om_set_complex_step_mode := fun active p =>
    if active then Raise (EngineError "complex step is not supported")
    else Toy.do_set_complex_step_mode active p;
  om_set_val := om_set_val Toy.engine;
  om_get_val := om_get_val Toy.engine;
  om_driver := om_driver Toy.engine;
  om_run_driver := om_run_driver Toy.engine;
  om_run_model := om_run_model Toy.engine;
  om_compute_totals := om_compute_totals Toy.engine
|}.

Definition real_only_node : World real_only :=
  {| heap := [to_meta (E:=real_only) (Toy.describe ("subsys.r", "r")).2;
              to_meta (E:=real_only) (Toy.describe ("subsys.theta", "theta")).2;
              to_meta (E:=real_only) (Toy.describe ("subsys.x", "x")).2];
     self := {| base := Some (["r"; "theta"; "x"] : Base real_only);
                options_inputs := [("r", 0); ("theta", 1)];
                options_outputs := [("x", 2)];
                _prev_complex_step := false;
                prob_args := Some ((Toy.polar : Model real_only), None, tt);
                _subprob := Some (polar_ready : Problem real_only);
                _input_names := Some ["r"; "theta"];
                _output_names := Some ["x"] |};
     log := [] |}.

(** Witness for X6: a real-mode evaluation of the small node. *)
Lemma X6_witness :
  _prev_complex_step (self polar_run1.1) = false
  /\ exists new, log polar_run1.1 = log polar_node ++ new
                 /\ Forall (fun c => is_mode_call c = false) new.
Proof.
  apply (X6_same_mode_evaluation_never_reprovisions (E:=Toy.engine) false
           polar_inputs ∅ polar_node polar_run1.1 (Ok {[ "a" := 11%Z ]}));
    [reflexivity |].
  apply (run_eq polar_run1). vm_compute. reflexivity.
Defined.

(** Witness for X7: the derivatives of the small node. *)
Lemma X7_witness :
  (exists new, log plain_differentiated.1 = log plain_node ++ new
               /\ Forall (fun c => is_push_or_totals c = true) new
               /\ length (totals_requests new) <= 1)
  /\ _prev_complex_step (self plain_differentiated.1)
     = _prev_complex_step (self plain_node)
  /\ _input_names (self plain_differentiated.1) = _input_names (self plain_node)
  /\ _output_names (self plain_differentiated.1)
     = _output_names (self plain_node)
  /\ options_inputs (self plain_differentiated.1)
     = options_inputs (self plain_node)
  /\ options_outputs (self plain_differentiated.1)
     = options_outputs (self plain_node).
Proof.
  apply (X7_compute_partials_only_pushes_and_differentiates (E:=Toy.engine)
           polar_inputs ∅ plain_node plain_differentiated.1
           (Ok plain_partials)).
  apply (run_eq plain_differentiated). vm_compute. reflexivity.
Defined.

(** Witness for X8: [setup] on the constructed small node. *)
Lemma X8_witness :
  node_frame polar_set_up = node_frame polar_constructed
  /\ (forall inputs outputs w2 r2,
        compute (E:=Toy.engine) (_prev_complex_step (self polar_constructed))
          inputs outputs polar_set_up = (w2, r2) ->
        exists new, log w2 = log polar_set_up ++ new
                    /\ Forall (fun c => is_mode_call c = false) new).
Proof.
  apply (X8_setup_keeps_recorded_mode (E:=Toy.engine) polar_constructed
           polar_set_up (Ok tt)).
  apply (run_eq (setup (E:=Toy.engine) polar_constructed)).
  vm_compute. reflexivity.
Defined.

(** Witness for X9: a complex-step evaluation on the inner problem that
    cannot be put under complex step. *)
Lemma X9_witness :
  exists w' new,
    compute (E:=real_only) true polar_inputs ∅ real_only_node
    = (w', Raise (EngineError "complex step is not supported"))
    /\ _prev_complex_step (self w') = negb true
    /\ log w' = log real_only_node ++ new
    /\ new <> []
    /\ new `prefix_of` switch_calls (E:=real_only) true (negb true).
Proof.
  apply (X9_failed_mode_switch_is_not_recorded (E:=real_only) true polar_inputs
           ∅ real_only_node polar_ready
           (EngineError "complex step is not supported"));
    [reflexivity | reflexivity |].
  apply error_of_Some. vm_compute. reflexivity.
Defined.

(** Witness for X10: the small node constructed and not set up. *)
Lemma X10_witness :
  (forall mode inputs outputs,
     compute (E:=Toy.engine) mode inputs outputs polar_constructed
     = (polar_constructed, Raise (AttributeError "_subprob")))
  /\ (forall inputs partials,
        compute_partials (E:=Toy.engine) inputs partials polar_constructed
        = (polar_constructed, Raise (AttributeError "_subprob"))).
Proof.
  apply (X10_evaluation_before_setup (E:=Toy.engine) Toy.polar None tt tt
           (Some [SelStr "r"; SelStr "theta"]) (Some [SelTuple "x" "a"])
           polar_constructed).
  apply SubproblemComp_ok.
  apply (run_eq (__init__ (E:=Toy.engine) Toy.polar None tt tt
                   (Some [SelStr "r"; SelStr "theta"])
                   (Some [SelTuple "x" "a"]) fresh_world)).
  vm_compute. reflexivity.
Defined.

(** Witness for X11: the derivatives of the small node at [r = 3],
    [theta = 4]. *)
Lemma X11_witness :
  exists pushed p1 p2 tots,
    Forall2 (fun inp pv => lookup_prom plain_node Input inp = Ok pv.1
                           /\ polar_inputs !! inp = Some pv.2)
      ["r"; "theta"] pushed
    /\ push_all (E:=Toy.engine) pushed polar_ready = Ok p1
    /\ om_compute_totals Toy.engine ["x"] ["r"; "theta"] false p1 = Ok (p2, tots)
    /\ log plain_differentiated.1
       = log plain_node ++ map (fun pv => CSetVal pv.1 pv.2) pushed
                        ++ [CComputeTotals ["x"] ["r"; "theta"] false]
    /\ _subprob (self plain_differentiated.1) = Some p2
    /\ (forall o i, o ∈ ["x"] -> i ∈ ["r"; "theta"] ->
          exists t, tots !! (o, i) = Some t /\ plain_partials !! (o, i) = Some t)
    /\ (forall k, ~ (k.1 ∈ ["x"] /\ k.2 ∈ ["r"; "theta"]) ->
          plain_partials !! k = (∅ : gmap (string * string) Z) !! k).
Proof.
  apply (X11_compute_partials_stores_every_pair (E:=Toy.engine) polar_inputs ∅
           plain_node plain_differentiated.1 plain_partials polar_ready
           ["r"; "theta"] ["x"]);
    [reflexivity | reflexivity | reflexivity |].
  apply (run_eq plain_differentiated). vm_compute. reflexivity.
Defined.

(** Witness for X12: the small node evaluated without a value for
    [theta]. *)
Lemma X12_witness :
  compute (E:=Toy.engine) false {[ "r" := 3%Z ]} ∅ polar_node
  = (touched (E:=Toy.engine) (Toy.set_vals (insert "r" 3%Z) polar_ready)
       (map (fun pv => CSetVal (E:=Toy.engine) pv.1 pv.2) [("r", 3%Z)])
       polar_node,
     Raise (KeyError "theta"))
  /\ compute_partials (E:=Toy.engine) {[ "r" := 3%Z ]} ∅ polar_node
     = (touched (E:=Toy.engine) (Toy.set_vals (insert "r" 3%Z) polar_ready)
          (map (fun pv => CSetVal (E:=Toy.engine) pv.1 pv.2) [("r", 3%Z)])
       polar_node,
        Raise (KeyError "theta")).
Proof.
  apply (X12_missing_input_value (E:=Toy.engine) false {[ "r" := 3%Z ]} ∅ ∅
           polar_node polar_ready ["r"] "theta" [] [("r", 3%Z)]
           (Toy.set_vals (insert "r" 3%Z) polar_ready) "theta");
    [reflexivity | reflexivity | reflexivity | | reflexivity
    | vm_compute; reflexivity | vm_compute; reflexivity].
  constructor; [|constructor]. split; vm_compute; reflexivity.
Defined.

(** Witness for X13: a complex-step evaluation of the small node. *)
Lemma X13_witness :
  exists p1 p2 p3 pushed q1 q2 pulled rest,
    om_setup Toy.engine true polar_ready = Ok p1
    /\ om_final_setup Toy.engine p1 = Ok p2
    /\ om_set_complex_step_mode Toy.engine true p2 = Ok p3
    /\ Forall2 (fun inp pv => lookup_prom polar_node Input inp = Ok pv.1
                              /\ polar_inputs !! inp = Some pv.2)
         ["r"; "theta"] pushed
    /\ push_all (E:=Toy.engine) pushed p3 = Ok q1
    /\ settle (E:=Toy.engine) q1 = Ok q2
    /\ Forall2 (fun op pv => lookup_prom polar_node Output op = Ok pv.1
                             /\ om_get_val Toy.engine pv.1 q2 = Ok pv.2)
         ["a"] pulled
    /\ rest = map (fun pv => CSetVal pv.1 pv.2) pushed
              ++ [if om_driver Toy.engine q1 is Some _ then CRunDriver
                  else CRunModel]
              ++ map (fun pv => CGetVal pv.1) pulled
    /\ log (compute (E:=Toy.engine) true polar_inputs ∅ polar_node).1
       = log polar_node ++ [CSetup Subprob true; CFinalSetup Subprob;
                            CSetComplexStepMode true] ++ rest
    /\ Forall (fun c => is_evaluation_call c = true) rest
    /\ Forall (fun c => is_mode_call c = false) rest
    /\ _prev_complex_step
         (self (compute (E:=Toy.engine) true polar_inputs ∅ polar_node).1)
       = true.
Proof.
  apply (X13_mode_switch_precedes_the_evaluation (E:=Toy.engine) true
           polar_inputs ∅ polar_node
           (compute (E:=Toy.engine) true polar_inputs ∅ polar_node).1
           {[ "a" := 11%Z ]} polar_ready ["r"; "theta"] ["a"]);
    [reflexivity | reflexivity | reflexivity | reflexivity |].
  apply (run_eq (compute (E:=Toy.engine) true polar_inputs ∅ polar_node)).
  vm_compute. reflexivity.
Defined.

(** ** Which entry a selector is bound to (lines 97-98, 117-118) *)

Section BindingChoice.
Context {E : Engine}.
Implicit Types (w : World E).

Lemma bind_selectors_ok_get side (h : store (Value E)) table sels opts' s a :
  bind_selectors side h table sels [] = (opts', Ok tt) ->
  s ∈ sels -> alias_of s = Some a ->
  OD.get a opts' = last (matching h (selector_test s) table).
Proof.
  intros Hb Hs Ha.
  pose proof (bind_selectors_ok_NoDup _ _ _ _ _ _ Hb (NoDup_nil_2)) as Hnd.
  apply bind_selectors_ok_bindings in Hb as (new & -> & Hall). simpl in *.
  apply list_elem_of_lookup in Hs as [i Hi].
  destruct (Forall2_lookup_l _ _ _ _ _ Hall Hi) as ([a' r] & Hnew & Ha' & Hl).
  simpl in *. rewrite Ha in Ha'. injection Ha' as <-. rewrite Hl.
  apply od_get_elem; [done |]. by eapply list_elem_of_lookup_2.
Qed.

(** X14: in a constructed node each selector's alias is bound to the last
    entry, in table order, that the selector's test lets through.  For a
    bare selector that several promoted names end with, this is the last of
    them: the earlier ones are silently passed over. *)
Theorem X14_selector_binds_last_match
    model driver extra kwargs w1 ti to ins outs w :
  harvest model driver extra kwargs fresh_world = (w1, Ok (ti, to)) ->
  SubproblemComp model driver extra kwargs (Some ins) (Some outs) = Ok w ->
  heap w = heap w1
  /\ (forall s a, s ∈ ins -> alias_of s = Some a ->
        OD.get a (options_inputs (self w))
        = last (matching (heap w1) (selector_test s) ti))
  /\ (forall s a, s ∈ outs -> alias_of s = Some a ->
        OD.get a (options_outputs (self w))
        = last (matching (heap w1) (selector_test s) to)).
Proof.
  intros H. unfold SubproblemComp.
  rewrite (init_run _ _ _ _ _ _ _ _ _ H).
  destruct (bind_selectors Input (heap w1) ti ins []) as [oi [[]|e]] eqn:Hi;
    [|done].
  destruct (bind_selectors Output (heap w1) to outs []) as [oo [[]|e]] eqn:Ho;
    [|done].
  intros [= <-]. simpl. split; [done |]. split.
  - intros s a Hs Ha. by eapply bind_selectors_ok_get.
  - intros s a Hs Ha. by eapply bind_selectors_ok_get.
Qed.

End BindingChoice.

(** Witness for X14 on the two-output model: [gain] and [value] each have
    two candidates. *)
Definition twin_ambiguous : World Toy.engine :=
  (__init__ (E:=Toy.engine) Toy.twin None tt tt
     (Some [SelStr "gain"]) (Some [SelStr "value"]) fresh_world).1.

Lemma X14_witness :
  heap twin_ambiguous = heap twin_harvested.1
  /\ (forall s a, s ∈ [SelStr "gain"] -> alias_of s = Some a ->
        OD.get a (options_inputs (self twin_ambiguous))
        = last (matching (heap twin_harvested.1) (selector_test s) twin_inputs))
  /\ (forall s a, s ∈ [SelStr "value"] -> alias_of s = Some a ->
        OD.get a (options_outputs (self twin_ambiguous))
        = last (matching (heap twin_harvested.1) (selector_test s)
                  twin_outputs)).
Proof.
  apply (X14_selector_binds_last_match (E:=Toy.engine) Toy.twin None tt tt
           twin_harvested.1 twin_inputs twin_outputs
           [SelStr "gain"] [SelStr "value"] twin_ambiguous twin_harvested_eq).
  apply SubproblemComp_ok.
  apply (run_eq (__init__ (E:=Toy.engine) Toy.twin None tt tt
                   (Some [SelStr "gain"]) (Some [SelStr "value"]) fresh_world)).
  vm_compute. reflexivity.
Defined.
